(** * FunctionMaxima: a partial function with an incrementally kept index
      of its local maxima (function_maxima.h)

    The class template [FunctionMaxima<A, V>] keeps two [std::multiset]s of
    points: [function], ordered by argument, and [maxima], ordered by
    (value descending, argument ascending).  This development embeds the
    class in Rocq and verifies its contract.

    Modelling choices.
    - [A] and [V] are arbitrary types with an [operator<] (class [Less]);
      the theorems assume that it is a strict total order.
    - A [point] owns its argument and value through [shared_ptr]s and only
      hands out references to const: a point is never changed after it has
      been built, so sharing is not observable and a point is its contents.
    - A [std::multiset] is the sorted list of its nodes.  An iterator into
      [function] is a position ([end()] is the length); the model moves the
      positions held by the caller when a node is linked in before them.
      An iterator into [maxima] is the point its node holds ([None] is
      [mx_end()]).
    - Whatever can throw is a fault site: a comparison, the allocation of a
      point or of a set node, and the growth of the rollback vector in
      [push_back].  A [plan] says which occurrence of each site fails.  A
      call into the set library is one fault site per kind of failure; the
      library leaves the set untouched when such a call throws.
    - Dereferencing an iterator that designates no node is [Undefined].
    - For copies, objects live in a memory: a set member owns the tree of
      its nodes, designated by an address, and the copy of a set allocates
      a new tree.  Two objects are independent when no tree belongs to
      both.
    - [reachable] are the objects that calls of [set_value] and [erase]
      lead to from the empty one, whatever happens in the calls; [intact]
      are those among them in whose history [rollback.push_back] has not
      thrown.  What the class promises of the point store holds of every
      reachable object and is stated for [reachable]; what it promises of
      the maxima set holds of the intact objects only, and is stated for
      [intact]. *)

From stdpp Require Import base list sorting gmap.
From Stdlib Require Import ZArith Lia.

Set Default Proof Using "Type*".

(** ** Orderings *)

(** [operator<] of a template argument. *)
Class Less (T : Type) := less : T → T → bool.

(** What the theorems ask of [operator<]: a strict total order. *)
Class StrictTotal (T : Type) `{Less T} := {
  less_irrefl : ∀ x : T, less x x = false;
  less_trans : ∀ x y z : T, less x y = true → less y z = true → less x z = true;
  less_total : ∀ x y : T, less x y = false → less y x = false → x = y
}.

(** ** Fault sites and outcomes *)

Inductive site := Compare | Allocate | Grow.

Global Instance site_eq_dec : EqDecision site.
Proof. solve_decision. Defined.

(** [plan k = Some n]: the first [n] operations of kind [k] succeed and the
    next one throws; [None]: operations of kind [k] never throw. *)
Definition plan := site → option nat.

Definition no_faults : plan := λ _, None.

Definition fail_at (k : site) (n : nat) : plan :=
  λ k', if decide (k' = k) then Some n else None.

Inductive exn := InvalidArg | Failure (k : site).

Inductive outcome (X : Type) :=
  | Ret (x : X)
  | Throw (e : exn)
  | Undefined.
Global Arguments Ret {X} x.
Global Arguments Throw {X} e.
Global Arguments Undefined {X}.

Section Model.
Context {A V : Type} `{Less A} `{Less V}.

(** ** Points and the two orderings *)

Record point := mk_point { arg : A; value : V }.

(** [comp_by_arg], with its two transparent overloads. *)
Definition comp_by_arg (p1 p2 : point) : bool := less (arg p1) (arg p2).
Definition comp_by_arg_pa (p : point) (a : A) : bool := less (arg p) a.
Definition comp_by_arg_ap (a : A) (p : point) : bool := less a (arg p).

Definition comp_by_maxima (p1 p2 : point) : bool :=
  less (value p2) (value p1)
  || (negb (less (value p1) (value p2)) && less (arg p1) (arg p2)).

(** [func_t] and [maxima_t] are lists of points, an [iterator] is a
    position and an [mx_iterator] is a point or nothing. *)
Local Abbreviation func_t := (list point).
Local Abbreviation maxima_t := (list point).
Local Abbreviation iterator := nat.
Local Abbreviation mx_iterator := (option point).

(** ** The set library, on sorted lists *)

(** [lower_bound(a)] on [func_t]: the first position whose point is not
    before [a]. *)
Fixpoint fn_lower_bound (a : A) (l : func_t) : iterator :=
  match l with
  | [] => 0
  | p :: l' => if comp_by_arg_pa p a then S (fn_lower_bound a l') else 0
  end.

(** [find(a)] on [func_t]: the lower bound when it is equivalent to [a],
    [end()] otherwise. *)
Definition fn_find (a : A) (l : func_t) : iterator :=
  let i := fn_lower_bound a l in
  match l !! i with
  | Some p => if comp_by_arg_ap a p then length l else i
  | None => length l
  end.

(** [insert(hint, p)] on [func_t].  The class only passes the lower bound
    of [p]'s argument as the hint, where the library links the new node in
    immediately before the hint. *)
Definition fn_insert (hint : iterator) (p : point) (l : func_t) : func_t :=
  take hint l ++ p :: drop hint l.

(** [erase(it)] on [func_t]. *)
Definition fn_erase (i : iterator) (l : func_t) : func_t := delete i l.

(** Equivalence of two points under [comp_by_maxima]. *)
Definition mx_equiv (p q : point) : bool :=
  negb (comp_by_maxima p q) && negb (comp_by_maxima q p).

(** [find(p)] on [maxima_t]: the first node not before [p], when it is
    equivalent to [p]. *)
Fixpoint mx_find (p : point) (l : maxima_t) : mx_iterator :=
  match l with
  | [] => None
  | q :: l' =>
      if comp_by_maxima q p then mx_find p l'
      else if comp_by_maxima p q then None else Some q
  end.

(** [insert(p)] on [maxima_t]: links the node in at the upper bound of [p],
    after the nodes equivalent to it. *)
Fixpoint mx_insert (p : point) (l : maxima_t) : maxima_t :=
  match l with
  | [] => [p]
  | q :: l' => if comp_by_maxima p q then p :: l else q :: mx_insert p l'
  end.

(** [erase(it)] on [maxima_t], for the node that holds [p].  Nodes that hold
    equivalent points are adjacent; the first one is unlinked. *)
Fixpoint mx_erase (p : point) (l : maxima_t) : maxima_t :=
  match l with
  | [] => []
  | q :: l' => if mx_equiv p q then l' else q :: mx_erase p l'
  end.

(** ** The object and the frame of a member call *)

Record FunctionMaxima := mk_fm { function : func_t; maxima : maxima_t }.

(** An object together with the locals of [set_value] and [erase] that
    their handlers read. *)
Record frame := mk_frame {
  self : FunctionMaxima;
  maxima_rollback : list mx_iterator;
  it_local : iterator
}.

Definition with_function (l : func_t) (s : frame) : frame :=
  mk_frame (mk_fm l (maxima (self s))) (maxima_rollback s) (it_local s).
Definition with_maxima (l : maxima_t) (s : frame) : frame :=
  mk_frame (mk_fm (function (self s)) l) (maxima_rollback s) (it_local s).
Definition with_rollback (r : list mx_iterator) (s : frame) : frame :=
  mk_frame (self s) r (it_local s).
Definition with_it (i : iterator) (s : frame) : frame :=
  mk_frame (self s) (maxima_rollback s) i.

(** A computation reads and writes the frame, uses up the fault plan, and
    returns, throws or is undefined. *)
Definition M (X : Type) : Type := frame → plan → outcome X * frame * plan.

Global Instance M_ret : MRet M := λ X x s pl, (Ret x, s, pl).

Global Instance M_bind : MBind M := λ X Y f m s pl,
  match m s pl with
  | (Ret x, s', pl') => f x s' pl'
  | (Throw e, s', pl') => (Throw e, s', pl')
  | (Undefined, s', pl') => (Undefined, s', pl')
  end.

Definition throw {X} (e : exn) : M X := λ s pl, (Throw e, s, pl).

(** [try { body } catch (...) { handler; throw; }] *)
Definition try_catch {X} (body : M X) (handler : M unit) : M X := λ s pl,
  match body s pl with
  | (Throw e, s', pl') =>
      match handler s' pl' with
      | (Ret _, s'', pl'') => (Throw e, s'', pl'')
      | (Throw e', s'', pl'') => (Throw e', s'', pl'')
      | (Undefined, s'', pl'') => (Undefined, s'', pl'')
      end
  | r => r
  end.

(** One operation of kind [k]. *)
Definition tick (k : site) : M unit := λ s pl,
  match pl k with
  | None => (Ret tt, s, pl)
  | Some (S n) => (Ret tt, s, λ k', if decide (k' = k) then Some n else pl k')
  | Some 0 => (Throw (Failure k), s, pl)
  end.

Definition get_function : M func_t := λ s pl, (Ret (function (self s)), s, pl).
Definition get_maxima : M maxima_t := λ s pl, (Ret (maxima (self s)), s, pl).
Definition get_rollback : M (list mx_iterator) := λ s pl, (Ret (maxima_rollback s), s, pl).
Definition get_it : M iterator := λ s pl, (Ret (it_local s), s, pl).

Definition put_function (l : func_t) : M unit := λ s pl, (Ret tt, with_function l s, pl).
Definition put_maxima (l : maxima_t) : M unit := λ s pl, (Ret tt, with_maxima l s, pl).
Definition put_rollback (r : list mx_iterator) : M unit := λ s pl, (Ret tt, with_rollback r s, pl).
Definition put_it (i : iterator) : M unit := λ s pl, (Ret tt, with_it i s, pl).

(** [operator<] on [V] and on [A], as the class calls it. *)
Definition less_V (x y : V) : M bool := tick Compare;; mret (less x y).
Definition less_A (x y : A) : M bool := tick Compare;; mret (less x y).

(** [begin()], [end()], [mx_end()] *)
Definition begin : iterator := 0.
Definition f_end : M iterator := l ← get_function; mret (length l).
Definition mx_end : mx_iterator := None.

(** [*it] *)
Definition deref (i : iterator) : M point := λ s pl,
  match function (self s) !! i with
  | Some p => (Ret p, s, pl)
  | None => (Undefined, s, pl)
  end.

(** The calls into the library. *)
Definition function_lower_bound (a : A) : M iterator :=
  tick Compare;; l ← get_function; mret (fn_lower_bound a l).

Definition function_find (a : A) : M iterator :=
  tick Compare;; l ← get_function; mret (fn_find a l).

Definition function_insert (hint : iterator) (p : point) : M iterator :=
  tick Compare;; tick Allocate;;
  l ← get_function; put_function (fn_insert hint p l);; mret hint.

Definition function_erase (i : iterator) : M unit :=
  l ← get_function; put_function (fn_erase i l).

Definition maxima_find (p : point) : M mx_iterator :=
  tick Compare;; l ← get_maxima; mret (mx_find p l).

Definition maxima_insert (p : point) : M mx_iterator :=
  tick Compare;; tick Allocate;;
  l ← get_maxima; put_maxima (mx_insert p l);; mret (Some p).

Definition maxima_erase (i : mx_iterator) : M unit :=
  match i with
  | Some p => l ← get_maxima; put_maxima (mx_erase p l)
  | None => mret tt
  end.

(** [rollback.push_back(curr)] *)
Definition push_back (curr : mx_iterator) : M unit :=
  tick Grow;; r ← get_rollback; put_rollback (r ++ [curr]).

(** [point(a, v)]: two [make_shared]. *)
Definition new_point (a : A) (v : V) : M point :=
  tick Allocate;; tick Allocate;; mret (mk_point a v).

(** ** The private members *)

(** [it->value() < cpy_it->value()] *)
Definition value_less (i j : iterator) : M bool :=
  p ← deref i; q ← deref j; less_V (value p) (value q).

Definition is_local_maximum (it omit_it : iterator) : M bool :=
  if decide (it = omit_it) then mret false
  else
    left_ok ←
      (if decide (it ≠ begin) then
         let cpy_it := it - 1 in
         if decide (cpy_it ≠ omit_it) then
           b ← value_less it cpy_it; mret (negb b)
         else if decide (cpy_it ≠ begin) then
           b ← value_less it (cpy_it - 1); mret (negb b)
         else mret true
       else mret true);
    if left_ok : bool then
      e ← f_end;
      let cpy_it := S it in
      if decide (cpy_it ≠ e) then
        if decide (cpy_it ≠ omit_it) then
          b ← value_less it cpy_it; mret (negb b)
        else if decide (S cpy_it ≠ e) then
          b ← value_less it (S cpy_it); mret (negb b)
        else mret true
      else mret true
    else mret false.

Definition stopped_being_maximum (cpy_it omit_it : iterator) : M mx_iterator :=
  p ← deref cpy_it;
  res ← maxima_find p;
  b ← is_local_maximum cpy_it omit_it;
  if b : bool then
    (if decide (res = mx_end) then
       curr ← maxima_insert p; push_back curr
     else mret tt);;
    mret mx_end
  else mret res.

(** Returns whether the iterator could be decremented, and the iterator
    after the call. *)
Definition safe_decrement (it : iterator) : bool * iterator :=
  if decide (it = begin) then (false, it) else (true, it - 1).

Definition update_maxima (it omit_it : iterator) : M unit :=
  b ← is_local_maximum it omit_it;
  (if b : bool then
     p ← deref it; curr ← maxima_insert p; push_back curr
   else mret tt);;
  left ←
    (let '(moved, cpy_it) := safe_decrement it in
     if moved : bool then
       if decide (cpy_it ≠ omit_it) then stopped_being_maximum cpy_it omit_it
       else
         let '(moved', cpy_it') := safe_decrement cpy_it in
         if moved' : bool then stopped_being_maximum cpy_it' omit_it
         else mret mx_end
     else mret mx_end);
  e ← f_end;
  right ←
    (let cpy_it := S it in
     if decide (cpy_it ≠ e) then
       if decide (cpy_it ≠ omit_it) then stopped_being_maximum cpy_it omit_it
       else if decide (S cpy_it ≠ e) then stopped_being_maximum (S cpy_it) omit_it
       else mret mx_end
     else mret mx_end);
  (if decide (left ≠ mx_end) then maxima_erase left else mret tt);;
  (if decide (right ≠ mx_end) then maxima_erase right else mret tt).

(** The handlers' loop: [for (iter : maxima_rollback) maxima.erase(iter)]. *)
Fixpoint erase_each (r : list mx_iterator) : M unit :=
  match r with
  | [] => mret tt
  | i :: r' => maxima_erase i;; erase_each r'
  end.

(** ** The public members *)

(** The locals declared before the [try] of [set_value] and [erase]. *)
Definition declare_locals : M unit :=
  e ← f_end; put_it e;; put_rollback [].

Definition value_at (a : A) : M V :=
  it ← function_find a;
  e ← f_end;
  if decide (it = e) then throw InvalidArg
  else p ← deref it; mret (value p).

(** The [try] block of [erase] yields [None] when it returns from the
    member, and the iterators read after the block otherwise. *)
Definition erase (a : A) : M unit :=
  declare_locals;;
  r ← try_catch
        (it ← function_find a;
         e ← f_end;
         if decide (it = e) then mret None
         else
           p ← deref it;
           max_it ← maxima_find p;
           update_maxima it it;;
           mret (Some (it, max_it)))
        (r ← get_rollback; erase_each r);
  match r with
  | None => mret tt
  | Some (it, max_it) =>
      function_erase it;;
      if decide (max_it ≠ mx_end) then maxima_erase max_it else mret tt
  end.

(** [function.insert] links the new node in before the node of [prev_it]:
    from there on [prev_it] is one position further. *)
Definition set_value (a : A) (v : V) : M unit :=
  declare_locals;;
  '(prev_it, prev_max_it, diff) ← try_catch
        (new_point ← new_point a v;
         prev_it ← function_lower_bound a;
         e ← f_end;
         prev_max_it ←
           (if decide (prev_it ≠ e) then p ← deref prev_it; maxima_find p
            else mret mx_end);
         it ← function_insert prev_it new_point;
         put_it it;;
         let prev_it := S prev_it in
         e ← f_end;
         diff ←
           (if decide (prev_it ≠ e) then
              p ← deref it; q ← deref prev_it;
              b ← less_A (arg p) (arg q); mret (negb b)
            else mret false);
         update_maxima it (if diff : bool then prev_it else e);;
         mret (prev_it, prev_max_it, diff))
        (r ← get_rollback; erase_each r;;
         it ← get_it; e ← f_end;
         if decide (it ≠ e) then function_erase it else mret tt);
  if diff : bool then
    (if decide (prev_max_it ≠ mx_end) then maxima_erase prev_max_it else mret tt);;
    function_erase prev_it
  else mret tt.

Definition size (fm : FunctionMaxima) : nat := length (function fm).

(** [find(a)]: the position of the point with argument [a], or [end()]. *)
Definition find (a : A) : M iterator := function_find a.

(** [mx_begin()]: the first node of the maxima set, or [mx_end()]. *)
Definition mx_begin (fm : FunctionMaxima) : mx_iterator := head (maxima fm).

(** A call of a member on an object, under a fault plan. *)
Definition call {X} (m : M X) (fm : FunctionMaxima) (pl : plan)
  : outcome X * FunctionMaxima :=
  let '(r, s, _) := m (mk_frame fm [] 0) pl in (r, self s).

Definition empty : FunctionMaxima := mk_fm [] [].

(** ** Objects in memory *)

(** A set member owns the nodes of its tree.  Memory keeps the trees by
    address, each with the points of its nodes in order, and an object is
    the addresses of the trees of its two members. *)
Record object := mk_object { function_tree : nat; maxima_tree : nat }.

Record memory := mk_memory {
  objects : gmap nat object;
  trees : gmap nat (list point)
}.

(** The state of the object at [this]. *)
Definition load (this : nat) (σ : memory) : option FunctionMaxima :=
  o ← objects σ !! this;
  f ← trees σ !! function_tree o;
  m ← trees σ !! maxima_tree o;
  Some (mk_fm f m).

(** A member call on the object at [this] works on the trees of its
    members. *)
Definition write_back (o : object) (fm : FunctionMaxima) (σ : memory) : memory :=
  mk_memory (objects σ)
    (<[maxima_tree o:=maxima fm]> (<[function_tree o:=function fm]> (trees σ))).

Definition call_at {X} (m : M X) (this : nat) (σ : memory) (pl : plan)
  : outcome X * memory :=
  match objects σ !! this, load this σ with
  | Some o, Some fm =>
      let '(r, fm') := call m fm pl in (r, write_back o fm' σ)
  | _, _ => (Undefined, σ)
  end.

(** The copy constructor of a set: it allocates the nodes of a new tree,
    at an address not in use, for the points of the source; the points
    themselves are shared.  It is one allocation site. *)
Definition set_copy (t : nat) (σ : memory) (pl : plan)
  : outcome nat * memory * plan :=
  match trees σ !! t with
  | Some l =>
      let t' := fresh (dom (trees σ)) in
      let σ' := mk_memory (objects σ) (<[t':=l]> (trees σ)) in
      match pl Allocate with
      | None => (Ret t', σ', pl)
      | Some (S n) =>
          (Ret t', σ', λ k, if decide (k = Allocate) then Some n else pl k)
      | Some 0 => (Throw (Failure Allocate), σ, pl)
      end
  | None => (Undefined, σ, pl)
  end.

(** The destructor of a set frees its tree. *)
Definition set_destroy (t : nat) (σ : memory) : memory :=
  mk_memory (objects σ) (delete t (trees σ)).

(** [*this = fun] for the objects at [this] and [fun_].  The two [swap]s
    exchange the trees of the members with those of the temporaries, which
    take the old trees away when they are destroyed; a temporary already
    built is destroyed when the copy for the next one throws. *)
Definition copy_assign (this fun_ : nat) (σ : memory) (pl : plan)
  : outcome unit * memory :=
  match objects σ !! this, objects σ !! fun_ with
  | Some self_, Some src =>
      if decide (this ≠ fun_) then
        match set_copy (function_tree src) σ pl with
        | (Ret temp_fun, σ1, pl1) =>
            match set_copy (maxima_tree src) σ1 pl1 with
            | (Ret temp_max, σ2, _) =>
                let swapped :=
                  mk_memory (<[this:=mk_object temp_fun temp_max]> (objects σ2))
                            (trees σ2) in
                (Ret tt,
                 set_destroy (function_tree self_)
                   (set_destroy (maxima_tree self_) swapped))
            | (Throw e, σ2, _) => (Throw e, set_destroy temp_fun σ2)
            | (Undefined, σ2, _) => (Undefined, σ2)
            end
        | (Throw e, σ1, _) => (Throw e, σ1)
        | (Undefined, σ1, _) => (Undefined, σ1)
        end
      else (Ret tt, σ)
  | _, _ => (Undefined, σ)
  end.

(** [FunctionMaxima(fun)] for a new object at [this]: the members are
    copied in the order of their declaration; when the second copy throws
    the first member is destroyed, and there is no new object. *)
Definition copy_construct (this fun_ : nat) (σ : memory) (pl : plan)
  : outcome unit * memory :=
  match objects σ !! fun_ with
  | Some src =>
      match set_copy (function_tree src) σ pl with
      | (Ret f, σ1, pl1) =>
          match set_copy (maxima_tree src) σ1 pl1 with
          | (Ret m, σ2, _) =>
              (Ret tt,
               mk_memory (<[this:=mk_object f m]> (objects σ2)) (trees σ2))
          | (Throw e, σ2, _) => (Throw e, set_destroy f σ2)
          | (Undefined, σ2, _) => (Undefined, σ2)
          end
      | (Throw e, σ1, _) => (Throw e, σ1)
      | (Undefined, σ1, _) => (Undefined, σ1)
      end
  | None => (Undefined, σ)
  end.

(** [FunctionMaxima()] for a new object at [this]: two empty sets, each
    with a tree of its own. *)
Definition default_construct (this : nat) (σ : memory) : memory :=
  let t1 := fresh (dom (trees σ)) in
  let trees1 := <[t1:=[]]> (trees σ) in
  let t2 := fresh (dom trees1) in
  mk_memory (<[this:=mk_object t1 t2]> (objects σ)) (<[t2:=[]]> trees1).

(** Memory without objects. *)
Definition no_objects : memory := mk_memory ∅ ∅.

(** The tree at [t] belongs to a member of [o]. *)
Definition owns (o : object) (t : nat) : Prop :=
  t = function_tree o ∨ t = maxima_tree o.

(** Every member owns a tree of its own: the trees of the members are
    allocated, and no tree belongs to two members. *)
Definition separated (σ : memory) : Prop :=
  (∀ a o, objects σ !! a = Some o →
     function_tree o ≠ maxima_tree o
     ∧ is_Some (trees σ !! function_tree o)
     ∧ is_Some (trees σ !! maxima_tree o))
  ∧ (∀ a b o o' t,
       objects σ !! a = Some o → objects σ !! b = Some o' →
       owns o t → owns o' t → a = b).

(** A sequence of [set_value] calls in which nothing throws. *)
Definition run_set (avs : list (A * V)) (fm : FunctionMaxima) : FunctionMaxima :=
  foldl (λ fm av, (call (set_value av.1 av.2) fm no_faults).2) fm avs.

(** ** Specification vocabulary *)

(** [q] does not exceed [p]; no neighbour, no constraint. *)
Definition not_exceeded_by (p : point) (o : option point) : bool :=
  match o with
  | Some q => negb (less (value p) (value q))
  | None => true
  end.

(** The nearest position before [p] other than [omit], and the nearest
    position after [p] other than [omit] among [n] positions. *)
Definition nearest_before (omit p : nat) : option nat :=
  head (filter (λ j, j ≠ omit) (reverse (seq 0 p))).
Definition nearest_after (n omit p : nat) : option nat :=
  head (filter (λ j, j ≠ omit) (seq (S p) (n - S p))).

(** [j] is the nearest position before [p] other than [omit]; [j] is the
    nearest position after [p] other than [omit] among [n] positions. *)
Definition effective_predecessor (omit p j : nat) : Prop :=
  j < p ∧ j ≠ omit ∧ ∀ k, j < k < p → k = omit.
Definition effective_successor (n omit p j : nat) : Prop :=
  p < j < n ∧ j ≠ omit ∧ ∀ k, p < k < j → k = omit.

(** The local-maximum test with omission, in the words of the
    specification. *)
Definition local_max_omit (l : func_t) (p omit : nat) : bool :=
  match l !! p with
  | Some x =>
      bool_decide (p ≠ omit)
      && not_exceeded_by x (nearest_before omit p ≫= (l !!.))
      && not_exceeded_by x (nearest_after (length l) omit p ≫= (l !!.))
  | None => false
  end.

(** What [is_local_maximum(it, end())] answers on an object when nothing
    throws. *)
Definition local_maximum_at (fm : FunctionMaxima) (i : nat) : bool :=
  match call (is_local_maximum i (length (function fm))) fm no_faults with
  | (Ret b, _) => b
  | _ => false
  end.

(** The points at the positions from [i] on that [f] selects. *)
Fixpoint select (f : nat → bool) (i : nat) (l : list point) : list point :=
  match l with
  | [] => []
  | p :: l' => if f i then p :: select f (S i) l' else select f (S i) l'
  end.

(** The points of the store that [is_local_maximum] accepts, in argument
    order. *)
Definition local_maxima (fm : FunctionMaxima) : list point :=
  select (local_maximum_at fm) 0 (function fm).

(** The local maxima of a list of points, in the words of the
    specification. *)
Definition lms (l : list point) : list point :=
  select (λ k, local_max_omit l k (length l)) 0 l.

(** The argument is in the domain. *)
Definition in_domain (a : A) (fm : FunctionMaxima) : Prop :=
  a ∈ arg <$> function fm.

(** A call that throws because the rollback vector could not grow. *)
Definition grow_failed {X} (r : outcome X) : Prop := r = Throw (Failure Grow).

(** The objects that the class reaches: those that any sequence of calls of
    [set_value] and [erase] leads to from the empty one, whatever the fault
    plan of each call and whether the call returns or throws. *)
Inductive reachable : FunctionMaxima → Prop :=
  | reachable_empty : reachable empty
  | reachable_set_value fm a v pl r fm' :
      reachable fm →
      call (set_value a v) fm pl = (r, fm') →
      reachable fm'
  | reachable_erase fm a pl r fm' :
      reachable fm →
      call (erase a) fm pl = (r, fm') →
      reachable fm'.

(** The reachable objects in whose history [rollback.push_back] has never
    thrown: the calls that led to them returned, or threw from a comparison
    or from the allocation of a point or node.  This is a narrower set than
    [reachable]: it is the precondition of what is stated about the maxima
    set, and never stands for the objects the class reaches. *)
Inductive intact : FunctionMaxima → Prop :=
  | intact_empty : intact empty
  | intact_set_value fm a v pl r fm' :
      intact fm →
      call (set_value a v) fm pl = (r, fm') →
      ¬ grow_failed r →
      intact fm'
  | intact_erase fm a pl r fm' :
      intact fm →
      call (erase a) fm pl = (r, fm') →
      ¬ grow_failed r →
      intact fm'.

(** ** Weakest preconditions *)

(** The invariant of the class: both sets are sorted, and the second one
    holds the local maxima of the first. *)
Definition invariant (fm : FunctionMaxima) : Prop :=
  StronglySorted (λ p q, comp_by_arg p q = true) (function fm)
  ∧ StronglySorted (λ p q, comp_by_maxima q p = false) (maxima fm)
  ∧ maxima fm ≡ₚ local_maxima fm.

(** No site that never fails starts to fail. *)
Definition quiet (pl pl' : plan) : Prop := ∀ k, pl k = None → pl' k = None.

(** Whatever the plan, [m] is defined from [s]; it returns in [Q] or throws
    in [E], and it throws a failure only at a site that the plan lets
    fail. *)
Definition wp {X} (m : M X) (Q : X → frame → Prop) (E : exn → frame → Prop)
    (s : frame) : Prop :=
  ∀ pl,
    match m s pl with
    | (Ret x, s', pl') => Q x s' ∧ quiet pl pl'
    | (Throw e, s', pl') =>
        E e s' ∧ quiet pl pl' ∧ ∀ k, e = Failure k → pl k ≠ None
    | (Undefined, _, _) => False
    end.

(** [maxima.insert(p)] followed by [rollback.push_back], when [b]. *)
Definition register (b : bool) (p : point) (s : frame) : frame :=
  if b then
    with_rollback (maxima_rollback s ++ [Some p])
      (with_maxima (mx_insert p (maxima (self s))) s)
  else s.

(** [maxima.erase(i)] unless [i] is [mx_end()]. *)
Definition unlink (i : mx_iterator) (s : frame) : frame :=
  match i with
  | Some p => with_maxima (mx_erase p (maxima (self s))) s
  | None => s
  end.

(** The frame after [stopped_being_maximum] on the neighbour at position
    [o], if there is one, and the iterator it returns. *)
Definition settle (omit : nat) (o : option nat) (s : frame) : frame * mx_iterator :=
  match o ≫= λ j, function (self s) !! j ≫= λ p, Some (j, p) with
  | Some (j, p) =>
      let b := local_max_omit (function (self s)) j omit in
      let res := mx_find p (maxima (self s)) in
      (register (b && bool_decide (res = None)) p s, if b then None else res)
  | None => (s, None)
  end.

(** The frame after [update_maxima(it, omit)]. *)
Definition updated (it omit : nat) (s : frame) : frame :=
  let l := function (self s) in
  let s1 :=
    match l !! it with
    | Some p => register (local_max_omit l it omit) p s
    | None => s
    end in
  let '(s2, lft) := settle omit (nearest_before omit it) s1 in
  let '(s3, rgt) := settle omit (nearest_after (length l) omit it) s2 in
  unlink rgt (unlink lft s3).

(** The frames that [update_maxima] passes through before it erases. *)
Inductive registered (s : frame) : frame → Prop :=
  | registered_refl : registered s s
  | registered_step b p s' :
      registered s s' → registered s (register b p s').

(** The point before position [k], if any. *)
Definition pred_lookup (l : list point) (k : nat) : option point :=
  match k with
  | 0 => None
  | S j => l !! j
  end.

(** The position of the node at [k] once the node at [omit] is erased. *)
Definition shift (omit k : nat) : nat := if decide (k < omit) then k else k - 1.

(** The store after [set_value(a, v)]: the new point is linked in at the
    lower bound of [a], and the point that was there is erased when it has
    the argument [a]. *)
Definition fn_put (a : A) (v : V) (l : list point) : list point :=
  let i := fn_lower_bound a l in
  match l !! i with
  | Some p =>
      if comp_by_arg_ap a p then fn_insert i (mk_point a v) l
      else fn_erase (S i) (fn_insert i (mk_point a v) l)
  | None => fn_insert i (mk_point a v) l
  end.

(** The orderings of the two sets. *)
Definition arg_lt (p q : point) : Prop := comp_by_arg p q = true.
Definition mx_le (p q : point) : Prop := comp_by_maxima q p = false.

(** What the handlers of [set_value] and [erase] read and write besides the
    maxima set: the point store and the local [it]. *)
Definition store (s : frame) : list point * iterator :=
  (function (self s), it_local s).

(** [m] leaves the store as it is, however it ends. *)
Definition store_neutral {X} (m : M X) : Prop :=
  ∀ s pl, store (m s pl).1.2 = store s.

(** Where [m] leaves the frame from [s]: in [Q] when it returns, in [E]
    when it throws. *)
Definition leaves {X} (m : M X) (Q : X → frame → Prop) (E : frame → Prop)
    (s : frame) : Prop :=
  ∀ pl,
    match m s pl with
    | (Ret x, s', _) => Q x s'
    | (Throw _, s', _) => E s'
    | (Undefined, _, _) => True
    end.

End Model.

Global Arguments point : clear implicits.
Global Arguments FunctionMaxima : clear implicits.
Global Arguments frame : clear implicits.

(** ** Integers as arguments and values *)

Global Instance Z_less : Less Z := Z.ltb.

Definition pt (a v : Z) : point Z Z := mk_point a v.

Global Instance Z_strict_total : StrictTotal Z.
Proof.
  split; unfold less, Z_less.
  - intros x. apply Z.ltb_irrefl.
  - intros x y z ?%Z.ltb_lt ?%Z.ltb_lt. apply Z.ltb_lt. lia.
  - intros x y ?%Z.ltb_ge ?%Z.ltb_ge. lia.
Qed.

(** The function with values 10, 5, 5, 5 at the arguments 0, 1, 2, 3. *)
Definition step_down : FunctionMaxima Z Z :=
  run_set [(0, 10); (1, 5); (2, 5); (3, 5)]%Z empty.

(** The function with values 5, 9, 5 at the arguments 1, 2, 3. *)
Definition peak : FunctionMaxima Z Z :=
  run_set [(1, 5); (2, 9); (3, 5)]%Z empty.

(** Two objects in memory: [peak] at address 0 and [step_down] at 1, their
    members owning the trees at the addresses 0 to 3. *)
Definition two_objects : memory (A:=Z) (V:=Z) :=
  mk_memory (<[0:=mk_object 0 1]> (<[1:=mk_object 2 3]> ∅))
    (<[0:=function peak]> (<[1:=maxima peak]>
       (<[2:=function step_down]> (<[3:=maxima step_down]> ∅)))).

(** ** Theory *)

Section Theory.
Context {A V : Type} `{Less A, !StrictTotal A, Less V, !StrictTotal V}.

Abbreviation point := (point A V).
Abbreviation frame := (frame A V).
Abbreviation FunctionMaxima := (FunctionMaxima A V).
Abbreviation iterator := nat.
Abbreviation mx_iterator := (option point).
Abbreviation memory := (memory (A:=A) (V:=V)).

Implicit Types (p q : point) (l : list point) (s : frame) (fm : FunctionMaxima).
Implicit Types (σ : memory).

(** *** Strict total orders *)

Section Order.
Context {T : Type} `{Less T, !StrictTotal T}.

Lemma less_asym (x y : T) : less x y = true → less y x = false.
Proof.
  intros Hxy. destruct (less y x) eqn:Hyx; [|done].
  by rewrite <-(less_irrefl x), <-(less_trans x y x Hxy Hyx).
Qed.

Lemma less_cases (x y : T) : less x y = true ∨ x = y ∨ less y x = true.
Proof.
  destruct (less x y) eqn:Hxy; [by left|].
  destruct (less y x) eqn:Hyx; [by right; right|].
  right; left. by apply less_total.
Qed.

Lemma less_ne (x y : T) : less x y = true → x ≠ y.
Proof. intros Hxy ->. by rewrite less_irrefl in Hxy. Qed.

Lemma less_false (x y : T) : less x y = false ↔ x = y ∨ less y x = true.
Proof.
  split.
  - intros Hxy. destruct (less_cases x y) as [?|[?|?]]; [congruence|tauto..].
  - intros [->|Hyx]; [apply less_irrefl|by apply less_asym].
Qed.

Definition less_eq_dec : EqDecision T.
Proof using Type*.
  intros x y. destruct (less x y) eqn:Hxy.
  - right. by apply less_ne.
  - destruct (less y x) eqn:Hyx.
    + right. intros ->. by rewrite less_irrefl in Hyx.
    + left. by apply less_total.
Defined.

End Order.

Local Instance A_eq_dec : EqDecision A := less_eq_dec.
Local Instance V_eq_dec : EqDecision V := less_eq_dec.
Local Instance point_eq_dec : EqDecision point.
Proof. solve_decision. Defined.

Lemma point_eq p q : arg p = arg q → value p = value q → p = q.
Proof. destruct p, q; simpl; congruence. Qed.

Lemma comp_by_maxima_spec p q :
  comp_by_maxima p q = true ↔
  less (value q) (value p) = true ∨ (value p = value q ∧ less (arg p) (arg q) = true).
Proof.
  unfold comp_by_maxima. rewrite orb_true_iff, andb_true_iff, negb_true_iff.
  split; (intros [?|[Hv Ha]]; [by left|]).
  - apply less_false in Hv as [Hv|Hv]; [by right|by left].
  - right. split; [|done]. rewrite Hv. apply less_irrefl.
Qed.

Lemma comp_by_maxima_irrefl p : comp_by_maxima p p = false.
Proof.
  apply not_true_is_false. rewrite comp_by_maxima_spec.
  rewrite !less_irrefl. by intros [?|[_ ?]].
Qed.

Lemma comp_by_maxima_trans p q r :
  comp_by_maxima p q = true → comp_by_maxima q r = true → comp_by_maxima p r = true.
Proof.
  rewrite !comp_by_maxima_spec.
  intros [Hpq|[Hpq Hpq']] [Hqr|[Hqr Hqr']].
  - left. by eapply less_trans.
  - left. by rewrite <-Hqr.
  - left. by rewrite Hpq.
  - right. split; [congruence|by eapply less_trans].
Qed.

Lemma comp_by_maxima_total p q :
  comp_by_maxima p q = false → comp_by_maxima q p = false → p = q.
Proof.
  intros Hpq%not_true_iff_false Hqp%not_true_iff_false.
  rewrite comp_by_maxima_spec in Hpq, Hqp.
  destruct (less_cases (value p) (value q)) as [?|[Hv|?]]; [tauto| |tauto].
  destruct (less_cases (arg p) (arg q)) as [?|[Ha|?]]; [tauto| |naive_solver].
  by apply point_eq.
Qed.

Lemma comp_by_maxima_asym p q : comp_by_maxima p q = true → comp_by_maxima q p = false.
Proof.
  intros Hpq. destruct (comp_by_maxima q p) eqn:Hqp; [|done].
  by rewrite <-(comp_by_maxima_irrefl p), <-(comp_by_maxima_trans p q p Hpq Hqp).
Qed.

Lemma mx_equiv_eq p q : mx_equiv p q = true ↔ p = q.
Proof.
  unfold mx_equiv. rewrite andb_true_iff, !negb_true_iff. split.
  - intros [??]. by apply comp_by_maxima_total.
  - intros ->. by rewrite comp_by_maxima_irrefl.
Qed.

Local Instance mx_le_trans : Transitive (mx_le (A:=A) (V:=V)).
Proof.
  intros p q r Hpq Hqr. unfold mx_le in *.
  destruct (comp_by_maxima r p) eqn:Hrp; [|done].
  destruct (comp_by_maxima p q) eqn:Hq.
  - by rewrite <-Hqr, (comp_by_maxima_trans r p q).
  - assert (p = q) by (by apply comp_by_maxima_total). congruence.
Qed.

Local Instance mx_le_antisym : AntiSymm (=) (mx_le (A:=A) (V:=V)).
Proof. intros p q Hpq Hqp. by apply comp_by_maxima_total. Qed.

(** *** The maxima set *)

Abbreviation count := (count_occ point_eq_dec).

Lemma count_elem_of q l : q ∈ l ↔ 0 < count l q.
Proof. rewrite list_elem_of_In. apply count_occ_In. Qed.

Lemma count_not_elem_of q l : q ∉ l ↔ count l q = 0.
Proof. rewrite list_elem_of_In. apply count_occ_not_In. Qed.

Lemma count_cons q p l :
  count (p :: l) q = (if decide (q = p) then 1 else 0) + count l q.
Proof.
  simpl. destruct (point_eq_dec p q), (decide (q = p)); simpl; congruence.
Qed.

Lemma count_perm l1 l2 : l1 ≡ₚ l2 ↔ ∀ q, count l1 q = count l2 q.
Proof. apply Permutation_count_occ. Qed.

Lemma count_NoDup l : NoDup l ↔ ∀ q, count l q ≤ 1.
Proof. rewrite NoDup_ListNoDup. apply NoDup_count_occ. Qed.

Lemma mx_insert_perm p l : mx_insert p l ≡ₚ p :: l.
Proof.
  induction l as [|q l IH]; simpl; [done|].
  destruct (comp_by_maxima p q); [done|].
  by rewrite IH, Permutation_swap.
Qed.

Lemma mx_insert_sorted p l :
  StronglySorted mx_le l → StronglySorted mx_le (mx_insert p l).
Proof.
  induction l as [|q l IH]; simpl; intros Hl.
  - repeat constructor.
  - apply StronglySorted_cons in Hl as [Hq Hl].
    destruct (comp_by_maxima p q) eqn:Hpq.
    + apply StronglySorted_cons. split; [|by apply StronglySorted_cons].
      assert (mx_le p q) by (by apply comp_by_maxima_asym).
      constructor; [done|].
      eapply Forall_impl; [exact Hq|]. intros x ?. by etrans.
    + apply StronglySorted_cons. split; [|auto].
      rewrite mx_insert_perm. by constructor.
Qed.

Lemma mx_erase_elem_of p l : p ∈ l → l ≡ₚ p :: mx_erase p l.
Proof.
  induction l as [|q l IH]; simpl; [by intros ?%elem_of_nil|].
  intros Hp. destruct (mx_equiv p q) eqn:Hpq.
  - apply mx_equiv_eq in Hpq. by subst.
  - apply elem_of_cons in Hp as [->|Hp].
    + by rewrite (proj2 (mx_equiv_eq q q)) in Hpq.
    + by rewrite Permutation_swap, <-IH.
Qed.

Lemma mx_erase_not_elem_of p l : p ∉ l → mx_erase p l = l.
Proof.
  induction l as [|q l IH]; simpl; [done|].
  intros [Hpq Hp]%not_elem_of_cons. destruct (mx_equiv p q) eqn:Heq.
  - by apply mx_equiv_eq in Heq.
  - by rewrite IH.
Qed.

Lemma mx_erase_count p l q :
  count (mx_erase p l) q = count l q - (if decide (q = p) then 1 else 0).
Proof.
  destruct (decide (p ∈ l)) as [Hp|Hp].
  - pose proof (proj1 (count_perm _ _) (mx_erase_elem_of p l Hp) q) as Hc.
    rewrite count_cons in Hc. lia.
  - rewrite mx_erase_not_elem_of by done.
    apply count_not_elem_of in Hp. case_decide; [subst|]; lia.
Qed.

Lemma mx_insert_count p l q :
  count (mx_insert p l) q = (if decide (q = p) then 1 else 0) + count l q.
Proof. by rewrite (proj1 (count_perm _ _) (mx_insert_perm p l) q), count_cons. Qed.

Lemma mx_erase_sublist p l : mx_erase p l `sublist_of` l.
Proof.
  induction l as [|q l IH]; simpl; [done|].
  destruct (mx_equiv p q); [by apply sublist_cons|by apply sublist_skip].
Qed.

Lemma StronglySorted_sublist {T} (R : relation T) (l1 l2 : list T) :
  l1 `sublist_of` l2 → StronglySorted R l2 → StronglySorted R l1.
Proof.
  induction 1 as [|x l1 l2 Hs IH|x l1 l2 Hs IH]; [done|..];
    rewrite !StronglySorted_cons; intros [Hx Hl2].
  - split; [|auto]. rewrite Forall_forall in Hx |- *.
    intros y Hy. apply Hx. by eapply elem_of_sublist.
  - auto.
Qed.

Lemma mx_erase_sorted p l :
  StronglySorted mx_le l → StronglySorted mx_le (mx_erase p l).
Proof. apply StronglySorted_sublist, mx_erase_sublist. Qed.

Lemma mx_find_spec p l :
  StronglySorted mx_le l →
  mx_find p l = if decide (p ∈ l) then Some p else None.
Proof.
  induction l as [|q l IH]; cbn [mx_find]; intros Hl.
  - by rewrite decide_False by apply not_elem_of_nil.
  - apply StronglySorted_cons in Hl as [Hq Hl].
    destruct (comp_by_maxima q p) eqn:Hqp.
    + rewrite IH by done. assert (p ≠ q).
      { intros ->. by rewrite comp_by_maxima_irrefl in Hqp. }
      destruct (decide (p ∈ l)) as [Hin|Hin].
      * rewrite decide_True; [done|by right].
      * rewrite decide_False; [done|]. by intros [?|?]%elem_of_cons.
    + destruct (comp_by_maxima p q) eqn:Hpq.
      * rewrite decide_False; [done|].
        intros [->|Hp]%elem_of_cons.
        -- by rewrite comp_by_maxima_irrefl in Hpq.
        -- rewrite Forall_forall in Hq. specialize (Hq p Hp).
           unfold mx_le in Hq. congruence.
      * assert (p = q) as -> by (by apply comp_by_maxima_total).
        rewrite decide_True; [done|]. by left.
Qed.

(** Two sorted sets with the same points are the same list. *)
Lemma mx_sorted_unique l1 l2 :
  StronglySorted mx_le l1 → StronglySorted mx_le l2 → l1 ≡ₚ l2 → l1 = l2.
Proof. apply StronglySorted_unique, _. Qed.

(** *** The function set *)

Lemma fn_lower_bound_le a l : fn_lower_bound a l ≤ length l.
Proof.
  induction l as [|p l IH]; simpl; [lia|]. destruct (comp_by_arg_pa p a); lia.
Qed.

Lemma fn_lower_bound_before a l j p :
  j < fn_lower_bound a l → l !! j = Some p → less (arg p) a = true.
Proof.
  revert j. induction l as [|q l IH]; simpl; intros j Hj Hp; [lia|].
  destruct (comp_by_arg_pa q a) eqn:Hq; [|lia].
  destruct j as [|j]; simpl in Hp; [by simplify_eq|].
  apply (IH j); [lia|done].
Qed.

Lemma fn_lower_bound_at a l p :
  l !! fn_lower_bound a l = Some p → less (arg p) a = false.
Proof.
  induction l as [|q l IH]; simpl; [done|].
  destruct (comp_by_arg_pa q a) eqn:Hq; simpl; [done|].
  intros. by simplify_eq.
Qed.

Lemma fn_sorted_lookup l i j p q :
  StronglySorted arg_lt l → i < j → l !! i = Some p → l !! j = Some q →
  less (arg p) (arg q) = true.
Proof.
  intros Hl. revert i j. induction Hl as [|x l Hl IH Hx]; intros i j Hij Hp Hq; [done|].
  destruct j as [|j]; [lia|]. simpl in Hq. destruct i as [|i]; simpl in Hp.
  - simplify_eq. rewrite Forall_forall in Hx. apply Hx.
    by eapply list_elem_of_lookup_2.
  - apply (IH i j); [lia|done..].
Qed.

Lemma fn_sorted_lookup_inj l i j p q :
  StronglySorted arg_lt l → l !! i = Some p → l !! j = Some q →
  arg p = arg q → i = j.
Proof.
  intros Hl Hp Hq Hpq.
  destruct (Nat.lt_trichotomy i j) as [Hij|[Hij|Hij]]; [|done|].
  - pose proof (fn_sorted_lookup l i j p q Hl Hij Hp Hq) as Hlt.
    rewrite Hpq, less_irrefl in Hlt. done.
  - pose proof (fn_sorted_lookup l j i q p Hl Hij Hq Hp) as Hlt.
    rewrite Hpq, less_irrefl in Hlt. done.
Qed.

Lemma fn_sorted_NoDup l : StronglySorted arg_lt l → NoDup l.
Proof.
  intros Hl. apply NoDup_alt. intros i j p Hi Hj.
  by eapply fn_sorted_lookup_inj.
Qed.

Lemma fn_lower_bound_found a l j p :
  StronglySorted arg_lt l → l !! j = Some p → arg p = a →
  fn_lower_bound a l = j.
Proof.
  intros Hl Hp Ha.
  destruct (Nat.lt_trichotomy (fn_lower_bound a l) j) as [Hij|[Hij|Hij]]; [|done|].
  - destruct (lookup_lt_is_Some_2 l (fn_lower_bound a l)) as [q Hq].
    { apply lookup_lt_Some in Hp. lia. }
    pose proof (fn_lower_bound_at a l q Hq) as Hat.
    pose proof (fn_sorted_lookup l _ j q p Hl Hij Hq Hp) as Hlt.
    congruence.
  - pose proof (fn_lower_bound_before a l j p Hij Hp) as Hlt.
    rewrite Ha, less_irrefl in Hlt. done.
Qed.

Lemma fn_lower_bound_absent a l p :
  StronglySorted arg_lt l → a ∉ arg <$> l →
  l !! fn_lower_bound a l = Some p → less a (arg p) = true.
Proof.
  intros Hl Ha Hp. pose proof (fn_lower_bound_at a l p Hp) as Hat.
  apply less_false in Hat as [Hat|Hat]; [|done].
  destruct Ha. apply list_elem_of_fmap. exists p. split; [done|].
  by eapply list_elem_of_lookup_2.
Qed.

Lemma fn_find_found a l j p :
  StronglySorted arg_lt l → l !! j = Some p → arg p = a → fn_find a l = j.
Proof.
  intros Hl Hp Ha. unfold fn_find; cbv zeta.
  rewrite (fn_lower_bound_found a l j p) by done. rewrite Hp.
  unfold comp_by_arg_ap. by rewrite Ha, less_irrefl.
Qed.

Lemma fn_find_absent a l :
  StronglySorted arg_lt l → a ∉ arg <$> l → fn_find a l = length l.
Proof.
  intros Hl Ha. unfold fn_find; cbv zeta.
  destruct (l !! fn_lower_bound a l) as [p|] eqn:Hp; [|done].
  unfold comp_by_arg_ap. by rewrite (fn_lower_bound_absent a l p).
Qed.

Lemma fn_find_lt a l :
  fn_find a l < length l →
  ∃ p, l !! fn_find a l = Some p ∧ arg p = a.
Proof.
  unfold fn_find; cbv zeta. destruct (l !! fn_lower_bound a l) as [p|] eqn:Hp; [|lia].
  unfold comp_by_arg_ap. destruct (less a (arg p)) eqn:Hap; [lia|].
  intros _. exists p. split; [done|].
  symmetry. apply less_total; [done|]. by eapply fn_lower_bound_at.
Qed.

Lemma fn_find_le a l : fn_find a l ≤ length l.
Proof.
  unfold fn_find; cbv zeta. destruct (l !! fn_lower_bound a l) as [p|] eqn:Hp; [|lia].
  apply lookup_lt_Some in Hp. destruct (comp_by_arg_ap a p); lia.
Qed.

(** *** Rules of the weakest precondition *)

Lemma quiet_refl (pl : plan) : quiet pl pl.
Proof. by intros k. Qed.

Lemma quiet_trans (pl1 pl2 pl3 : plan) : quiet pl1 pl2 → quiet pl2 pl3 → quiet pl1 pl3.
Proof. intros H12 H23 k Hk. auto. Qed.

Lemma wp_ret {X} (x : X) Q E s : Q x s → wp (A:=A) (V:=V) (mret x) Q E s.
Proof. intros HQ pl. simpl. split; [done|apply quiet_refl]. Qed.

Lemma wp_bind {X Y} (m : M X) (f : X → M Y) Q E s :
  wp m (λ x s', wp (f x) Q E s') E s → wp (A:=A) (V:=V) (m ≫= f) Q E s.
Proof.
  intros Hm pl. specialize (Hm pl). unfold mbind, M_bind.
  destruct (m s pl) as [[[x|e|] s'] pl']; [|done..].
  destruct Hm as [Hf Hq]. specialize (Hf pl').
  destruct (f x s' pl') as [[[y|e|] s''] pl'']; [| |done].
  - destruct Hf. eauto using quiet_trans.
  - destruct Hf as (? & ? & Hk). split_and!; eauto using quiet_trans.
    intros k -> Hpl. by eapply Hk; eauto.
Qed.

Lemma wp_mono {X} (m : M X) Q Q' E E' s :
  wp m Q E s →
  (∀ x s', Q x s' → Q' x s') → (∀ e s', E e s' → E' e s') →
  wp (A:=A) (V:=V) m Q' E' s.
Proof.
  intros Hm HQ HE pl. specialize (Hm pl).
  destruct (m s pl) as [[[x|e|] s'] pl']; naive_solver.
Qed.

Lemma wp_tick k Q E s :
  Q tt s → E (Failure k) s → wp (A:=A) (V:=V) (tick k) Q E s.
Proof.
  intros HQ HE pl. unfold tick. destruct (pl k) as [[|n]|] eqn:Hk.
  - split_and!; [done|apply quiet_refl|]. intros ? [= <-]. congruence.
  - split; [done|]. intros k' Hk'. case_decide; [congruence|done].
  - split; [done|apply quiet_refl].
Qed.

Lemma wp_throw {X} e Q E s :
  (∀ k, e ≠ Failure k) → E e s → wp (A:=A) (V:=V) (throw (X:=X) e) Q E s.
Proof. intros He HE pl. simpl. split_and!; [done|apply quiet_refl|naive_solver]. Qed.

Lemma wp_try_catch {X} (body : M X) handler Q E s :
  wp body Q (λ e s', wp handler (λ _ s'', E e s'') E s') s →
  wp (A:=A) (V:=V) (try_catch body handler) Q E s.
Proof.
  intros Hm pl. specialize (Hm pl). unfold try_catch.
  destruct (body s pl) as [[[x|e|] s'] pl']; [done| |done].
  destruct Hm as (Hh & Hq & Hk). specialize (Hh pl').
  destruct (handler s' pl') as [[[y|e'|] s''] pl'']; [| |done].
  - destruct Hh. split_and!; eauto using quiet_trans.
  - destruct Hh as (? & ? & Hk'). split_and!; eauto using quiet_trans.
    intros k -> Hpl. by eapply Hk'; eauto.
Qed.

Lemma wp_get_function Q E s :
  Q (function (self s)) s → wp get_function Q E s.
Proof. intros HQ pl. simpl. split; [done|apply quiet_refl]. Qed.

Lemma wp_get_maxima Q E s :
  Q (maxima (self s)) s → wp get_maxima Q E s.
Proof. intros HQ pl. simpl. split; [done|apply quiet_refl]. Qed.

Lemma wp_get_rollback Q E s :
  Q (maxima_rollback s) s → wp get_rollback Q E s.
Proof. intros HQ pl. simpl. split; [done|apply quiet_refl]. Qed.

Lemma wp_get_it Q E s : Q (it_local s) s → wp get_it Q E s.
Proof. intros HQ pl. simpl. split; [done|apply quiet_refl]. Qed.

Lemma wp_put_function l Q E s :
  Q tt (with_function l s) → wp (put_function l) Q E s.
Proof. intros HQ pl. simpl. split; [done|apply quiet_refl]. Qed.

Lemma wp_put_maxima l Q E s :
  Q tt (with_maxima l s) → wp (put_maxima l) Q E s.
Proof. intros HQ pl. simpl. split; [done|apply quiet_refl]. Qed.

Lemma wp_put_rollback r Q E s :
  Q tt (with_rollback r s) → wp (put_rollback r) Q E s.
Proof. intros HQ pl. simpl. split; [done|apply quiet_refl]. Qed.

Lemma wp_put_it i Q E s : Q tt (with_it i s) → wp (put_it i) Q E s.
Proof. intros HQ pl. simpl. split; [done|apply quiet_refl]. Qed.

Lemma wp_deref i p Q E s :
  function (self s) !! i = Some p → Q p s → wp (deref i) Q E s.
Proof.
  intros Hp HQ pl. unfold deref. rewrite Hp. split; [done|apply quiet_refl].
Qed.

(** One step of symbolic execution. *)
Ltac wp_step :=
  cbv beta;
  lazymatch goal with
  | |- wp (mbind _ _) _ _ _ => apply wp_bind
  | |- wp (mret _) _ _ _ => apply wp_ret
  | |- wp (tick _) _ _ _ => apply wp_tick
  | |- wp get_function _ _ _ => apply wp_get_function
  | |- wp get_maxima _ _ _ => apply wp_get_maxima
  | |- wp get_rollback _ _ _ => apply wp_get_rollback
  | |- wp get_it _ _ _ => apply wp_get_it
  | |- wp (put_function _) _ _ _ => apply wp_put_function
  | |- wp (put_maxima _) _ _ _ => apply wp_put_maxima
  | |- wp (put_rollback _) _ _ _ => apply wp_put_rollback
  | |- wp (put_it _) _ _ _ => apply wp_put_it
  end.

Ltac wp_steps := repeat wp_step.

Lemma wp_f_end Q E s :
  Q (length (function (self s))) s → wp f_end Q E s.
Proof. intros HQ. unfold f_end. by wp_steps. Qed.

Lemma wp_less_V (x y : V) Q E s :
  Q (less x y) s → E (Failure Compare) s → wp (less_V x y) Q E s.
Proof. intros HQ HE. unfold less_V. by wp_steps. Qed.

Lemma wp_less_A (x y : A) Q E s :
  Q (less x y) s → E (Failure Compare) s → wp (less_A x y) Q E s.
Proof. intros HQ HE. unfold less_A. by wp_steps. Qed.

Lemma wp_function_lower_bound a Q E s :
  Q (fn_lower_bound a (function (self s))) s → E (Failure Compare) s →
  wp (function_lower_bound a) Q E s.
Proof. intros HQ HE. unfold function_lower_bound. by wp_steps. Qed.

Lemma wp_function_find a Q E s :
  Q (fn_find a (function (self s))) s → E (Failure Compare) s →
  wp (function_find a) Q E s.
Proof. intros HQ HE. unfold function_find. by wp_steps. Qed.

Lemma wp_function_insert hint p Q E s :
  Q hint (with_function (fn_insert hint p (function (self s))) s) →
  E (Failure Compare) s → E (Failure Allocate) s →
  wp (function_insert hint p) Q E s.
Proof. intros HQ HE HE'. unfold function_insert. by wp_steps. Qed.

Lemma wp_function_erase i Q E s :
  Q tt (with_function (fn_erase i (function (self s))) s) →
  wp (function_erase i) Q E s.
Proof. intros HQ. unfold function_erase. by wp_steps. Qed.

Lemma wp_maxima_find p Q E s :
  Q (mx_find p (maxima (self s))) s → E (Failure Compare) s →
  wp (maxima_find p) Q E s.
Proof. intros HQ HE. unfold maxima_find. by wp_steps. Qed.

Lemma wp_maxima_insert p Q E s :
  Q (Some p) (with_maxima (mx_insert p (maxima (self s))) s) →
  E (Failure Compare) s → E (Failure Allocate) s →
  wp (maxima_insert p) Q E s.
Proof. intros HQ HE HE'. unfold maxima_insert. by wp_steps. Qed.

Lemma wp_maxima_erase i Q E s :
  Q tt (match i with
        | Some p => with_maxima (mx_erase p (maxima (self s))) s
        | None => s
        end) →
  wp (maxima_erase i) Q E s.
Proof. intros HQ. unfold maxima_erase. destruct i; by wp_steps. Qed.

Lemma wp_push_back curr Q E s :
  Q tt (with_rollback (maxima_rollback s ++ [curr]) s) →
  E (Failure Grow) s →
  wp (push_back curr) Q E s.
Proof. intros HQ HE. unfold push_back. by wp_steps. Qed.

Lemma wp_new_point a v Q E s :
  Q (mk_point a v) s → E (Failure Allocate) s → wp (new_point a v) Q E s.
Proof. intros HQ HE. unfold new_point. by wp_steps. Qed.

(** What a call does, from the weakest precondition of its body. *)
Lemma wp_call {X} (m : M X) fm pl Q E :
  wp m Q E (mk_frame fm [] 0) →
  match call m fm pl with
  | (Ret x, fm') => ∃ s', self s' = fm' ∧ Q x s'
  | (Throw e, fm') =>
      (∃ s', self s' = fm' ∧ E e s') ∧ ∀ k, e = Failure k → pl k ≠ None
  | (Undefined, _) => False
  end.
Proof.
  intros Hm. specialize (Hm pl). unfold call.
  destruct (m _ pl) as [[[x|e|] s'] pl']; naive_solver.
Qed.

(** *** The local-maximum test *)

Lemma nearest_before_unfold omit i :
  nearest_before omit i =
  match i with
  | 0 => None
  | S j =>
      if decide (j ≠ omit) then Some j
      else match j with 0 => None | S k => Some k end
  end.
Proof.
  unfold nearest_before. destruct i as [|j]; [done|].
  rewrite seq_S, reverse_snoc, filter_cons. simpl.
  case_decide as Hj; [done|]. assert (omit = j) as -> by lia.
  destruct j as [|k]; [done|].
  rewrite seq_S, reverse_snoc, filter_cons. simpl.
  rewrite decide_True by lia. done.
Qed.

Lemma nearest_after_unfold n omit i :
  nearest_after n omit i =
  if decide (S i < n) then
    if decide (S i ≠ omit) then Some (S i)
    else if decide (S (S i) < n) then Some (S (S i)) else None
  else None.
Proof.
  unfold nearest_after. case_decide as Hp.
  - destruct (n - S i) as [|m] eqn:Hm; [lia|]. simpl. rewrite filter_cons.
    case_decide as Hj; [done|]. assert (omit = S i) as -> by lia.
    case_decide as Hp'.
    + destruct m as [|m']; [lia|]. simpl. rewrite filter_cons.
      rewrite decide_True by lia. done.
    + destruct m as [|m']; [done|lia].
  - by replace (n - S i) with 0 by lia.
Qed.

Lemma nearest_before_spec omit i j :
  nearest_before omit i = Some j ↔
  j < i ∧ j ≠ omit ∧ ∀ k, j < k < i → k = omit.
Proof.
  rewrite nearest_before_unfold. destruct i as [|i].
  - split; [done|lia].
  - case_decide as Hi.
    + split; [intros [= <-]; split_and!; [lia|done|lia]|].
      intros (? & ? & Hk). f_equal.
      destruct (decide (i = j)) as [|Hne]; [done|].
      destruct Hi. apply Hk. lia.
    + assert (omit = i) as -> by lia. destruct i as [|k].
      * split; [done|lia].
      * split; [intros [= <-]; split_and!; [lia|lia|lia]|].
        intros (? & ? & Hk). f_equal.
        destruct (decide (k = j)) as [|Hne]; [done|].
        assert (k = S k); [apply Hk|]; lia.
Qed.

Lemma nearest_after_spec n omit i j :
  nearest_after n omit i = Some j ↔
  i < j < n ∧ j ≠ omit ∧ ∀ k, i < k < j → k = omit.
Proof.
  rewrite nearest_after_unfold. split.
  - repeat case_decide; intros [= <-]; split_and!; lia.
  - intros (? & ? & Hk). rewrite decide_True by lia.
    destruct (decide (S i = j)) as [<-|Hne]; [by rewrite decide_True|].
    assert (S i = omit) as <- by (apply Hk; lia).
    rewrite decide_False by lia. rewrite decide_True by lia. f_equal.
    destruct (decide (S (S i) = j)) as [|Hne']; [done|].
    assert (S (S i) = S i); [apply Hk|]; lia.
Qed.

Lemma wp_value_less i j p q Q E s :
  function (self s) !! i = Some p → function (self s) !! j = Some q →
  Q (less (value p) (value q)) s → E (Failure Compare) s →
  wp (value_less i j) Q E s.
Proof.
  intros Hp Hq HQ HE. unfold value_less.
  wp_step. eapply wp_deref; [done|]. wp_step. eapply wp_deref; [done|].
  by apply wp_less_V.
Qed.

Lemma wp_not_exceeded_by it j x Q E s :
  function (self s) !! it = Some x → j < length (function (self s)) →
  Q (not_exceeded_by x (function (self s) !! j)) s → E (Failure Compare) s →
  wp (b ← value_less it j; mret (negb b)) Q E s.
Proof.
  intros Hx Hj HQ HE. destruct (lookup_lt_is_Some_2 _ _ Hj) as [y Hy].
  wp_step. eapply wp_value_less; [done..| |done]. wp_step.
  by rewrite Hy in HQ.
Qed.

(** [is_local_maximum] leaves the frame as it is, answers as the
    specification words it, and throws only from a comparison. *)
Lemma wp_is_local_maximum it omit_it Q E s :
  it < length (function (self s)) →
  Q (local_max_omit (function (self s)) it omit_it) s →
  E (Failure Compare) s →
  wp (is_local_maximum it omit_it) Q E s.
Proof.
  intros Hit HQ HE. unfold local_max_omit in HQ.
  destruct (lookup_lt_is_Some_2 _ _ Hit) as [x Hx]. rewrite Hx in HQ.
  rewrite nearest_before_unfold, nearest_after_unfold in HQ.
  unfold is_local_maximum, begin.
  destruct (decide (it = omit_it)) as [Ho|Ho].
  { rewrite bool_decide_eq_false_2 in HQ by lia. by wp_step. }
  rewrite bool_decide_eq_true_2 in HQ by done. simpl in HQ.
  set (l := function (self s)) in *.
  set (L := not_exceeded_by x _) in HQ. set (R := not_exceeded_by x _) in HQ.
  assert (wp (e ← f_end;
              let cpy_it := S it in
              if decide (cpy_it ≠ e) then
                if decide (cpy_it ≠ omit_it) then
                  b ← value_less it cpy_it; mret (negb b)
                else if decide (S cpy_it ≠ e) then
                  b ← value_less it (S cpy_it); mret (negb b)
                else mret true
              else mret true) (λ b s', s' = s ∧ b = R) E s) as HR.
  { wp_step. apply wp_f_end. fold l. cbv zeta. subst R.
    destruct (decide (S it ≠ length l)) as [Hn|Hn].
    - rewrite (decide_True (P:=S it < length l)) by lia.
      destruct (decide (S it ≠ omit_it)).
      + apply (wp_not_exceeded_by _ _ x); [done|fold l; lia|done..].
      + destruct (decide (S (S it) ≠ length l)).
        * rewrite (decide_True (P:=S (S it) < length l)) by lia.
          apply (wp_not_exceeded_by _ _ x); [done|fold l; lia|done..].
        * rewrite (decide_False (P:=S (S it) < length l)) by lia. by wp_step.
    - rewrite (decide_False (P:=S it < length l)) by lia. by wp_step. }
  assert (∀ b, b = L →
    wp (if b then
          e ← f_end;
          let cpy_it := S it in
          if decide (cpy_it ≠ e) then
            if decide (cpy_it ≠ omit_it) then
              b ← value_less it cpy_it; mret (negb b)
            else if decide (S cpy_it ≠ e) then
              b ← value_less it (S cpy_it); mret (negb b)
            else mret true
          else mret true
        else mret false) Q E s) as Hk.
  { intros b ->. destruct L; simpl in HQ.
    - eapply wp_mono; [exact HR| |done]. by intros b s' [-> ->].
    - by wp_step. }
  wp_step. subst L. destruct it as [|j].
  - rewrite decide_False by lia. wp_step. by apply (Hk true).
  - rewrite decide_True by lia. replace (S j - 1) with j by lia.
    destruct (decide (j ≠ omit_it)).
    + apply (wp_not_exceeded_by _ _ x); [done|fold l; lia| |done]. by apply Hk.
    + destruct j as [|k].
      * rewrite decide_False by lia. wp_step. by apply (Hk true).
      * rewrite decide_True by lia. replace (S k - 1) with k by lia.
        apply (wp_not_exceeded_by _ _ x); [done|fold l; lia| |done]. by apply Hk.
Qed.

(** *** The maintenance step *)

Lemma registered_trans s1 s2 s3 :
  registered s1 s2 → registered s2 s3 → registered s1 s3.
Proof. intros H12 H23. induction H23; [done|by constructor]. Qed.

Lemma register_function b p s :
  function (self (register b p s)) = function (self s).
Proof. by destruct b. Qed.

Lemma register_it b p s : it_local (register b p s) = it_local s.
Proof. by destruct b. Qed.

Lemma settle_function omit o s :
  function (self (settle omit o s).1) = function (self s).
Proof.
  unfold settle. destruct (o ≫= _) as [[j p]|]; [|done].
  apply register_function.
Qed.

Lemma settle_registered omit o s : registered s (settle omit o s).1.
Proof.
  unfold settle. destruct (o ≫= _) as [[j p]|]; constructor. constructor.
Qed.

Lemma wp_stopped_being_maximum cpy_it omit_it Q E s :
  cpy_it < length (function (self s)) →
  Q (settle omit_it (Some cpy_it) s).2 (settle omit_it (Some cpy_it) s).1 →
  (∀ k, k ≠ Grow → E (Failure k) s) →
  (∀ s', E (Failure Grow) s') →
  wp (stopped_being_maximum cpy_it omit_it) Q E s.
Proof.
  intros Hlt HQ HE HG. destruct (lookup_lt_is_Some_2 _ _ Hlt) as [p Hp].
  unfold settle in HQ. simpl in HQ. rewrite Hp in HQ. simpl in HQ.
  unfold stopped_being_maximum, mx_end.
  wp_step. eapply wp_deref; [done|].
  wp_step. apply wp_maxima_find; [|by apply HE].
  wp_step. apply wp_is_local_maximum; [done| |by apply HE].
  destruct (local_max_omit _ cpy_it omit_it); simpl in HQ; [|by wp_step].
  wp_step. destruct (mx_find p _) as [q|]; simpl in HQ.
  - rewrite decide_False by done. by wp_steps.
  - rewrite decide_True by done. wp_step.
    apply wp_maxima_insert; [|by apply HE..].
    apply wp_push_back; [|done]. by wp_steps.
Qed.

Lemma wp_erase_each r Q E s :
  Q tt (foldl (λ s i, unlink i s) s r) → wp (erase_each r) Q E s.
Proof.
  revert s. induction r as [|i r IH]; simpl; intros s HQ; [by wp_step|].
  wp_step. apply wp_maxima_erase. by apply IH.
Qed.

Lemma wp_unlink i Q E s :
  Q tt (unlink i s) →
  wp (if decide (i ≠ mx_end) then maxima_erase i else mret tt) Q E s.
Proof.
  intros HQ. unfold mx_end. destruct i as [p|].
  - rewrite decide_True by done. by apply wp_maxima_erase.
  - rewrite decide_False by naive_solver. by wp_step.
Qed.

(** [update_maxima] returns in the frame [updated]; when it throws, the
    growth of the vector apart, it has only registered points. *)
Lemma wp_update_maxima it omit_it Q E s :
  it < length (function (self s)) →
  Q tt (updated it omit_it s) →
  (∀ k s', k ≠ Grow → registered s s' → E (Failure k) s') →
  (∀ s', E (Failure Grow) s') →
  wp (update_maxima it omit_it) Q E s.
Proof.
  intros Hit HQ HE HG. destruct (lookup_lt_is_Some_2 _ _ Hit) as [x Hx].
  unfold updated in HQ. cbv zeta in HQ. rewrite Hx in HQ.
  unfold update_maxima.
  wp_step. apply wp_is_local_maximum; [done| |by apply HE; [|constructor]].
  set (s1 := register _ x s) in HQ.
  assert (registered s s1) as Hs1 by (constructor; constructor).
  assert (function (self s1) = function (self s)) as Hf1
    by apply register_function.
  wp_step.
  assert (wp (if local_max_omit (function (self s)) it omit_it
              then p ← deref it; curr ← maxima_insert p; push_back curr
              else mret tt)
            (λ _ s', s' = s1) E s) as Hfirst.
  { subst s1. destruct (local_max_omit _ it omit_it); simpl; [|by wp_step].
    wp_step. eapply wp_deref; [done|]. wp_step.
    apply wp_maxima_insert; [|by apply HE; [|constructor]..].
    by apply wp_push_back. }
  eapply wp_mono; [exact Hfirst| |done]. intros _ ? ->. clear Hfirst.
  destruct (settle omit_it (nearest_before omit_it it) s1) as [s2 lft] eqn:H2.
  assert (registered s s2) as Hs2.
  { eapply registered_trans; [done|].
    by rewrite (eq_refl : s2 = (s2, lft).1), <-H2; apply settle_registered. }
  assert (function (self s2) = function (self s)) as Hf2.
  { by rewrite (eq_refl : s2 = (s2, lft).1), <-H2, settle_function. }
  wp_step.
  assert (wp (let '(moved, cpy_it) := safe_decrement it in
              if moved then
                if decide (cpy_it ≠ omit_it)
                then stopped_being_maximum cpy_it omit_it
                else
                  let '(moved', cpy_it') := safe_decrement cpy_it in
                  if moved' then stopped_being_maximum cpy_it' omit_it
                  else mret mx_end
              else mret mx_end)
            (λ i s', i = lft ∧ s' = s2) E s1) as Hleft.
  { rewrite nearest_before_unfold in H2. unfold safe_decrement, begin.
    assert (∀ j, j < it → settle omit_it (Some j) s1 = (s2, lft) →
      wp (stopped_being_maximum j omit_it) (λ i s', i = lft ∧ s' = s2) E s1)
      as Hstop.
    { intros j Hj Hset. apply wp_stopped_being_maximum; [rewrite Hf1; lia| |by auto|done].
      by rewrite Hset. }
    destruct it as [|j].
    - rewrite decide_True by done. wp_step. unfold settle in *. by simplify_eq/=.
    - rewrite decide_False by lia. replace (S j - 1) with j by lia.
      destruct (decide (j ≠ omit_it)); [apply Hstop; [lia|done]|].
      destruct j as [|k].
      + rewrite decide_True by done. wp_step. unfold settle in *. by simplify_eq/=.
      + rewrite decide_False by lia. replace (S k - 1) with k by lia.
        apply Hstop; [lia|done]. }
  eapply wp_mono; [exact Hleft| |done]. intros ?? [-> ->]. clear Hleft.
  wp_step. apply wp_f_end. rewrite Hf2. cbv zeta.
  destruct (settle omit_it (nearest_after _ omit_it it) s2) as [s3 rgt] eqn:H3.
  assert (registered s s3) as Hs3.
  { eapply registered_trans; [done|].
    by rewrite (eq_refl : s3 = (s3, rgt).1), <-H3; apply settle_registered. }
  wp_step.
  assert (wp (if decide (S it ≠ length (function (self s))) then
                if decide (S it ≠ omit_it)
                then stopped_being_maximum (S it) omit_it
                else if decide (S (S it) ≠ length (function (self s)))
                     then stopped_being_maximum (S (S it)) omit_it
                     else mret mx_end
              else mret mx_end)
            (λ i s', i = rgt ∧ s' = s3) E s2) as Hright.
  { rewrite nearest_after_unfold in H3.
    assert (∀ j, j < length (function (self s)) →
      settle omit_it (Some j) s2 = (s3, rgt) →
      wp (stopped_being_maximum j omit_it) (λ i s', i = rgt ∧ s' = s3) E s2)
      as Hstop.
    { intros j Hj Hset. apply wp_stopped_being_maximum; [rewrite Hf2; lia| |by auto|done].
      by rewrite Hset. }
    destruct (decide (S it ≠ length (function (self s)))).
    - rewrite (decide_True (P:=S it < _)) in H3 by lia.
      destruct (decide (S it ≠ omit_it)); [apply Hstop; [lia|done]|].
      destruct (decide (S (S it) ≠ length (function (self s)))).
      + rewrite (decide_True (P:=S (S it) < _)) in H3 by lia.
        apply Hstop; [lia|done].
      + rewrite (decide_False (P:=S (S it) < _)) in H3 by lia.
        wp_step. unfold settle in *. by simplify_eq/=.
    - rewrite (decide_False (P:=S it < _)) in H3 by lia.
      wp_step. unfold settle in *. by simplify_eq/=. }
  eapply wp_mono; [exact Hright| |done]. intros ?? [-> ->]. clear Hright.
  wp_step. apply wp_unlink. by apply wp_unlink.
Qed.

(** *** Local maxima of a list *)

Lemma delete_ge {T} (l : list T) i : length l ≤ i → delete i l = l.
Proof.
  intros Hi. rewrite delete_take_drop, take_ge, drop_ge by lia.
  apply app_nil_r.
Qed.

Lemma local_max_omit_lt l k omit : local_max_omit l k omit = true → k < length l.
Proof.
  unfold local_max_omit. destruct (l !! k) eqn:Hk; [|done].
  intros _. by eapply lookup_lt_Some.
Qed.

(** Without omission the neighbours are the adjacent points. *)
Lemma local_max_omit_end l k x omit :
  l !! k = Some x → length l ≤ omit →
  local_max_omit l k omit =
  not_exceeded_by x (pred_lookup l k) && not_exceeded_by x (l !! S k).
Proof.
  intros Hx Ho. pose proof (lookup_lt_Some _ _ _ Hx) as Hk.
  unfold local_max_omit. rewrite Hx, bool_decide_eq_true_2 by lia. simpl.
  rewrite nearest_before_unfold, nearest_after_unfold. f_equal.
  - destruct k as [|j]; [done|]. by rewrite decide_True by lia.
  - destruct (decide (S k < length l)).
    + by rewrite decide_True by lia.
    + simpl. by rewrite lookup_ge_None_2 by lia.
Qed.

(** With omission they are the adjacent points once the omitted one has
    been erased. *)
Lemma local_max_omit_delete l k omit :
  k < length l → k ≠ omit →
  local_max_omit l k omit =
  local_max_omit (delete omit l) (if decide (k < omit) then k else k - 1)
    (length (delete omit l)).
Proof.
  intros Hk Hne. destruct (lookup_lt_is_Some_2 _ _ Hk) as [x Hx].
  destruct (decide (length l ≤ omit)) as [Hge|Hlt].
  { rewrite decide_True by lia. rewrite delete_ge by lia.
    rewrite !(local_max_omit_end l k x) by (done || lia). done. }
  assert (length (delete omit l) = length l - 1) as Hlen.
  { rewrite length_delete; [done|]. apply lookup_lt_is_Some_2. lia. }
  set (k' := if decide (k < omit) then k else k - 1).
  assert (delete omit l !! k' = Some x) as Hx'.
  { subst k'. case_decide.
    - by rewrite list_lookup_delete_lt.
    - rewrite list_lookup_delete_ge by lia. by replace (S (k - 1)) with k by lia. }
  rewrite (local_max_omit_end _ k' x) by (done || lia).
  unfold local_max_omit. rewrite Hx, bool_decide_eq_true_2 by done. simpl.
  rewrite nearest_before_unfold, nearest_after_unfold. f_equal.
  - subst k'. destruct k as [|j]; [by rewrite decide_True by lia|].
    destruct (decide (j ≠ omit)) as [Hj|Hj]; simpl.
    + case_decide; simpl.
      * by rewrite list_lookup_delete_lt by lia.
      * replace (S j - 1) with j by lia. destruct j as [|j']; [lia|]. simpl.
        rewrite list_lookup_delete_ge by lia. done.
    + assert (omit = j) as -> by lia. rewrite decide_False by lia.
      replace (S j - 1) with j by lia. destruct j as [|j']; simpl; [done|].
      by rewrite list_lookup_delete_lt by lia.
  - subst k'. destruct (decide (S k < length l)); simpl.
    + destruct (decide (S k ≠ omit)) as [Hj|Hj]; simpl.
      * case_decide.
        -- by rewrite list_lookup_delete_lt by lia.
        -- rewrite list_lookup_delete_ge by lia. by replace (S (k - 1)) with k by lia.
      * assert (omit = S k) as -> by lia. rewrite (decide_True (P:=k < S k)) by lia.
        rewrite list_lookup_delete_ge by lia.
        destruct (decide (S (S k) < length l)); simpl; [done|].
        by rewrite lookup_ge_None_2 by lia.
    + rewrite lookup_ge_None_2; [done|]. rewrite Hlen. case_decide; lia.
Qed.

Lemma select_elem_of f i l q :
  q ∈ select f i l ↔ ∃ k, l !! k = Some q ∧ f (i + k) = true.
Proof.
  revert i. induction l as [|p l IH]; intros i; simpl.
  - split; [by intros ?%elem_of_nil|by intros (k & ? & _)].
  - split.
    + destruct (f i) eqn:Hf.
      * intros [->|Hq]%elem_of_cons.
        -- exists 0. by rewrite Nat.add_0_r.
        -- apply IH in Hq as (k & ? & ?). exists (S k).
           by replace (i + S k) with (S i + k) by lia.
      * intros Hq. apply IH in Hq as (k & ? & ?). exists (S k).
        by replace (i + S k) with (S i + k) by lia.
    + intros ([|k] & Hk & Hf); simpl in Hk.
      * simplify_eq. rewrite Nat.add_0_r in Hf. rewrite Hf. by left.
      * assert (q ∈ select f (S i) l).
        { apply IH. exists k. by replace (S i + k) with (i + S k) by lia. }
        destruct (f i); [by right|done].
Qed.

Lemma select_sublist f i l : select f i l `sublist_of` l.
Proof.
  revert i. induction l as [|p l IH]; intros i; simpl; [done|].
  destruct (f i); [by apply sublist_skip|by apply sublist_cons].
Qed.

Lemma count_select_at f l k q :
  NoDup l → l !! k = Some q →
  count (select f 0 l) q = if f k then 1 else 0.
Proof.
  intros Hl Hk.
  assert (NoDup (select f 0 l)) as Hnd.
  { eapply sublist_NoDup; [done|]. apply select_sublist. }
  pose proof (proj1 (count_NoDup _) Hnd q) as Hle.
  destruct (f k) eqn:Hf.
  - assert (q ∈ select f 0 l) as Hin%count_elem_of; [|lia].
    apply select_elem_of. by exists k.
  - apply count_not_elem_of. intros (k' & Hk' & Hf')%select_elem_of.
    assert (k = k') as -> by exact (NoDup_lookup l k k' q Hl Hk Hk').
    simpl in Hf'. congruence.
Qed.

Lemma count_select_absent f l q : q ∉ l → count (select f 0 l) q = 0.
Proof.
  intros Hq. apply count_not_elem_of. intros Hin. apply Hq.
  eapply elem_of_sublist; [done|apply select_sublist].
Qed.

(** *** What the maintenance step does to the maxima set *)

Lemma register_maxima_count b p s q :
  count (maxima (self (register b p s))) q =
  count (maxima (self s)) q + (if decide (q = p) then Nat.b2n b else 0).
Proof.
  destruct b; simpl.
  - rewrite mx_insert_count. case_decide; lia.
  - case_decide; lia.
Qed.

Lemma register_maxima_sorted b p s :
  StronglySorted mx_le (maxima (self s)) →
  StronglySorted mx_le (maxima (self (register b p s))).
Proof. destruct b; simpl; [apply mx_insert_sorted|done]. Qed.

Lemma unlink_maxima_count i s q :
  count (maxima (self (unlink i s))) q =
  count (maxima (self s)) q - (if decide (i = Some q) then 1 else 0).
Proof.
  destruct i as [p|].
  - change (maxima (self (unlink (Some p) s))) with (mx_erase p (maxima (self s))).
    rewrite mx_erase_count. repeat case_decide; simplify_eq; lia.
  - change (unlink None s) with s. rewrite decide_False by done. lia.
Qed.

Lemma unlink_maxima_sorted i s :
  StronglySorted mx_le (maxima (self s)) →
  StronglySorted mx_le (maxima (self (unlink i s))).
Proof. destruct i; simpl; [apply mx_erase_sorted|done]. Qed.

Lemma unlink_function i s : function (self (unlink i s)) = function (self s).
Proof. by destruct i. Qed.

Lemma unlink_it i s : it_local (unlink i s) = it_local s.
Proof. by destruct i. Qed.

Lemma mx_find_count p l :
  StronglySorted mx_le l →
  mx_find p l = if decide (count l p = 0) then None else Some p.
Proof.
  intros Hl. rewrite mx_find_spec by done.
  destruct (decide (p ∈ l)) as [Hp|Hp].
  - apply count_elem_of in Hp. by rewrite decide_False by lia.
  - apply count_not_elem_of in Hp. by rewrite decide_True.
Qed.

Lemma settle_Some omit j p s :
  function (self s) !! j = Some p →
  StronglySorted mx_le (maxima (self s)) →
  let b := local_max_omit (function (self s)) j omit in
  let absent := bool_decide (count (maxima (self s)) p = 0) in
  settle omit (Some j) s =
  (register (b && absent) p s, if b || absent then None else Some p).
Proof.
  intros Hp Hs. unfold settle. simpl. rewrite Hp. simpl.
  rewrite mx_find_count by done. f_equal.
  - f_equal. f_equal. case_decide.
    + by rewrite !bool_decide_eq_true_2.
    + by rewrite !bool_decide_eq_false_2.
  - destruct (local_max_omit _ _ _); simpl; [done|].
    case_decide.
    + by rewrite bool_decide_eq_true_2.
    + by rewrite bool_decide_eq_false_2.
Qed.

Lemma settle_None omit s : settle omit None s = (s, None).
Proof. done. Qed.

Lemma settle_sorted omit o s :
  StronglySorted mx_le (maxima (self s)) →
  StronglySorted mx_le (maxima (self (settle omit o s).1)).
Proof.
  intros Hs. unfold settle. destruct (o ≫= _) as [[j p]|]; [|done].
  by apply register_maxima_sorted.
Qed.

Lemma updated_function it omit s :
  function (self (updated it omit s)) = function (self s).
Proof.
  unfold updated. cbv zeta.
  set (s1 := match _ !! it with Some p => _ | None => s end).
  assert (function (self s1) = function (self s)) as H1.
  { subst s1. destruct (_ !! it); [apply register_function|done]. }
  destruct (settle omit (nearest_before omit it) s1) as [s2 lft] eqn:H2.
  destruct (settle omit (nearest_after _ omit it) s2) as [s3 rgt] eqn:H3.
  rewrite !unlink_function.
  rewrite (eq_refl : s3 = (s3, rgt).1), <-H3, settle_function.
  by rewrite (eq_refl : s2 = (s2, lft).1), <-H2, settle_function.
Qed.

Lemma updated_sorted it omit s :
  StronglySorted mx_le (maxima (self s)) →
  StronglySorted mx_le (maxima (self (updated it omit s))).
Proof.
  intros Hs. unfold updated. cbv zeta.
  set (s1 := match _ !! it with Some p => _ | None => s end).
  assert (StronglySorted mx_le (maxima (self s1))) as H1.
  { subst s1. destruct (_ !! it); [by apply register_maxima_sorted|done]. }
  destruct (settle omit (nearest_before omit it) s1) as [s2 lft] eqn:H2.
  destruct (settle omit (nearest_after _ omit it) s2) as [s3 rgt] eqn:H3.
  do 2 apply unlink_maxima_sorted.
  rewrite (eq_refl : s3 = (s3, rgt).1), <-H3. apply settle_sorted.
  rewrite (eq_refl : s2 = (s2, lft).1), <-H2. by apply settle_sorted.
Qed.

(** The neighbours of [it] are in the right state afterwards, [it] itself
    has been linked in if it is a maximum, and nothing else has changed. *)
Lemma updated_count it omit s x q :
  let l := function (self s) in
  let mx := maxima (self s) in
  let before := nearest_before omit it ≫= (l !!.) in
  let after := nearest_after (length l) omit it ≫= (l !!.) in
  StronglySorted mx_le mx →
  l !! it = Some x →
  before ≠ Some x → after ≠ Some x → (is_Some before → before ≠ after) →
  (∀ p, before = Some p ∨ after = Some p → count mx p ≤ 1) →
  count (maxima (self (updated it omit s))) q =
  match nearest_before omit it, nearest_after (length l) omit it with
  | Some j, _ =>
      if decide (l !! j = Some q) then Nat.b2n (local_max_omit l j omit) else
      match nearest_after (length l) omit it with
      | Some j' =>
          if decide (l !! j' = Some q) then Nat.b2n (local_max_omit l j' omit)
          else count mx q + (if decide (q = x) then Nat.b2n (local_max_omit l it omit) else 0)
      | None => count mx q + (if decide (q = x) then Nat.b2n (local_max_omit l it omit) else 0)
      end
  | None, Some j' =>
      if decide (l !! j' = Some q) then Nat.b2n (local_max_omit l j' omit)
      else count mx q + (if decide (q = x) then Nat.b2n (local_max_omit l it omit) else 0)
  | None, None => count mx q + (if decide (q = x) then Nat.b2n (local_max_omit l it omit) else 0)
  end.
Proof.
  intros l mx before after Hs Hx Hbx Hax Hba Hc.
  unfold updated. cbv zeta. fold l. rewrite Hx.
  set (bT := local_max_omit l it omit).
  set (s1 := register bT x s).
  assert (function (self s1) = l) as Hf1 by apply register_function.
  assert (StronglySorted mx_le (maxima (self s1))) as Hs1
    by (by apply register_maxima_sorted).
  pose proof (register_maxima_count bT x s) as Hc1. fold s1 mx in Hc1.
  assert (∀ j, nearest_before omit it = Some j → is_Some (l !! j)) as Hbl.
  { intros j Hj%nearest_before_spec. apply lookup_lt_is_Some.
    apply lookup_lt_Some in Hx. lia. }
  assert (∀ j, nearest_after (length l) omit it = Some j → is_Some (l !! j)) as Hal.
  { intros j Hj%nearest_after_spec. apply lookup_lt_is_Some. lia. }
  subst before after.
  destruct (nearest_before omit it) as [j|] eqn:Hnb; simpl in *.
  - destruct (Hbl j eq_refl) as [pL HpL]. rewrite HpL in *.
    assert (pL ≠ x) as HLx by congruence.
    assert (count mx pL ≤ 1) as HcL by auto.
    rewrite (settle_Some omit j pL s1) by (by rewrite ?Hf1).
    rewrite Hf1. set (bL := local_max_omit l j omit).
    rewrite (Hc1 pL), (decide_False (P:=pL = x)), Nat.add_0_r by done.
    set (aL := bool_decide (count mx pL = 0)).
    set (s2 := register (bL && aL) pL s1).
    assert (function (self s2) = l) as Hf2
      by (etrans; [apply register_function|done]).
    assert (StronglySorted mx_le (maxima (self s2))) as Hs2
      by (by apply register_maxima_sorted).
    pose proof (register_maxima_count (bL && aL) pL s1) as Hc2. fold s2 in Hc2.
    destruct (nearest_after (length l) omit it) as [j'|] eqn:Hna; simpl in *.
    + destruct (Hal j' eq_refl) as [pR HpR]. rewrite HpR in *.
      assert (pR ≠ x) as HRx by congruence.
      assert (pL ≠ pR) as HLR by (intros ->; by apply Hba).
      assert (count mx pR ≤ 1) as HcR by auto.
      rewrite (settle_Some omit j' pR s2) by (by rewrite ?Hf2).
      rewrite Hf2. set (bR := local_max_omit l j' omit).
      rewrite (Hc2 pR), (decide_False (P:=pR = pL)), Nat.add_0_r by done.
      rewrite (Hc1 pR), (decide_False (P:=pR = x)), Nat.add_0_r by done.
      set (aR := bool_decide (count mx pR = 0)).
      rewrite !unlink_maxima_count, register_maxima_count, Hc2, Hc1.
      subst aL aR. destruct bL, bR, bT; simpl;
        repeat case_bool_decide; repeat case_decide; simplify_eq;
        cbn [Nat.b2n] in *; lia.
    + rewrite !unlink_maxima_count, Hc2, Hc1.
      subst aL. destruct bL, bT; simpl;
        repeat case_bool_decide; repeat case_decide; simplify_eq;
        cbn [Nat.b2n] in *; lia.
  - rewrite ?settle_None.
    destruct (nearest_after (length l) omit it) as [j'|] eqn:Hna; simpl in *.
    + destruct (Hal j' eq_refl) as [pR HpR]. rewrite HpR in *.
      assert (pR ≠ x) as HRx by congruence.
      assert (count mx pR ≤ 1) as HcR by auto.
      rewrite (settle_Some omit j' pR s1) by (by rewrite ?Hf1).
      rewrite Hf1. set (bR := local_max_omit l j' omit).
      rewrite (Hc1 pR), (decide_False (P:=pR = x)), Nat.add_0_r by done.
      set (aR := bool_decide (count mx pR = 0)).
      rewrite !unlink_maxima_count, register_maxima_count, Hc1.
      subst aR. destruct bR, bT; simpl;
        repeat case_bool_decide; repeat case_decide; simplify_eq;
        cbn [Nat.b2n] in *; lia.
    + rewrite ?unlink_maxima_count, Hc1.
      destruct bT; simpl; repeat case_decide; simplify_eq; cbn [Nat.b2n] in *; lia.
Qed.

(** *** Positions before and after an erased node *)

Lemma delete_lookup_shift l omit k :
  k ≠ omit → delete omit l !! shift omit k = l !! k.
Proof.
  intros Hk. unfold shift. case_decide.
  - by rewrite list_lookup_delete_lt.
  - rewrite list_lookup_delete_ge by lia. by replace (S (k - 1)) with k by lia.
Qed.

Lemma delete_lookup_unshift l omit k' q :
  delete omit l !! k' = Some q →
  ∃ k, l !! k = Some q ∧ k ≠ omit ∧ shift omit k = k'.
Proof.
  intros Hq. destruct (decide (k' < omit)).
  - exists k'. rewrite list_lookup_delete_lt in Hq by done.
    unfold shift. rewrite decide_True by done. split_and!; [done|lia|done].
  - exists (S k'). rewrite list_lookup_delete_ge in Hq by lia.
    unfold shift. rewrite decide_False by lia. split_and!; [done|lia|lia].
Qed.

Lemma shift_inj omit k1 k2 :
  k1 ≠ omit → k2 ≠ omit → shift omit k1 = shift omit k2 → k1 = k2.
Proof. unfold shift. repeat case_decide; lia. Qed.

Lemma local_max_omit_shift l k omit :
  k < length l → k ≠ omit →
  local_max_omit l k omit =
  local_max_omit (delete omit l) (shift omit k) (length (delete omit l)).
Proof. apply local_max_omit_delete. Qed.

Lemma count_lms_at l k q :
  NoDup l → l !! k = Some q →
  count (lms l) q = Nat.b2n (local_max_omit l k (length l)).
Proof.
  intros Hl Hk. unfold lms. rewrite (count_select_at _ l k) by done.
  by destruct (local_max_omit _ _ _).
Qed.

Lemma count_lms_absent l q : q ∉ l → count (lms l) q = 0.
Proof. apply count_select_absent. Qed.

Lemma lms_NoDup l : NoDup l → NoDup (lms l).
Proof. intros Hl. eapply sublist_NoDup; [done|]. apply select_sublist. Qed.

(** *** The maintenance step is right *)

(** The frame holds the store with the new node linked in and the node
    [omit] not yet erased; the maxima set is that of the store before the
    call.  If the maxima set is right for the positions away from [it],
    then after [update_maxima] and the erasure of the node [omit] from both
    sets it is right everywhere. *)
Lemma maintenance it omit s x :
  let l := function (self s) in
  let mx := maxima (self s) in
  let l' := delete omit l in
  let h := l !! omit ≫= λ y, mx_find y mx in
  StronglySorted mx_le mx →
  NoDup l' →
  l !! it = Some x →
  (omit = it ∨ omit = S it ∨ length l ≤ omit) →
  (∀ q, count mx q ≤ 1) →
  (∀ k q, l !! k = Some q → k ≠ omit → k ≠ it →
     nearest_before omit it ≠ Some k →
     nearest_after (length l) omit it ≠ Some k →
     count mx q = Nat.b2n (local_max_omit l k omit)) →
  (∀ q, q ∉ l → count mx q = 0) →
  (it ≠ omit → l !! omit ≠ Some x → count mx x = 0) →
  (∀ y, l !! omit = Some y → omit = it ∨ y ≠ x → y ∉ l') →
  ∀ q, count (maxima (self (unlink h (updated it omit s)))) q = count (lms l') q.
Proof.
  intros l mx l' h Hs Hnd Hx Ho Hle Haway Hout Hnew Hgone q.
  pose proof (lookup_lt_Some _ _ _ Hx) as Hit.
  (* the two neighbours *)
  assert (∀ j, nearest_before omit it = Some j →
    j < it ∧ j ≠ omit ∧ ∃ p, l !! j = Some p ∧ l' !! shift omit j = Some p) as Hb.
  { intros j (? & ? & _)%nearest_before_spec. split_and!; [done..|].
    destruct (lookup_lt_is_Some_2 l j) as [p Hp]; [lia|]. exists p.
    split; [done|]. subst l'. by rewrite delete_lookup_shift. }
  assert (∀ j, nearest_after (length l) omit it = Some j →
    it < j ∧ j ≠ omit ∧ ∃ p, l !! j = Some p ∧ l' !! shift omit j = Some p) as Ha.
  { intros j (? & ? & _)%nearest_after_spec. split_and!; [lia|done|].
    destruct (lookup_lt_is_Some_2 l j) as [p Hp]; [lia|]. exists p.
    split; [done|]. subst l'. by rewrite delete_lookup_shift. }
  (* the target is in the final store unless it is the erased node *)
  assert (it ≠ omit → l' !! shift omit it = Some x) as Hx'.
  { intros. subst l'. by rewrite delete_lookup_shift. }
  assert (omit = it → x ∉ l') as Hxgone.
  { intros ->. apply Hgone; [done|by left]. }
  assert (∀ k p, k ≠ omit → k ≠ it → l !! k = Some p → p ≠ x) as Hother.
  { intros k p Hk Hk' Hp ->. destruct (decide (it = omit)) as [Heq|Hne].
    - apply (Hxgone (eq_sym Heq)). apply list_elem_of_lookup.
      exists (shift omit k). subst l'. by rewrite delete_lookup_shift.
    - assert (shift omit k = shift omit it) as Hsh.
      { eapply NoDup_lookup; [exact Hnd| |by apply Hx'].
        subst l'. by rewrite delete_lookup_shift. }
      by apply shift_inj in Hsh. }
  (* the iterator of the erased node *)
  assert (l !! omit = Some q →
    h = if decide (count mx q = 0) then None else Some q) as Hh1.
  { intros Hq. subst h. rewrite Hq. simpl. by apply mx_find_count. }
  assert (l !! omit ≠ Some q → h ≠ Some q) as Hh2.
  { intros Hq Hhq. subst h. destruct (l !! omit) as [y|]; [|done]. simpl in Hhq.
    rewrite mx_find_count in Hhq by done. case_decide; congruence. }
  assert (q ∈ l' → q ≠ x → h ≠ Some q) as Hh3.
  { intros Hq Hqx. apply Hh2. intros Hy. by eapply Hgone; [|right|]. }
  (* what [update_maxima] has done *)
  rewrite unlink_maxima_count.
  rewrite (updated_count it omit s x q); [fold l mx|done|done|..].
  2:{ fold l. destruct (nearest_before omit it) as [j|] eqn:Hj; [|done]. simpl.
      destruct (Hb j eq_refl) as (? & ? & p & Hp & _). rewrite Hp.
      intros [= ->]. eapply (Hother j); [done|lia|done..]. }
  2:{ fold l. destruct (nearest_after _ omit it) as [j|] eqn:Hj; [|done]. simpl.
      destruct (Ha j eq_refl) as (? & ? & p & Hp & _). rewrite Hp.
      intros [= ->]. eapply (Hother j); [done|lia|done..]. }
  2:{ fold l. destruct (nearest_before omit it) as [j|] eqn:Hj;
        [|by intros [??]]. simpl.
      destruct (nearest_after _ omit it) as [j'|] eqn:Hj'; simpl.
      - destruct (Hb j eq_refl) as (? & ? & p & Hp & Hp').
        destruct (Ha j' eq_refl) as (? & ? & p' & Hq & Hq').
        rewrite Hp, Hq. intros _ [= ->].
        assert (shift omit j = shift omit j') as Hsh
          by (eapply NoDup_lookup; [exact Hnd|done..]).
        apply shift_inj in Hsh; [lia|done..].
      - destruct (Hb j eq_refl) as (? & ? & p & Hp & _). by rewrite Hp. }
  2:{ intros p _. apply Hle. }
  set (bT := local_max_omit l it omit).
  destruct (decide (q ∈ l')) as [Hq|Hq].
  - (* a point of the final store *)
    apply list_elem_of_lookup in Hq as Hq'. destruct Hq' as [k' Hk'].
    destruct (delete_lookup_unshift l omit k' q Hk') as (k & Hk & Hko & <-).
    pose proof (lookup_lt_Some _ _ _ Hk) as Hklt.
    rewrite (count_lms_at l' (shift omit k) q) by done.
    subst l'. rewrite <-local_max_omit_shift by done.
    assert (∀ j p, j ≠ omit → l !! j = Some p → p = q → j = k) as Huniq.
    { intros j p Hj Hp ->. apply (shift_inj omit); [done..|].
      eapply NoDup_lookup; [exact Hnd| |done]. by rewrite delete_lookup_shift. }
    assert (∀ j, (nearest_before omit it = Some j ∨
                  nearest_after (length l) omit it = Some j) →
      l !! j = Some q → j = k ∧ h ≠ Some q) as Hnb.
    { intros j Hj Hjq. assert (j ≠ omit ∧ j ≠ it) as [??].
      { destruct Hj as [Hj|Hj]; [apply Hb in Hj|apply Ha in Hj]; lia. }
      split; [by eapply Huniq|]. apply Hh3; [done|]. by eapply Hother. }
    assert (nearest_before omit it ≠ Some k →
            nearest_after (length l) omit it ≠ Some k →
      count mx q + (if decide (q = x) then Nat.b2n bT else 0)
        - (if decide (h = Some q) then 1 else 0)
      = Nat.b2n (local_max_omit l k omit)) as Hrest.
    { intros Hkb Hka. destruct (decide (k = it)) as [->|Hkit].
      - assert (q = x) as -> by congruence. rewrite decide_True by done.
        fold bT. destruct (decide (l !! omit = Some x)) as [Hy|Hy].
        + rewrite Hh1 by done. specialize (Hle x).
          destruct bT; repeat case_decide; simplify_eq; simpl; lia.
        + rewrite Hnew by done. rewrite (decide_False (P:=h = Some x)) by auto.
          simpl. lia.
      - assert (q ≠ x) by (by eapply Hother).
        rewrite (Haway k q) by done.
        rewrite (decide_False (P:=q = x)) by done.
        rewrite (decide_False (P:=h = Some q)) by auto. lia. }
    destruct (nearest_before omit it) as [j|] eqn:Hj.
    + destruct (decide (l !! j = Some q)) as [Hjq|Hjq].
      { destruct (Hnb j) as [-> ?]; [by left|done|].
        rewrite decide_False by done. lia. }
      destruct (nearest_after (length l) omit it) as [j'|] eqn:Hj'.
      * destruct (decide (l !! j' = Some q)) as [Hjq'|Hjq'].
        { destruct (Hnb j') as [-> ?]; [by right|done|].
          rewrite decide_False by done. lia. }
        apply Hrest; congruence.
      * apply Hrest; congruence.
    + destruct (nearest_after (length l) omit it) as [j'|] eqn:Hj'.
      * destruct (decide (l !! j' = Some q)) as [Hjq'|Hjq'].
        { destruct (Hnb j') as [-> ?]; [by right|done|].
          rewrite decide_False by done. lia. }
        apply Hrest; congruence.
      * apply Hrest; congruence.
  - (* a point that the final store does not hold *)
    rewrite count_lms_absent by done.
    assert (∀ j, j ≠ omit → l !! j ≠ Some q) as Hnot.
    { intros j Hj Hjq. apply Hq. apply list_elem_of_lookup.
      exists (shift omit j). subst l'. by rewrite delete_lookup_shift. }
    assert (count mx q + (if decide (q = x) then Nat.b2n bT else 0)
            - (if decide (h = Some q) then 1 else 0) = 0) as Hrest.
    { assert (count mx q - (if decide (h = Some q) then 1 else 0) = 0) as Hc.
      { destruct (decide (l !! omit = Some q)) as [Hy|Hy].
        - rewrite Hh1 by done. specialize (Hle q).
          repeat case_decide; simplify_eq; lia.
        - rewrite Hout; [lia|]. intros (j & Hjq)%list_elem_of_lookup.
          destruct (decide (j = omit)) as [->|]; [done|]. by eapply Hnot. }
      destruct (decide (q = x)) as [->|]; [|lia].
      assert (omit = it) as Heq.
      { destruct (decide (omit = it)); [done|]. by destruct (Hnot it). }
      subst bT. unfold local_max_omit. rewrite Hx.
      rewrite bool_decide_eq_false_2 by lia. simpl. lia. }
    destruct (nearest_before omit it) as [j|] eqn:Hj.
    + destruct (Hb j eq_refl) as (? & ? & _).
      rewrite decide_False by (by apply Hnot).
      destruct (nearest_after (length l) omit it) as [j'|] eqn:Hj'; [|done].
      destruct (Ha j' eq_refl) as (? & ? & _).
      by rewrite decide_False by (by apply Hnot).
    + destruct (nearest_after (length l) omit it) as [j'|] eqn:Hj'; [|done].
      destruct (Ha j' eq_refl) as (? & ? & _).
      by rewrite decide_False by (by apply Hnot).
Qed.

(** *** Calls that cannot throw *)

Lemma wp_call_no_faults {X} (m : M X) fm Q :
  wp m Q (λ e _, ∃ k, e = Failure k) (mk_frame fm [] 0) →
  ∃ x s', call m fm no_faults = (Ret x, self s') ∧ Q x s'.
Proof.
  intros Hm. pose proof (wp_call m fm no_faults _ _ Hm) as Hc.
  destruct (call m fm no_faults) as [[x|e|] fm']; [| |done].
  - destruct Hc as (s' & <- & HQ). by exists x, s'.
  - destruct Hc as [(s' & _ & k & ->) Hk]. by destruct (Hk k).
Qed.

Lemma local_maximum_at_spec fm i :
  i < length (function fm) →
  local_maximum_at fm i = local_max_omit (function fm) i (length (function fm)).
Proof.
  intros Hi. unfold local_maximum_at.
  destruct (wp_call_no_faults (is_local_maximum i (length (function fm))) fm
    (λ b _, b = local_max_omit (function fm) i (length (function fm))))
    as (b & s' & -> & ->); [|done].
  apply wp_is_local_maximum; [done..|]. by exists Compare.
Qed.

Lemma select_ext f g i l :
  (∀ k, k < length l → f (i + k) = g (i + k)) → select f i l = select g i l.
Proof.
  revert i. induction l as [|p l IH]; intros i Hfg; simpl; [done|].
  rewrite <-(Nat.add_0_r i) at 1 3. rewrite (Hfg 0) by (simpl; lia).
  rewrite Nat.add_0_r. rewrite (IH (S i)); [done|].
  intros k Hk. replace (S i + k) with (i + S k) by lia. apply Hfg. simpl. lia.
Qed.

Lemma local_maxima_lms fm : local_maxima fm = lms (function fm).
Proof.
  unfold local_maxima, lms. apply select_ext. intros k Hk.
  by apply local_maximum_at_spec.
Qed.

Lemma invariant_count fm :
  invariant fm ↔
  StronglySorted arg_lt (function fm)
  ∧ StronglySorted mx_le (maxima fm)
  ∧ ∀ q, count (maxima fm) q = count (lms (function fm)) q.
Proof. unfold invariant. by rewrite local_maxima_lms, count_perm. Qed.

(** *** Positions away from the change *)

Lemma local_max_omit_far l k omit :
  k < length l →
  length l ≤ omit ∨ (omit ≠ k ∧ omit ≠ S k ∧ S omit ≠ k) →
  local_max_omit l k omit = local_max_omit l k (length l).
Proof.
  intros Hk Hfar. destruct (lookup_lt_is_Some_2 l k Hk) as [x Hx].
  destruct Hfar as [Hge|(H1 & H2 & H3)].
  { by rewrite !(local_max_omit_end l k x) by (done || lia). }
  unfold local_max_omit. rewrite Hx.
  rewrite !bool_decide_eq_true_2 by lia.
  rewrite !nearest_before_unfold, !nearest_after_unfold.
  destruct k as [|j].
  - repeat case_decide; try lia; done.
  - repeat case_decide; try lia; done.
Qed.

Lemma fn_insert_length i p l : length (fn_insert i p l) = S (length l).
Proof.
  unfold fn_insert. rewrite length_app. simpl.
  rewrite length_take, length_drop. lia.
Qed.

Lemma fn_insert_lookup_lt i p l k : k < i → i ≤ length l → fn_insert i p l !! k = l !! k.
Proof.
  intros Hk Hi. unfold fn_insert.
  rewrite lookup_app_l by (rewrite length_take; lia). by apply lookup_take_lt.
Qed.

Lemma fn_insert_lookup_eq i p l : i ≤ length l → fn_insert i p l !! i = Some p.
Proof.
  intros Hi. unfold fn_insert.
  rewrite lookup_app_r by (rewrite length_take; lia).
  rewrite length_take. by replace (i - i `min` length l) with 0 by lia.
Qed.

Lemma fn_insert_lookup_gt i p l k :
  i ≤ length l → fn_insert i p l !! S (i + k) = l !! (i + k).
Proof.
  intros Hi. unfold fn_insert.
  rewrite lookup_app_r by (rewrite length_take; lia).
  rewrite length_take. replace (S (i + k) - i `min` length l) with (S k) by lia.
  simpl. by rewrite lookup_drop.
Qed.

Lemma fn_insert_lookup i p l k :
  i ≤ length l →
  fn_insert i p l !! k =
  if decide (k < i) then l !! k
  else if decide (k = i) then Some p else l !! (k - 1).
Proof.
  intros Hi. repeat case_decide.
  - by apply fn_insert_lookup_lt.
  - subst. by apply fn_insert_lookup_eq.
  - replace k with (S (i + (k - i - 1))) at 1 by lia.
    rewrite fn_insert_lookup_gt by done. f_equal. lia.
Qed.

Lemma fn_erase_insert i p l : i ≤ length l → fn_erase i (fn_insert i p l) = l.
Proof.
  intros Hi. unfold fn_erase, fn_insert.
  rewrite <-(length_take_le l i) at 1 by done.
  by rewrite delete_middle, take_drop.
Qed.

Lemma fn_insert_away i p l k omit :
  i ≤ length l → k ≠ i → k < S (length l) →
  S (length l) ≤ omit ∨ (omit ≠ k ∧ omit ≠ S k ∧ S omit ≠ k) →
  S k ≠ i → k ≠ S i →
  local_max_omit (fn_insert i p l) k omit =
  local_max_omit l (if decide (k < i) then k else k - 1) (length l).
Proof.
  intros Hi Hki Hk Hfar H4 H5.
  rewrite local_max_omit_far by (rewrite ?fn_insert_length; done || lia).
  rewrite fn_insert_length.
  destruct (fn_insert i p l !! k) as [x|] eqn:Hx.
  2:{ apply lookup_ge_None in Hx. rewrite fn_insert_length in Hx. lia. }
  rewrite (local_max_omit_end _ k x) by (rewrite ?fn_insert_length; done || lia).
  rewrite fn_insert_lookup in Hx by done.
  rewrite (fn_insert_lookup _ _ _ (S k)) by done.
  destruct (decide (k < i)).
  - rewrite (local_max_omit_end _ k x) by (done || lia).
    rewrite (decide_True (P:=S k < i)) by lia. f_equal.
    destruct k as [|j]; [done|]. simpl. by rewrite fn_insert_lookup_lt by lia.
  - rewrite (decide_False (P:=k = i)) in Hx by lia.
    rewrite (local_max_omit_end _ (k - 1) x) by (done || lia).
    rewrite (decide_False (P:=S k < i)) by lia.
    rewrite (decide_False (P:=S k = i)) by lia.
    destruct k as [|j]; [lia|]. simpl. replace (j - 0) with j by lia.
    f_equal. rewrite fn_insert_lookup by done.
    rewrite (decide_False (P:=j < i)) by lia.
    rewrite (decide_False (P:=j = i)) by lia.
    destruct j as [|j']; [lia|]. simpl. by replace (j' - 0) with j' by lia.
Qed.

(** *** The function set stays sorted *)

Lemma fn_take_drop_sorted l i j p :
  StronglySorted arg_lt l → i ≤ j →
  (∀ k q, k < i → l !! k = Some q → less (arg q) (arg p) = true) →
  (∀ k q, j ≤ k → l !! k = Some q → less (arg p) (arg q) = true) →
  StronglySorted arg_lt (take i l ++ p :: drop j l).
Proof.
  intros Hl Hij Hlt Hgt. apply StronglySorted_app_2.
  - intros x y [k [Hx Hk]]%elem_of_take [->|Hy]%elem_of_cons.
    + by eapply Hlt.
    + apply list_elem_of_lookup in Hy as [k' Hy]. rewrite lookup_drop in Hy.
      eapply (fn_sorted_lookup l k (j + k')); [done|lia|done..].
  - eapply StronglySorted_sublist; [apply sublist_take|done].
  - apply StronglySorted_cons. split.
    + apply Forall_forall. intros y [k Hy]%list_elem_of_lookup.
      rewrite lookup_drop in Hy. eapply Hgt; [|done]. lia.
    + eapply StronglySorted_sublist; [apply sublist_drop|done].
Qed.

Lemma fn_lower_bound_after a l k q :
  StronglySorted arg_lt l → fn_lower_bound a l ≤ k → l !! k = Some q →
  (∀ p, l !! fn_lower_bound a l = Some p → less a (arg p) = true ∨ arg p = a) →
  fn_lower_bound a l < k ∨ (∀ p, l !! fn_lower_bound a l = Some p → arg p ≠ a) →
  less a (arg q) = true.
Proof.
  intros Hl Hk Hq Hat Hcase.
  destruct (lookup_lt_is_Some_2 l (fn_lower_bound a l)) as [p Hp].
  { apply lookup_lt_Some in Hq. lia. }
  destruct (decide (fn_lower_bound a l = k)) as [Heq|Hne].
  - rewrite Heq in Hp. assert (p = q) as -> by congruence.
    destruct Hcase as [?|Hcase]; [lia|]. rewrite <-Heq in Hq.
    destruct (Hat q Hq); [done|]. by destruct (Hcase q Hq).
  - assert (fn_lower_bound a l < k) as Hlt by lia.
    pose proof (fn_sorted_lookup l _ k p q Hl Hlt Hp Hq) as Hpq.
    destruct (Hat p Hp) as [Hap|<-]; [by eapply less_trans|done].
Qed.

Lemma fn_lower_bound_at_cases a l p :
  l !! fn_lower_bound a l = Some p → less a (arg p) = true ∨ arg p = a.
Proof.
  intros Hp%fn_lower_bound_at. apply less_false in Hp as [?|?]; auto.
Qed.

(** *** The three ways a call changes the store *)

Lemma maintained it omit s x :
  let l := function (self s) in
  let mx := maxima (self s) in
  let l' := delete omit l in
  let h := l !! omit ≫= λ y, mx_find y mx in
  StronglySorted mx_le mx →
  StronglySorted arg_lt l' →
  l !! it = Some x →
  (omit = it ∨ omit = S it ∨ length l ≤ omit) →
  (∀ q, count mx q ≤ 1) →
  (∀ k q, l !! k = Some q → k ≠ omit → k ≠ it →
     nearest_before omit it ≠ Some k →
     nearest_after (length l) omit it ≠ Some k →
     count mx q = Nat.b2n (local_max_omit l k omit)) →
  (∀ q, q ∉ l → count mx q = 0) →
  (it ≠ omit → l !! omit ≠ Some x → count mx x = 0) →
  (∀ y, l !! omit = Some y → omit = it ∨ y ≠ x → y ∉ l') →
  invariant (mk_fm l' (maxima (self (unlink h (updated it omit s))))).
Proof.
  intros l mx l' h Hs Hl' Hx Ho Hle Haway Hout Hnew Hgone.
  apply invariant_count. simpl. split_and!; [done| |].
  - by apply unlink_maxima_sorted, updated_sorted.
  - eapply maintenance; eauto using fn_sorted_NoDup.
Qed.

Lemma invariant_count_le fm q : invariant fm → count (maxima fm) q ≤ 1.
Proof.
  intros (Hl & _ & Hc)%invariant_count. rewrite Hc.
  by apply count_NoDup, lms_NoDup, fn_sorted_NoDup.
Qed.

Lemma invariant_count_absent fm q :
  invariant fm → q ∉ function fm → count (maxima fm) q = 0.
Proof.
  intros (Hl & _ & Hc)%invariant_count Hq. rewrite Hc.
  by apply count_lms_absent.
Qed.

Lemma invariant_count_at fm k q :
  invariant fm → function fm !! k = Some q →
  count (maxima fm) q =
  Nat.b2n (local_max_omit (function fm) k (length (function fm))).
Proof.
  intros (Hl & _ & Hc)%invariant_count Hq. rewrite Hc.
  apply count_lms_at; [by apply fn_sorted_NoDup|done].
Qed.

Lemma erase_invariant s i x :
  invariant (self s) → function (self s) !! i = Some x →
  invariant (mk_fm (fn_erase i (function (self s)))
    (maxima (self (unlink (mx_find x (maxima (self s))) (updated i i s))))).
Proof.
  intros Hinv Hx. pose proof Hinv as (Hl & Hmx & _)%invariant_count.
  pose proof (lookup_lt_Some _ _ _ Hx) as Hi.
  pose proof (fn_sorted_NoDup _ Hl) as Hnd.
  pose proof (maintained i i s x) as Hm. cbv zeta in Hm. rewrite Hx in Hm.
  apply Hm; clear Hm; [done| |done|by left|..].
  - eapply StronglySorted_sublist; [apply sublist_delete|done].
  - intros q. by apply invariant_count_le.
  - intros k q Hq Hki _ Hb Ha.
    rewrite (invariant_count_at _ k q) by done. f_equal. symmetry.
    apply lookup_lt_Some in Hq as Hk.
    apply local_max_omit_far; [done|]. right.
    rewrite nearest_before_unfold in Hb. rewrite nearest_after_unfold in Ha.
    split_and!; [done| |].
    + destruct i as [|i']; [done|]. rewrite decide_True in Hb by lia. naive_solver.
    + destruct (decide (S i < length (function (self s)))); [|lia].
      rewrite decide_True in Ha by lia. congruence.
  - intros q. by apply invariant_count_absent.
  - done.
  - intros y [= <-] _ (k' & Hk')%list_elem_of_lookup.
    apply delete_lookup_unshift in Hk' as (k & Hk & Hne & _).
    destruct Hne. by eapply NoDup_lookup.
Qed.


Lemma fn_insert_elem_of i p l q : i ≤ length l → q ∈ l → q ∈ fn_insert i p l.
Proof.
  intros Hi Hq. unfold fn_insert. rewrite <-(take_drop i l) in Hq.
  set_solver.
Qed.

Lemma fn_insert_new_sorted a v l :
  StronglySorted arg_lt l →
  (∀ p, l !! fn_lower_bound a l = Some p → less a (arg p) = true) →
  StronglySorted arg_lt (fn_insert (fn_lower_bound a l) (mk_point a v) l).
Proof.
  intros Hl Hat. apply fn_take_drop_sorted; [done..| |].
  - intros k q Hk Hq. by eapply fn_lower_bound_before.
  - intros k q Hk Hq. simpl.
    apply (fn_lower_bound_after a l k q); [done|lia|done|auto|].
    right. intros p Hp Hpa. apply Hat in Hp. by rewrite Hpa, less_irrefl in Hp.
Qed.

Lemma fn_erase_insert_S i p l :
  i < length l → fn_erase (S i) (fn_insert i p l) = take i l ++ p :: drop (S i) l.
Proof.
  intros Hi. unfold fn_erase, fn_insert.
  destruct (lookup_lt_is_Some_2 l i Hi) as [y Hy].
  rewrite (drop_S l y i Hy).
  replace (take i l ++ p :: y :: drop (S i) l)
    with ((take i l ++ [p]) ++ y :: drop (S i) l) by (by rewrite <-app_assoc).
  assert (S i = length (take i l ++ [p])) as Hlen
    by (rewrite length_app, length_take; simpl; lia).
  rewrite Hlen at 1. by rewrite delete_middle, <-app_assoc.
Qed.

Lemma fn_insert_replace_sorted a v l old :
  StronglySorted arg_lt l →
  l !! fn_lower_bound a l = Some old → arg old = a →
  StronglySorted arg_lt
    (fn_erase (S (fn_lower_bound a l)) (fn_insert (fn_lower_bound a l) (mk_point a v) l)).
Proof.
  intros Hl Hold Ha. pose proof (lookup_lt_Some _ _ _ Hold) as Hi.
  rewrite fn_erase_insert_S by done.
  apply fn_take_drop_sorted; [done|lia| |].
  - intros k q Hk Hq. by eapply fn_lower_bound_before.
  - intros k q Hk Hq. simpl.
    apply (fn_lower_bound_after a l k q); [done|lia|done| |left; lia].
    intros p Hp. right. congruence.
Qed.

Lemma set_value_new_invariant fm s a v :
  let i := fn_lower_bound a (function fm) in
  invariant fm →
  function (self s) = fn_insert i (mk_point a v) (function fm) →
  maxima (self s) = maxima fm →
  (∀ p, function fm !! i = Some p → less a (arg p) = true) →
  invariant (mk_fm (function (self s))
                   (maxima (self (updated i (S (length (function fm))) s)))).
Proof.
  intros i Hinv Hf Hm Hat. pose proof Hinv as (Hl & Hmx & _)%invariant_count.
  pose proof (fn_lower_bound_le a (function fm)) as Hi. fold i in Hi.
  assert (length (function (self s)) = S (length (function fm))) as Hlen
    by (by rewrite Hf, fn_insert_length).
  pose proof (maintained i (S (length (function fm))) s (mk_point a v)) as Hmt.
  cbv zeta in Hmt.
  rewrite (lookup_ge_None_2 (function (self s)) (S _)) in Hmt by lia.
  rewrite delete_ge in Hmt by lia. simpl in Hmt.
  apply Hmt; clear Hmt.
  - by rewrite Hm.
  - rewrite Hf. by apply fn_insert_new_sorted.
  - rewrite Hf. by apply fn_insert_lookup_eq.
  - right; right. lia.
  - intros q. rewrite Hm. by apply invariant_count_le.
  - intros k q Hq Hko Hki Hb Ha. rewrite Hm.
    apply lookup_lt_Some in Hq as Hk. rewrite Hlen in Hk.
    rewrite nearest_before_unfold in Hb. rewrite nearest_after_unfold in Ha.
    rewrite Hf in Hq |- *. rewrite fn_insert_away; [|done|done|lia|by left|..].
    + rewrite fn_insert_lookup in Hq by done.
      rewrite (decide_False (P:=k = i)) in Hq by done.
      destruct (decide (k < i)); by apply invariant_count_at.
    + destruct i as [|i']; [done|]. rewrite decide_True in Hb by lia. congruence.
    + rewrite Hlen in Ha. intros ->.
      rewrite decide_True, decide_True in Ha by lia. done.
  - intros q Hq. rewrite Hm. apply invariant_count_absent; [done|].
    intros Hq'. apply Hq. rewrite Hf. by apply fn_insert_elem_of.
  - intros _ _. rewrite Hm. apply invariant_count_absent; [done|].
    intros (k & Hk)%list_elem_of_lookup.
    assert (fn_lower_bound a (function fm) = k) as Hik
      by (by eapply fn_lower_bound_found).
    fold i in Hik. subst k. apply Hat in Hk. simpl in Hk.
    by rewrite less_irrefl in Hk.
  - done.
Qed.

Lemma set_value_replace_invariant fm s a v old :
  let i := fn_lower_bound a (function fm) in
  invariant fm →
  function (self s) = fn_insert i (mk_point a v) (function fm) →
  maxima (self s) = maxima fm →
  function fm !! i = Some old → less a (arg old) = false →
  invariant (mk_fm (fn_erase (S i) (function (self s)))
    (maxima (self (unlink (mx_find old (maxima fm)) (updated i (S i) s))))).
Proof.
  intros i Hinv Hf Hm Hold Hlt. pose proof Hinv as (Hl & Hmx & _)%invariant_count.
  pose proof (lookup_lt_Some _ _ _ Hold) as Hi.
  pose proof (fn_sorted_NoDup _ Hl) as Hnd.
  assert (arg old = a) as Ha.
  { destruct (fn_lower_bound_at_cases a _ old Hold); [congruence|done]. }
  assert (length (function (self s)) = S (length (function fm))) as Hlen
    by (by rewrite Hf, fn_insert_length).
  assert (function (self s) !! S i = Some old) as Hold'.
  { rewrite Hf, fn_insert_lookup by lia.
    rewrite decide_False by lia. rewrite decide_False by lia.
    by replace (S i - 1) with i by lia. }
  pose proof (maintained i (S i) s (mk_point a v)) as Hmt.
  cbv zeta in Hmt. rewrite Hold' in Hmt. simpl in Hmt. rewrite Hm in Hmt.
  apply Hmt; clear Hmt.
  - done.
  - rewrite Hf. by eapply fn_insert_replace_sorted.
  - rewrite Hf. apply fn_insert_lookup_eq. lia.
  - right; left. done.
  - intros q. by apply invariant_count_le.
  - intros k q Hq Hko Hki Hb Hafter.
    apply lookup_lt_Some in Hq as Hk. rewrite Hlen in Hk.
    rewrite nearest_before_unfold in Hb. rewrite nearest_after_unfold in Hafter.
    rewrite Hlen in Hafter.
    rewrite (decide_True (P:=S i < _)) in Hafter by lia.
    rewrite (decide_False (P:=S i ≠ S i)) in Hafter by lia.
    rewrite Hf in Hq |- *. rewrite fn_insert_away; [|lia|done|lia| |..].
    + rewrite fn_insert_lookup in Hq by lia.
      rewrite (decide_False (P:=k = i)) in Hq by done.
      destruct (decide (k < i)); by apply invariant_count_at.
    + right. split_and!; [lia|lia|].
      intros <-. by rewrite decide_True in Hafter by lia.
    + destruct i as [|i']; [done|]. rewrite decide_True in Hb by lia. congruence.
    + done.
  - intros q Hq. apply invariant_count_absent; [done|].
    intros Hq'. apply Hq. rewrite Hf. apply fn_insert_elem_of; [lia|done].
  - intros _ Hne. apply invariant_count_absent; [done|].
    intros (k & Hk)%list_elem_of_lookup.
    assert (fn_lower_bound a (function fm) = k) as Hik
      by (by eapply fn_lower_bound_found).
    fold i in Hik. subst k. congruence.
  - intros y [= <-] [?|Hne]; [lia|].
    rewrite Hf. change (delete (S i) ?l) with (fn_erase (S i) l).
    rewrite fn_erase_insert_S by done.
    intros [Hin|[?|Hin]%elem_of_cons]%elem_of_app; [|done|].
    + apply elem_of_take in Hin as (k & Hk & Hki).
      assert (k = i) by (by eapply NoDup_lookup). lia.
    + apply list_elem_of_lookup in Hin as [k Hk]. rewrite lookup_drop in Hk.
      assert (S i + k = i) by (by eapply NoDup_lookup). lia.
Qed.

(** *** Rolling back *)

Lemma registered_inv s s' :
  registered s s' →
  function (self s') = function (self s)
  ∧ it_local s' = it_local s
  ∧ (StronglySorted mx_le (maxima (self s)) →
     StronglySorted mx_le (maxima (self s')))
  ∧ ∃ ps, maxima_rollback s' = maxima_rollback s ++ (Some <$> ps)
          ∧ maxima (self s') ≡ₚ ps ++ maxima (self s).
Proof.
  induction 1 as [|b p s' _ (Hf & Hi & Hs & ps & Hr & Hp)].
  - split_and!; [done..|]. exists []. by rewrite app_nil_r.
  - rewrite register_function, register_it. split_and!; [done..| |].
    + intros ?. by apply register_maxima_sorted, Hs.
    + destruct b; simpl; [|by exists ps].
      exists (ps ++ [p]). rewrite Hr, fmap_app, app_assoc. split; [done|].
      rewrite mx_insert_perm, Hp, <-app_assoc. apply Permutation_middle.
Qed.

Lemma unwind_spec ps rest s :
  maxima (self s) ≡ₚ ps ++ rest →
  let s' := foldl (λ s i, unlink i s) s (Some <$> ps) in
  function (self s') = function (self s)
  ∧ it_local s' = it_local s
  ∧ maxima (self s') ≡ₚ rest
  ∧ (StronglySorted mx_le (maxima (self s)) →
     StronglySorted mx_le (maxima (self s'))).
Proof.
  revert s. induction ps as [|p ps IH]; intros s Hp; simpl; [done|].
  destruct (IH (unlink (Some p) s)) as (Hf & Hi & Hm & Hs).
  { simpl. eapply (Permutation_cons_inv (a:=p)).
    rewrite <-mx_erase_elem_of; [done|]. rewrite Hp. by left. }
  split_and!; [done..|]. intros ?. by apply Hs, unlink_maxima_sorted.
Qed.

(** Erasing what [update_maxima] has recorded gives back the maxima set. *)
Lemma rollback_restores s s' :
  registered s s' → maxima_rollback s = [] →
  StronglySorted mx_le (maxima (self s)) →
  let s'' := foldl (λ s i, unlink i s) s' (maxima_rollback s') in
  function (self s'') = function (self s)
  ∧ maxima (self s'') = maxima (self s)
  ∧ it_local s'' = it_local s.
Proof.
  intros (Hf & Hi & Hs & ps & Hr & Hp)%registered_inv Hnil Hsorted.
  rewrite Hnil in Hr. simpl in Hr. rewrite Hr.
  destruct (unwind_spec ps (maxima (self s)) s' Hp) as (Hf' & Hi' & Hm & Hs').
  split_and!; [congruence| |congruence].
  apply mx_sorted_unique; auto.
Qed.


(** *** The members [erase] and [set_value] *)

Lemma wp_declare_locals Q E s :
  Q tt (mk_frame (self s) [] (length (function (self s)))) →
  wp declare_locals Q E s.
Proof.
  intros HQ. unfold declare_locals. wp_step. apply wp_f_end. by wp_steps.
Qed.

Lemma wp_rollback (P : frame → frame) Q E s :
  Q tt (foldl (λ s i, unlink i s) s (maxima_rollback s)) →
  wp (r ← get_rollback; erase_each r) Q E s.
Proof. intros HQ. wp_steps. by apply wp_erase_each. Qed.

Lemma unlink_with_function i l s :
  self (unlink i (with_function l s))
  = mk_fm l (maxima (self (unlink i s))).
Proof. by destruct i. Qed.

Lemma fm_eq fm fm' :
  function fm = function fm' → maxima fm = maxima fm' → fm = fm'.
Proof. destruct fm, fm'; simpl; congruence. Qed.

(** [erase] keeps the invariant and erases the point found; when it
    throws, the growth of the vector apart, the object is as before. *)
Lemma wp_erase a fm :
  invariant fm →
  wp (erase a)
    (λ _ s', invariant (self s')
             ∧ function (self s')
               = fn_erase (fn_find a (function fm)) (function fm)
             ∧ (fn_find a (function fm) = length (function fm) → self s' = fm))
    (λ e s', (∃ k, e = Failure k) ∧ (e ≠ Failure Grow → self s' = fm))
    (mk_frame fm [] 0).
Proof.
  intros Hinv. pose proof Hinv as (Hl & Hmx & _)%invariant_count.
  unfold erase. wp_step. apply wp_declare_locals. simpl.
  set (s0 := mk_frame fm [] (length (function fm))).
  set (i := fn_find a (function fm)).
  wp_step. apply wp_try_catch.
  assert (∀ e s', (∃ k, e = Failure k) → registered s0 s' → e ≠ Failure Grow →
    wp (r ← get_rollback; erase_each r)
       (λ _ s'', (∃ k, e = Failure k) ∧ (e ≠ Failure Grow → self s'' = fm))
       (λ e s', (∃ k, e = Failure k) ∧ (e ≠ Failure Grow → self s' = fm)) s')
    as Hhandler.
  { intros e s' He Hreg Hne. apply (wp_rollback id). split; [done|]. intros _.
    destruct (rollback_restores s0 s' Hreg eq_refl Hmx) as (Hf & Hm & _).
    by apply fm_eq. }
  assert (∀ s',
    wp (r ← get_rollback; erase_each r)
       (λ _ s'', (∃ k, Failure Grow = Failure k)
                 ∧ (Failure Grow ≠ Failure Grow → self s'' = fm))
       (λ e s', (∃ k, e = Failure k) ∧ (e ≠ Failure Grow → self s' = fm)) s')
    as Hgrow.
  { intros s'. apply (wp_rollback id). split; [by eexists|done]. }
  wp_step. apply wp_function_find;
    [|by apply Hhandler; [eexists|constructor|]].
  fold i. wp_step. apply wp_f_end. simpl. fold i.
  destruct (decide (i = length (function fm))) as [Hi|Hi].
  { wp_step. simpl. wp_step. split_and!; [done| |done].
    unfold fn_erase. by rewrite Hi, delete_ge. }
  destruct (fn_find_lt a (function fm)) as (x & Hx & Hxa).
  { pose proof (fn_find_le a (function fm)). fold i. lia. }
  fold i in Hx. pose proof (lookup_lt_Some _ _ _ Hx) as Hlt.
  wp_step. eapply wp_deref; [done|].
  wp_step. apply wp_maxima_find;
    [|by apply Hhandler; [eexists|constructor|]].
  wp_step. apply wp_update_maxima; [done| | |done].
  - wp_steps. apply wp_function_erase. apply wp_unlink.
    rewrite unlink_with_function, updated_function. simpl.
    split_and!; [|done|done]. by apply (erase_invariant s0 i x).
  - intros k s' Hne Hreg. apply Hhandler; [by eexists|done|congruence].
Qed.


Lemma wp_set_value_handler Q E s :
  (let s1 := foldl (λ s i, unlink i s) s (maxima_rollback s) in
   Q tt (if decide (it_local s1 ≠ length (function (self s1)))
         then with_function (fn_erase (it_local s1) (function (self s1))) s1
         else s1)) →
  wp (r ← get_rollback; erase_each r;;
      it ← get_it; e ← f_end;
      if decide (it ≠ e) then function_erase it else mret tt) Q E s.
Proof.
  intros HQ. cbv zeta in HQ. wp_steps. apply wp_erase_each.
  wp_steps. apply wp_f_end. cbv beta.
  destruct (decide (it_local _ ≠ _)).
  - by apply wp_function_erase.
  - by wp_step.
Qed.

(** [set_value] keeps the invariant and puts the point into the store;
    when it throws, the growth of the vector apart, the object is as
    before. *)
Lemma wp_set_value a v fm :
  invariant fm →
  wp (set_value a v)
    (λ _ s', invariant (self s')
             ∧ function (self s') = fn_put a v (function fm))
    (λ e s', (∃ k, e = Failure k) ∧ (e ≠ Failure Grow → self s' = fm))
    (mk_frame fm [] 0).
Proof.
  intros Hinv. pose proof Hinv as (Hl & Hmx & _)%invariant_count.
  unfold set_value. wp_step. apply wp_declare_locals. simpl.
  set (s0 := mk_frame fm [] (length (function fm))).
  set (i := fn_lower_bound a (function fm)).
  set (new := mk_point a v).
  pose proof (fn_lower_bound_le a (function fm)) as Hi. fold i in Hi.
  set (s_ins := mk_frame (mk_fm (fn_insert i new (function fm)) (maxima fm)) [] i).
  set (E := λ (e : exn) (s' : frame),
              (∃ k, e = Failure k) ∧ (e ≠ Failure Grow → self s' = fm)).
  wp_step. apply wp_try_catch.
  assert (∀ k, wp (r ← get_rollback; erase_each r;;
                   it ← get_it; e ← f_end;
                   if decide (it ≠ e) then function_erase it else mret tt)
                (λ _ s'', E (Failure k) s'') E s0) as Hbefore.
  { intros k. apply wp_set_value_handler. simpl.
    rewrite decide_False by lia. split; [by eexists|done]. }
  assert (∀ k s', k ≠ Grow → registered s_ins s' →
    wp (r ← get_rollback; erase_each r;;
        it ← get_it; e ← f_end;
        if decide (it ≠ e) then function_erase it else mret tt)
       (λ _ s'', E (Failure k) s'') E s') as Hafter.
  { intros k s' Hk Hreg. apply wp_set_value_handler.
    destruct (rollback_restores s_ins s' Hreg eq_refl Hmx) as (Hf & Hm & Hit).
    cbv zeta in *. rewrite Hf, Hit. simpl. rewrite fn_insert_length.
    rewrite decide_True by lia. split; [by eexists|]. intros _.
    apply fm_eq; simpl; [by apply fn_erase_insert|done]. }
  assert (∀ s',
    wp (r ← get_rollback; erase_each r;;
        it ← get_it; e ← f_end;
        if decide (it ≠ e) then function_erase it else mret tt)
       (λ _ s'', E (Failure Grow) s'') E s') as Hgrow.
  { intros s'. apply wp_set_value_handler. cbv zeta.
    destruct (decide _); (split; [by eexists|done]). }
  wp_step. apply wp_new_point; [|done].
  wp_step. apply wp_function_lower_bound; [|done]. fold i.
  wp_step. apply wp_f_end. cbv beta.
  wp_step.
  set (prev_max_it := function fm !! i ≫= λ p, mx_find p (maxima fm)).
  assert (wp (if decide (i ≠ length (function (self s0)))
              then p ← deref i; maxima_find p else mret mx_end)
            (λ r s', r = prev_max_it ∧ s' = s0)
            (λ e s', wp (r ← get_rollback; erase_each r;;
                         it ← get_it; e ← f_end;
                         if decide (it ≠ e) then function_erase it else mret tt)
                        (λ _ s'', E e s'') E s') s0) as Hprev.
  { subst prev_max_it. simpl. destruct (decide (i ≠ length (function fm))).
    - destruct (lookup_lt_is_Some_2 (function fm) i) as [p Hp]; [lia|].
      rewrite Hp. wp_step. eapply wp_deref; [done|].
      by apply wp_maxima_find.
    - rewrite lookup_ge_None_2 by lia. by wp_step. }
  eapply wp_mono; [exact Hprev| |done]. intros ?? [-> ->]. clear Hprev.
  wp_step. apply wp_function_insert; [|done..].
  wp_steps. apply wp_f_end. simpl. rewrite fn_insert_length. fold i new s_ins.
  change (with_it i (with_function (fn_insert i new (function fm)) s0)) with s_ins.
  assert (function (self s_ins) !! i = Some new) as Hnew
    by (by apply fn_insert_lookup_eq).
  assert (i < length (function (self s_ins))) as Hlt
    by (simpl; rewrite fn_insert_length; lia).
  wp_step.
  destruct (function fm !! i) as [old|] eqn:Hold.
  - (* a point at the lower bound *)
    pose proof (lookup_lt_Some _ _ _ Hold) as Hin.
    assert (function (self s_ins) !! S i = Some old) as Hold'.
    { simpl. rewrite fn_insert_lookup by lia.
      rewrite decide_False by lia. rewrite decide_False by lia.
      by replace (S i - 1) with i by lia. }
    rewrite decide_True by lia.
    wp_step. eapply wp_deref; [done|]. wp_step. eapply wp_deref; [done|].
    wp_step. apply wp_less_A; [|by apply Hafter; [|constructor]].
    wp_step. simpl. wp_step.
    destruct (less a (arg old)) eqn:Hlta; simpl.
    + (* with a greater argument: the new point is linked in *)
      apply wp_update_maxima; [done| |by auto|done].
      wp_step. simpl. wp_step. split.
      * replace (self (updated i _ s_ins)) with
          (mk_fm (function (self s_ins))
                 (maxima (self (updated i (S (length (function fm))) s_ins))))
          by (apply fm_eq; simpl; [by rewrite updated_function|done]).
        apply (set_value_new_invariant fm s_ins a v); [done..|].
        fold i. intros p. rewrite Hold. by intros [= <-].
      * rewrite updated_function. unfold fn_put. cbv zeta. fold i. rewrite Hold.
        unfold comp_by_arg_ap. by rewrite Hlta.
    + (* with the same argument: the new point replaces it *)
      apply wp_update_maxima; [done| |by auto|done].
      wp_step. simpl. wp_step. apply wp_unlink. apply wp_function_erase.
      subst prev_max_it. cbn [mbind option_bind].
      change (self (with_function ?l ?s)) with (mk_fm l (maxima (self s))).
      rewrite unlink_function, updated_function.
      split.
      * by apply (set_value_replace_invariant fm s_ins a v old).
      * unfold fn_put. cbv zeta. fold i. rewrite Hold.
        unfold comp_by_arg_ap. by rewrite Hlta.
  - (* no point at the lower bound *)
    apply lookup_ge_None in Hold. assert (i = length (function fm)) as Hin by lia.
    rewrite decide_False by lia. wp_step. simpl. wp_step.
    apply wp_update_maxima; [done| |by auto|done].
    wp_step. simpl. wp_step. split.
    + replace (self (updated i _ s_ins)) with
        (mk_fm (function (self s_ins))
               (maxima (self (updated i (S (length (function fm))) s_ins))))
        by (apply fm_eq; simpl; [by rewrite updated_function|done]).
      apply (set_value_new_invariant fm s_ins a v); [done..|].
      fold i. intros p Hp%lookup_lt_Some. lia.
    + rewrite updated_function. unfold fn_put. cbv zeta. fold i.
      by rewrite (lookup_ge_None_2 (function fm) i) by lia.
Qed.

(** *** Lookup *)

Lemma in_domain_lookup a fm :
  in_domain a fm ↔ ∃ i p, function fm !! i = Some p ∧ arg p = a.
Proof.
  unfold in_domain. rewrite list_elem_of_fmap. split.
  - intros (p & -> & (i & Hi)%list_elem_of_lookup). by exists i, p.
  - intros (i & p & Hp & <-). exists p. split; [done|].
    by eapply list_elem_of_lookup_2.
Qed.

Lemma fn_find_in_domain a fm :
  StronglySorted arg_lt (function fm) →
  in_domain a fm ↔ fn_find a (function fm) ≠ length (function fm).
Proof.
  intros Hl. split.
  - intros (i & p & Hp & Ha)%in_domain_lookup.
    rewrite (fn_find_found a _ i p) by done. apply lookup_lt_Some in Hp. lia.
  - intros Hne. destruct (fn_find_lt a (function fm)) as (p & Hp & Ha).
    { pose proof (fn_find_le a (function fm)). lia. }
    apply in_domain_lookup. eauto.
Qed.

(** [value_at] leaves the frame as it is; it returns the value of the point
    with argument [a], throws [InvalidArg] when there is none, and fails
    only in the comparisons of the lookup. *)
Lemma wp_value_at a fm :
  StronglySorted arg_lt (function fm) →
  wp (value_at a)
    (λ v s', self s' = fm ∧ mk_point a v ∈ function fm)
    (λ e s', self s' = fm
             ∧ (e = InvalidArg ∧ ¬ in_domain a fm ∨ e = Failure Compare))
    (mk_frame fm [] 0).
Proof.
  intros Hl. unfold value_at.
  wp_step. apply wp_function_find; [|by auto].
  wp_step. apply wp_f_end. simpl.
  destruct (decide (fn_find a (function fm) = length (function fm))) as [Hi|Hi].
  - apply wp_throw; [intros k; discriminate|]. split; [done|]. left. split; [done|].
    rewrite fn_find_in_domain by done. tauto.
  - destruct (fn_find_lt a (function fm)) as (p & Hp & Ha).
    { pose proof (fn_find_le a (function fm)). lia. }
    wp_step. eapply wp_deref; [done|]. wp_step. split; [done|].
    destruct p as [a' v']. simpl in *. subst a'.
    by eapply list_elem_of_lookup_2.
Qed.

Lemma fn_sorted_value_unique l a v v' :
  StronglySorted arg_lt l → mk_point a v ∈ l → mk_point a v' ∈ l → v = v'.
Proof.
  intros Hl (i & Hi)%list_elem_of_lookup (j & Hj)%list_elem_of_lookup.
  assert (i = j) by (by eapply fn_sorted_lookup_inj). congruence.
Qed.

(** *** The store after [set_value] *)

Lemma fn_put_cases a v l :
  StronglySorted arg_lt l →
  let i := fn_lower_bound a l in
  ((a ∉ arg <$> l) ∧ fn_put a v l = take i l ++ mk_point a v :: drop i l)
  ∨ (∃ old, l !! i = Some old ∧ arg old = a
            ∧ fn_put a v l = take i l ++ mk_point a v :: drop (S i) l).
Proof.
  intros Hl i. unfold fn_put. cbv zeta. fold i.
  destruct (l !! i) as [old|] eqn:Hold.
  - unfold comp_by_arg_ap. destruct (less a (arg old)) eqn:Hlt.
    + left. split; [|done]. intros (p & Ha & (j & Hj)%list_elem_of_lookup)%list_elem_of_fmap.
      assert (fn_lower_bound a l = j) as Hij by (by eapply fn_lower_bound_found).
      fold i in Hij. subst j. assert (p = old) as -> by congruence.
      by rewrite <-Ha, less_irrefl in Hlt.
    + right. exists old. split_and!; [done| |].
      * destruct (fn_lower_bound_at_cases a l old Hold); [congruence|done].
      * apply fn_erase_insert_S. by eapply lookup_lt_Some.
  - left. split; [|done]. intros (p & Ha & (j & Hj)%list_elem_of_lookup)%list_elem_of_fmap.
    assert (fn_lower_bound a l = j) as Hij by (by eapply fn_lower_bound_found).
    fold i in Hij. subst j. congruence.
Qed.

Lemma fn_put_elem_of a v l q :
  StronglySorted arg_lt l →
  q ∈ fn_put a v l ↔ q = mk_point a v ∨ (q ∈ l ∧ arg q ≠ a).
Proof.
  intros Hl. pose proof (fn_sorted_NoDup l Hl) as Hnd.
  destruct (fn_put_cases a v l Hl) as [[Ha ->]|(old & Hold & Ha & ->)];
    cbv zeta.
  - rewrite elem_of_app, elem_of_cons.
    assert (q ∈ l ↔ q ∈ take (fn_lower_bound a l) l ∨ q ∈ drop (fn_lower_bound a l) l)
      as Hsplit by (by rewrite <-elem_of_app, take_drop).
    assert (q ∈ l → arg q ≠ a).
    { intros Hq <-. apply Ha. by apply list_elem_of_fmap_2. }
    rewrite Hsplit in *. tauto.
  - rewrite elem_of_app, elem_of_cons.
    assert (q ∈ l ↔ q ∈ take (fn_lower_bound a l) l
                    ∨ q = old ∨ q ∈ drop (S (fn_lower_bound a l)) l) as Hsplit.
    { rewrite <-elem_of_cons, <-(drop_S l old _ Hold), <-elem_of_app.
      by rewrite take_drop. }
    rewrite Hsplit.
    split.
    + intros [Hq|[->|Hq]]; [|by left|].
      * right. split; [by left|].
        apply elem_of_take in Hq as (k & Hk & Hlt). intros Hqa.
        pose proof (fn_lower_bound_before a l k q Hlt Hk) as Hless.
        by rewrite Hqa, less_irrefl in Hless.
      * right. split; [by right; right|].
        apply list_elem_of_lookup in Hq as [k Hk]. rewrite lookup_drop in Hk.
        intros Hqa.
        assert (fn_lower_bound a l = S (fn_lower_bound a l) + k)
          by (eapply fn_sorted_lookup_inj; [done..|congruence]). lia.
    + intros [->|[[Hq|[->|Hq]] Hqa]]; [by right; left|by left|done|by right; right].
Qed.

Lemma fn_put_length a v l :
  StronglySorted arg_lt l →
  length (fn_put a v l) = if decide (a ∈ arg <$> l) then length l else S (length l).
Proof.
  intros Hl. pose proof (fn_lower_bound_le a l) as Hi.
  destruct (fn_put_cases a v l Hl) as [[Ha ->]|(old & Hold & Ha & ->)];
    cbv zeta.
  - rewrite decide_False by done.
    rewrite length_app, length_take. simpl. rewrite length_drop. lia.
  - rewrite decide_True.
    + apply lookup_lt_Some in Hold.
      rewrite length_app, length_take. simpl. rewrite length_drop. lia.
    + apply list_elem_of_fmap. exists old. split; [done|].
      by eapply list_elem_of_lookup_2.
Qed.

(** *** Intact objects satisfy the invariant *)

Lemma invariant_empty : invariant (empty (A:=A) (V:=V)).
Proof.
  unfold invariant, local_maxima. simpl. split_and!; constructor.
Qed.

Lemma call_set_value a v fm pl r fm' :
  invariant fm → call (set_value a v) fm pl = (r, fm') →
  match r with
  | Ret _ => invariant fm' ∧ function fm' = fn_put a v (function fm)
  | Throw e => (∃ k, e = Failure k ∧ pl k ≠ None) ∧ (e ≠ Failure Grow → fm' = fm)
  | Undefined => False
  end.
Proof.
  intros Hinv Hcall.
  pose proof (wp_call _ fm pl _ _ (wp_set_value a v fm Hinv)) as Hwp.
  rewrite Hcall in Hwp. destruct r as [[]|e|]; [| |done].
  - by destruct Hwp as (s' & <- & ?).
  - destruct Hwp as [(s' & <- & (k & ->) & Hs) Hk]. split; [|done].
    exists k. split; [done|]. by apply Hk.
Qed.

Lemma call_erase a fm pl r fm' :
  invariant fm → call (erase a) fm pl = (r, fm') →
  match r with
  | Ret _ =>
      invariant fm'
      ∧ function fm' = fn_erase (fn_find a (function fm)) (function fm)
      ∧ (¬ in_domain a fm → fm' = fm)
  | Throw e => (∃ k, e = Failure k ∧ pl k ≠ None) ∧ (e ≠ Failure Grow → fm' = fm)
  | Undefined => False
  end.
Proof.
  intros Hinv Hcall.
  pose proof (wp_call _ fm pl _ _ (wp_erase a fm Hinv)) as Hwp.
  rewrite Hcall in Hwp. destruct r as [[]|e|]; [| |done].
  - destruct Hwp as (s' & <- & ? & ? & Habs). split_and!; [done..|].
    intros Ha. apply Habs. destruct Hinv as (Hl & _).
    rewrite fn_find_in_domain in Ha by done.
    by destruct (decide (fn_find a (function fm) = length (function fm))).
  - destruct Hwp as [(s' & <- & (k & ->) & Hs) Hk]. split; [|done].
    exists k. split; [done|]. by apply Hk.
Qed.

Lemma intact_invariant fm : intact fm → invariant fm.
Proof.
  induction 1 as [|fm a v pl r fm' _ IH Hcall Hr|fm a pl r fm' _ IH Hcall Hr].
  - apply invariant_empty.
  - apply call_set_value in Hcall; [|done]. destruct r as [[]|e|]; [| |done].
    + by destruct Hcall.
    + destruct Hcall as [_ Hfm]. rewrite Hfm; [done|]. intros ->. by apply Hr.
  - apply call_erase in Hcall; [|done]. destruct r as [[]|e|]; [| |done].
    + by destruct Hcall.
    + destruct Hcall as [_ Hfm]. rewrite Hfm; [done|]. intros ->. by apply Hr.
Qed.

(** *** What [value_at] computes *)

(** The lookup of [value_at] when its comparisons do not throw. *)
Lemma call_value_at a fm pl :
  call (value_at a) fm pl =
  match pl Compare with
  | Some 0 => (Throw (Failure Compare), fm)
  | _ =>
      (if decide (fn_find a (function fm) = length (function fm))
       then Throw InvalidArg
       else match function fm !! fn_find a (function fm) with
            | Some p => Ret (value p)
            | None => Undefined
            end, fm)
  end.
Proof.
  unfold call, value_at, function_find, f_end, deref, get_function, tick, throw,
    mbind, mret, M_bind, M_ret. simpl.
  destruct (pl Compare) as [[|n]|]; simpl; [done|..];
    (destruct (decide _); simpl; [done|]);
    by destruct (function fm !! _).
Qed.

Lemma value_at_found a v fm pl :
  StronglySorted arg_lt (function fm) → mk_point a v ∈ function fm →
  call (value_at a) fm pl =
  match pl Compare with
  | Some 0 => (Throw (Failure Compare), fm)
  | _ => (Ret v, fm)
  end.
Proof.
  intros Hl (i & Hi)%list_elem_of_lookup. rewrite call_value_at.
  rewrite (fn_find_found a _ i (mk_point a v)) by done. rewrite Hi.
  apply lookup_lt_Some in Hi. rewrite decide_False by lia. done.
Qed.

Lemma value_at_absent a fm pl :
  StronglySorted arg_lt (function fm) → ¬ in_domain a fm →
  call (value_at a) fm pl =
  match pl Compare with
  | Some 0 => (Throw (Failure Compare), fm)
  | _ => (Throw InvalidArg, fm)
  end.
Proof.
  intros Hl Ha. rewrite call_value_at.
  rewrite fn_find_absent by done. by rewrite decide_True.
Qed.

Lemma in_domain_value a fm :
  in_domain a fm ↔ ∃ v, mk_point a v ∈ function fm.
Proof.
  unfold in_domain. rewrite list_elem_of_fmap. split.
  - intros ([a' v] & -> & ?). by exists v.
  - intros (v & ?). by exists (mk_point a v).
Qed.

(** *** Failures leave the object as it was *)

(** When a comparison or the allocation of a point or node throws in
    [set_value] or [erase], the object is the one before the call. *)
Lemma failure_atomicity fm pl e fm' :
  intact fm →
  (∃ a v, call (set_value a v) fm pl = (Throw e, fm'))
  ∨ (∃ a, call (erase a) fm pl = (Throw e, fm')) →
  e ≠ Failure Grow → fm' = fm.
Proof.
  intros Hinv%intact_invariant [(a & v & Hcall)|(a & Hcall)] He.
  - apply call_set_value in Hcall; [|done]. by apply Hcall.
  - apply call_erase in Hcall; [|done]. by apply Hcall.
Qed.

(** A call under a plan without faults returns. *)
Lemma no_faults_returns fm :
  intact fm →
  (∀ a v, ∃ fm', call (set_value a v) fm no_faults = (Ret tt, fm'))
  ∧ (∀ a, ∃ fm', call (erase a) fm no_faults = (Ret tt, fm')).
Proof.
  intros Hinv%intact_invariant. split.
  - intros a v. destruct (call (set_value a v) fm no_faults) as [r fm'] eqn:Hcall.
    apply call_set_value in Hcall as Hr; [|done].
    destruct r as [[]|e|]; [by eexists| |done].
    by destruct Hr as [(k & _ & ?) _].
  - intros a. destruct (call (erase a) fm no_faults) as [r fm'] eqn:Hcall.
    apply call_erase in Hcall as Hr; [|done].
    destruct r as [[]|e|]; [by eexists| |done].
    by destruct Hr as [(k & _ & ?) _].
Qed.



(** Calls of [set_value] in which nothing throws stay among the intact
    objects. *)
Lemma intact_run_set (avs : list (A * V)) fm :
  intact fm → intact (run_set avs fm).
Proof.
  revert fm. induction avs as [|[a v] avs IH]; intros fm Hfm; [done|].
  apply IH. simpl.
  destruct (no_faults_returns fm Hfm) as [Hset _].
  destruct (Hset a v) as [fm' Hcall]. rewrite Hcall. simpl.
  eapply intact_set_value; [done|exact Hcall|]. discriminate.
Qed.

(** *** The point store under any failure *)

Lemma neutral_ret {X} (x : X) : store_neutral (A:=A) (V:=V) (mret x).
Proof. by intros s pl. Qed.

Lemma neutral_bind {X Y} (m : M X) (k : X → M Y) :
  store_neutral (A:=A) (V:=V) m → (∀ x, store_neutral (A:=A) (V:=V) (k x)) →
  store_neutral (A:=A) (V:=V) (m ≫= k).
Proof.
  intros Hm Hk s pl. specialize (Hm s pl).
  unfold mbind, M_bind. destruct (m s pl) as [[[x|e|] s'] pl']; simpl in *;
    [|done..].
  by rewrite Hk.
Qed.

Lemma neutral_tick k : store_neutral (A:=A) (V:=V) (tick k).
Proof. intros s pl. unfold tick. by destruct (pl k) as [[|n]|]. Qed.

Lemma neutral_deref i : store_neutral (A:=A) (V:=V) (deref i).
Proof. intros s pl. unfold deref. by destruct (_ !! i). Qed.

Lemma neutral_get_function : store_neutral (A:=A) (V:=V) get_function.
Proof. by intros s pl. Qed.

Lemma neutral_get_maxima : store_neutral (A:=A) (V:=V) get_maxima.
Proof. by intros s pl. Qed.

Lemma neutral_get_rollback : store_neutral (A:=A) (V:=V) get_rollback.
Proof. by intros s pl. Qed.

Lemma neutral_get_it : store_neutral (A:=A) (V:=V) get_it.
Proof. by intros s pl. Qed.

Lemma neutral_put_maxima l : store_neutral (A:=A) (V:=V) (put_maxima l).
Proof. by intros s pl. Qed.

Lemma neutral_put_rollback r : store_neutral (A:=A) (V:=V) (put_rollback r).
Proof. by intros s pl. Qed.

Ltac neutral :=
  repeat first
    [ apply neutral_ret | apply neutral_tick | apply neutral_deref
    | apply neutral_get_function | apply neutral_get_maxima
    | apply neutral_get_rollback | apply neutral_get_it
    | apply neutral_put_maxima | apply neutral_put_rollback
    | match goal with
      | Hn : context [store_neutral _] |- store_neutral _ => solve [apply Hn]
      end
    | apply neutral_bind; [|intros ?]
    | match goal with
      | |- store_neutral (if decide ?P then _ else _) => destruct (decide P)
      | |- store_neutral (if ?b then _ else _) => destruct b
      | |- store_neutral (match ?o with Some _ => _ | None => _ end) =>
          destruct o
      | |- context [if decide ?P then (false, _) else _] =>
          destruct (decide P); cbv beta iota
      end ].

Lemma neutral_value_less i j : store_neutral (A:=A) (V:=V) (value_less i j).
Proof. unfold value_less, less_V. neutral. Qed.

Lemma neutral_f_end : store_neutral (A:=A) (V:=V) f_end.
Proof. unfold f_end. neutral. Qed.

Lemma neutral_maxima_find p : store_neutral (A:=A) (V:=V) (maxima_find p).
Proof. unfold maxima_find. neutral. Qed.

Lemma neutral_maxima_insert p : store_neutral (A:=A) (V:=V) (maxima_insert p).
Proof. unfold maxima_insert. neutral. Qed.

Lemma neutral_maxima_erase i : store_neutral (A:=A) (V:=V) (maxima_erase i).
Proof. unfold maxima_erase. neutral. Qed.

Lemma neutral_push_back curr : store_neutral (A:=A) (V:=V) (push_back curr).
Proof. unfold push_back. neutral. Qed.

Lemma neutral_is_local_maximum it omit_it :
  store_neutral (A:=A) (V:=V) (is_local_maximum it omit_it).
Proof.
  pose proof neutral_value_less. pose proof neutral_f_end.
  unfold is_local_maximum. cbv zeta. neutral.
Qed.

Lemma neutral_stopped_being_maximum cpy_it omit_it :
  store_neutral (A:=A) (V:=V) (stopped_being_maximum cpy_it omit_it).
Proof.
  pose proof neutral_is_local_maximum. pose proof neutral_maxima_find.
  pose proof neutral_maxima_insert. pose proof neutral_push_back.
  unfold stopped_being_maximum. neutral.
Qed.

Lemma neutral_update_maxima it omit_it :
  store_neutral (A:=A) (V:=V) (update_maxima it omit_it).
Proof.
  pose proof neutral_is_local_maximum. pose proof neutral_maxima_insert.
  pose proof neutral_push_back. pose proof neutral_stopped_being_maximum.
  pose proof neutral_f_end. pose proof neutral_maxima_erase.
  unfold update_maxima, safe_decrement. cbv zeta. neutral.
Qed.

Lemma neutral_erase_each r : store_neutral (A:=A) (V:=V) (erase_each r).
Proof.
  pose proof neutral_maxima_erase.
  induction r as [|i r IH]; simpl; neutral.
Qed.

(** The handler of [erase] leaves (A:=A) (V:=V) the store as it is. *)
Lemma neutral_erase_handler :
  store_neutral (A:=A) (V:=V) (r ← get_rollback; erase_each r).
Proof. pose proof neutral_erase_each. neutral. Qed.

Lemma leaves_ret {X} (x : X) (Q : X → frame → Prop) E s :
  Q x s → leaves (A:=A) (V:=V) (mret x) Q E s.
Proof. by intros HQ pl. Qed.

Lemma leaves_bind {X Y} (m : M X) (k : X → M Y) Q E s :
  leaves (A:=A) (V:=V) m (λ x s', leaves (A:=A) (V:=V) (k x) Q E s') E s →
  leaves (A:=A) (V:=V) (m ≫= k) Q E s.
Proof.
  intros Hm pl. specialize (Hm pl). unfold mbind, M_bind.
  destruct (m s pl) as [[[x|e|] s'] pl']; [|done..]. apply Hm.
Qed.

Lemma leaves_neutral {X} (m : M X) (Q : X → frame → Prop) E s :
  store_neutral (A:=A) (V:=V) m →
  (∀ x s', store s' = store s → Q x s') →
  (∀ s', store s' = store s → E s') →
  leaves (A:=A) (V:=V) m Q E s.
Proof.
  intros Hm HQ HE pl. specialize (Hm s pl).
  destruct (m s pl) as [[[x|e|] s'] pl']; simpl in *; auto.
Qed.

Lemma leaves_try_catch {X} (body : M X) handler (Q : X → frame → Prop) E s :
  leaves (A:=A) (V:=V) body Q (λ s', leaves (A:=A) (V:=V) handler (λ _ s'', E s'') E s') s →
  leaves (A:=A) (V:=V) (try_catch body handler) Q E s.
Proof.
  intros Hb pl. specialize (Hb pl). unfold try_catch.
  destruct (body s pl) as [[[x|e|] s'] pl']; [done| |done].
  specialize (Hb pl'). by destruct (handler s' pl') as [[[[]|e'|] s''] pl''].
Qed.

Lemma leaves_call {X} (m : M X) fm pl (Q : X → frame → Prop) E e fm' :
  leaves (A:=A) (V:=V) m Q E (mk_frame fm [] 0) →
  call m fm pl = (Throw e, fm') → ∃ s', fm' = self s' ∧ E s'.
Proof.
  intros Hm. specialize (Hm pl). unfold call.
  destruct (m _ pl) as [[[x|e'|] s'] pl']; intros [= <- <-]. by exists s'.
Qed.

Lemma leaves_declare_locals (Q : unit → frame → Prop) E s :
  Q tt (mk_frame (self s) [] (length (function (self s)))) →
  leaves (A:=A) (V:=V) declare_locals Q E s.
Proof. intros HQ pl. exact HQ. Qed.

Lemma leaves_new_point a v (Q : point → frame → Prop) (E : frame → Prop) s :
  Q (mk_point a v) s → E s → leaves (A:=A) (V:=V) (new_point a v) Q E s.
Proof.
  intros HQ HE pl. unfold new_point, mbind, M_bind, tick.
  destruct (pl Allocate) as [[|[|n]]|] eqn:Hpl; simpl;
    rewrite ?decide_True by done; simpl; rewrite ?Hpl; done.
Qed.

Lemma leaves_function_lower_bound a (Q : iterator → frame → Prop)
    (E : frame → Prop) s :
  Q (fn_lower_bound a (function (self s))) s → E s →
  leaves (A:=A) (V:=V) (function_lower_bound a) Q E s.
Proof.
  intros HQ HE pl. unfold function_lower_bound, mbind, M_bind, tick.
  by destruct (pl Compare) as [[|n]|].
Qed.

Lemma leaves_function_insert i p (Q : iterator → frame → Prop)
    (E : frame → Prop) s :
  Q i (with_function (fn_insert i p (function (self s))) s) → E s →
  leaves (A:=A) (V:=V) (function_insert i p) Q E s.
Proof.
  intros HQ HE pl. unfold function_insert, mbind, M_bind, tick.
  destruct (pl Compare) as [[|n]|]; [done|..];
    simpl; rewrite ?decide_False by done;
    by destruct (pl Allocate) as [[|m]|].
Qed.

Lemma leaves_put_it i (Q : unit → frame → Prop) (E : frame → Prop) s :
  Q tt (with_it i s) → leaves (A:=A) (V:=V) (put_it i) Q E s.
Proof. by intros HQ pl. Qed.

(** What follows the [try] blocks does not throw. *)
Lemma leaves_after_erase (r : option (iterator * mx_iterator)) E s :
  leaves (A:=A) (V:=V) (match r with
          | None => mret tt
          | Some (it, max_it) =>
              function_erase it;;
              if decide (max_it ≠ mx_end) then maxima_erase max_it else mret tt
          end) (λ _ _, True) E s.
Proof.
  intros pl. destruct r as [[it [p|]]|]; [| |done].
  - unfold mx_end. by rewrite decide_True by done.
  - unfold mx_end. by rewrite decide_False by naive_solver.
Qed.

Lemma leaves_after_set_value (prev_it : iterator) (prev_max_it : mx_iterator)
    (diff : bool) E s :
  leaves (A:=A) (V:=V) (if diff then
            (if decide (prev_max_it ≠ mx_end)
             then maxima_erase prev_max_it else mret tt);;
            function_erase prev_it
          else mret tt) (λ _ _, True) E s.
Proof.
  intros pl. destruct diff; [|done]. destruct prev_max_it as [p|].
  - unfold mx_end. by rewrite decide_True by done.
  - unfold mx_end. by rewrite decide_False by naive_solver.
Qed.

(** The handlers' loop returns, and leaves the store as it is. *)
Lemma erase_each_returns (r : list mx_iterator) s pl :
  ∃ s', erase_each r s pl = (Ret tt, s', pl) ∧ store s' = store s.
Proof.
  revert s. induction r as [|i r IH]; intros s; simpl; [by exists s|].
  unfold mbind, M_bind.
  destruct i as [p|]; simpl.
  - destruct (IH (with_maxima (mx_erase p (maxima (self s))) s))
      as (s' & -> & Hs'). by exists s'.
  - destruct (IH s) as (s' & -> & Hs'). by exists s'.
Qed.

Lemma leaves_erase_handler (Q : unit → frame → Prop) E s :
  (∀ s', store s' = store s → Q tt s') →
  leaves (A:=A) (V:=V) (r ← get_rollback; erase_each r) Q E s.
Proof.
  intros HQ pl.
  destruct (erase_each_returns (maxima_rollback s) s pl) as (s1 & Hr & Hs1).
  unfold mbind, M_bind, get_rollback. rewrite Hr. by apply HQ.
Qed.

(** The handler of [set_value] erases the node of [it] when there is
    one. *)
Lemma leaves_set_value_handler (Q : unit → frame → Prop) E s :
  (∀ s', function (self s')
         = (if decide (it_local s ≠ length (function (self s)))
            then fn_erase (it_local s) (function (self s))
            else function (self s)) →
         Q tt s') →
  leaves (A:=A) (V:=V) (r ← get_rollback; erase_each r;;
          it ← get_it; e ← f_end;
          if decide (it ≠ e) then function_erase it else mret tt) Q E s.
Proof.
  intros HQ pl.
  destruct (erase_each_returns (maxima_rollback s) s pl) as (s1 & Hr & Hs1).
  injection Hs1 as Hf Hit.
  unfold mbind, M_bind, get_rollback, get_it, f_end, get_function, mret, M_ret.
  rewrite Hr. unfold mbind, M_bind. cbv beta iota. rewrite Hf, Hit.
  destruct (decide (it_local s ≠ length (function (self s)))).
  - unfold function_erase, mbind, M_bind, get_function, put_function.
    apply HQ. simpl. by rewrite Hf.
  - by apply HQ.
Qed.

(** Whatever throws in [erase], the store is as before the call. *)
Lemma leaves_erase a fm :
  leaves (A:=A) (V:=V) (erase a) (λ _ _, True) (λ s', function (self s') = function fm)
    (mk_frame fm [] 0).
Proof.
  pose proof neutral_f_end. pose proof neutral_maxima_find.
  pose proof neutral_update_maxima. pose proof neutral_erase_handler.
  unfold erase. apply leaves_bind, leaves_declare_locals. simpl.
  apply leaves_bind, leaves_try_catch.
  apply leaves_neutral.
  - unfold function_find. neutral.
  - intros r s' Hs'. apply leaves_after_erase.
  - intros s' Hs'. injection Hs' as Hf _.
    apply leaves_erase_handler. intros s'' Hs''. injection Hs'' as Hf' _.
    congruence.
Qed.

(** Whatever throws in [set_value], the store is as before the call. *)
Lemma leaves_set_value a v fm :
  leaves (A:=A) (V:=V) (set_value a v) (λ _ _, True) (λ s', function (self s') = function fm)
    (mk_frame fm [] 0).
Proof.
  pose proof neutral_f_end. pose proof neutral_maxima_find.
  pose proof neutral_update_maxima.
  unfold set_value. apply leaves_bind, leaves_declare_locals. simpl.
  set (s0 := mk_frame fm [] (length (function fm))).
  set (i := fn_lower_bound a (function fm)).
  pose proof (fn_lower_bound_le a (function fm)) as Hi. fold i in Hi.
  set (E := λ s' : frame, function (self s') = function fm).
  apply leaves_bind, leaves_try_catch.
  set (Hd := λ s' : frame,
    leaves (r ← get_rollback; erase_each r;;
            it ← get_it; e ← f_end;
            if decide (it ≠ e) then function_erase it else mret tt)
      (λ _ s'', E s'') E s').
  assert (∀ s', store s' = store s0 → Hd s') as Hbefore.
  { intros s' Hs'. injection Hs' as Hf Hit. apply leaves_set_value_handler.
    intros s''. rewrite Hf, Hit. simpl. by rewrite decide_False by lia. }
  assert (∀ s', store s' = (fn_insert i (mk_point a v) (function fm), i) →
    Hd s') as Hafter.
  { intros s' Hs'. injection Hs' as Hf Hit. apply leaves_set_value_handler.
    intros s''. rewrite Hf, Hit, fn_insert_length.
    rewrite decide_True by lia. by rewrite fn_erase_insert. }
  apply leaves_bind, leaves_new_point; [|by apply Hbefore].
  apply leaves_bind, leaves_function_lower_bound; [|by apply Hbefore].
  simpl. fold i.
  apply leaves_bind, leaves_neutral; [done| |by intros; apply Hbefore].
  intros e s2 Hs2.
  apply leaves_bind, leaves_neutral;
    [neutral| |by intros; apply Hbefore; congruence].
  intros prev_max_it s3 Hs3.
  apply leaves_bind, leaves_function_insert; [|apply Hbefore; congruence].
  apply leaves_bind, leaves_put_it.
  set (s4 := with_it _ _).
  assert (store s4 = (fn_insert i (mk_point a v) (function fm), i)) as Hs4.
  { subst s4. unfold store. simpl. f_equal.
    assert (function (self s3) = function fm) as -> ; [|done].
    assert (store s3 = store s0) as Hs by congruence. by injection Hs. }
  cbv zeta. apply leaves_neutral.
  - unfold less_A. neutral.
  - intros [[prev_it pmi] diff] s5 Hs5. apply leaves_after_set_value.
  - intros s5 Hs5. apply Hafter. congruence.
Qed.

(** *** The point store in every reachable object *)

(** What [set_value] does to the point store, whatever the maxima set
    holds: the call is defined, it throws only failures, and when it
    returns the store is [fn_put]. *)
Lemma wp_set_value_store a v fm :
  wp (A:=A) (V:=V) (set_value a v)
    (λ _ s', function (self s') = fn_put a v (function fm))
    (λ e _, ∃ k, e = Failure k)
    (mk_frame fm [] 0).
Proof.
  unfold set_value. wp_step. apply wp_declare_locals. simpl.
  set (s0 := mk_frame fm [] (length (function fm))).
  set (i := fn_lower_bound a (function fm)).
  set (new := mk_point a v).
  pose proof (fn_lower_bound_le a (function fm)) as Hi. fold i in Hi.
  set (E := λ (e : exn) (_ : frame), ∃ k, e = Failure k).
  wp_step. apply wp_try_catch.
  assert (∀ k s',
    wp (r ← get_rollback; erase_each r;;
        it ← get_it; e ← f_end;
        if decide (it ≠ e) then function_erase it else mret tt)
       (λ _ s'', E (Failure k) s'') E s') as Hh.
  { intros k s'. apply wp_set_value_handler. cbv zeta.
    destruct (decide _); by eexists. }
  wp_step. apply wp_new_point; [|done].
  wp_step. apply wp_function_lower_bound; [|done]. fold i.
  wp_step. apply wp_f_end. cbv beta.
  wp_step.
  assert (wp (if decide (i ≠ length (function (self s0)))
              then p ← deref i; maxima_find p else mret mx_end)
            (λ _ s', s' = s0)
            (λ e s', wp (r ← get_rollback; erase_each r;;
                         it ← get_it; e ← f_end;
                         if decide (it ≠ e) then function_erase it else mret tt)
                        (λ _ s'', E e s'') E s') s0) as Hprev.
  { simpl. destruct (decide (i ≠ length (function fm))).
    - destruct (lookup_lt_is_Some_2 (function fm) i) as [p Hp]; [lia|].
      wp_step. eapply wp_deref; [done|].
      by apply wp_maxima_find.
    - by wp_step. }
  eapply wp_mono; [exact Hprev| |done]. intros prev_max_it ? ->. clear Hprev.
  wp_step. apply wp_function_insert; [|done..].
  wp_steps. apply wp_f_end. simpl. rewrite fn_insert_length. fold i new.
  set (s_ins := with_it i (with_function (fn_insert i new (function fm)) s0)).
  assert (function (self s_ins) !! i = Some new) as Hnew
    by (by apply fn_insert_lookup_eq).
  assert (i < length (function (self s_ins))) as Hlt
    by (simpl; rewrite fn_insert_length; lia).
  wp_step.
  destruct (function fm !! i) as [old|] eqn:Hold.
  - pose proof (lookup_lt_Some _ _ _ Hold) as Hin.
    assert (function (self s_ins) !! S i = Some old) as Hold'.
    { simpl. rewrite fn_insert_lookup by lia.
      rewrite decide_False by lia. rewrite decide_False by lia.
      by replace (S i - 1) with i by lia. }
    rewrite decide_True by lia.
    wp_step. eapply wp_deref; [done|]. wp_step. eapply wp_deref; [done|].
    wp_step. apply wp_less_A; [|done].
    wp_step. simpl. wp_step.
    destruct (less a (arg old)) eqn:Hlta; simpl.
    + apply wp_update_maxima; [done| |by auto|done].
      wp_step. simpl. wp_step.
      rewrite updated_function. unfold fn_put. cbv zeta. fold i. rewrite Hold.
      unfold comp_by_arg_ap. by rewrite Hlta.
    + apply wp_update_maxima; [done| |by auto|done].
      wp_step. simpl. wp_step. apply wp_unlink. apply wp_function_erase.
      simpl. rewrite unlink_function, updated_function.
      unfold fn_put. cbv zeta. fold i. rewrite Hold.
      unfold comp_by_arg_ap. by rewrite Hlta.
  - apply lookup_ge_None in Hold. assert (i = length (function fm)) as Hin by lia.
    rewrite decide_False by lia. wp_step. simpl. wp_step.
    apply wp_update_maxima; [done| |by auto|done].
    wp_step. simpl. wp_step.
    rewrite updated_function. unfold fn_put. cbv zeta. fold i.
    by rewrite (lookup_ge_None_2 (function fm) i) by lia.
Qed.

(** What [erase] does to the point store, whatever the maxima set holds. *)
Lemma wp_erase_store a fm :
  wp (A:=A) (V:=V) (erase a)
    (λ _ s', function (self s')
             = fn_erase (fn_find a (function fm)) (function fm)
             ∧ (fn_find a (function fm) = length (function fm) → self s' = fm))
    (λ e _, ∃ k, e = Failure k)
    (mk_frame fm [] 0).
Proof.
  unfold erase. wp_step. apply wp_declare_locals. simpl.
  set (s0 := mk_frame fm [] (length (function fm))).
  set (i := fn_find a (function fm)).
  set (E := λ (e : exn) (_ : frame), ∃ k, e = Failure k).
  wp_step. apply wp_try_catch.
  assert (∀ k s',
    wp (r ← get_rollback; erase_each r) (λ _ s'', E (Failure k) s'') E s')
    as Hh.
  { intros k s'. apply (wp_rollback id). by eexists. }
  wp_step. apply wp_function_find; [|done].
  fold i. wp_step. apply wp_f_end. simpl. fold i.
  destruct (decide (i = length (function fm))) as [Hi|Hi].
  { wp_step. simpl. wp_step. split; [|done].
    unfold fn_erase. by rewrite Hi, delete_ge. }
  destruct (fn_find_lt a (function fm)) as (x & Hx & Hxa).
  { pose proof (fn_find_le a (function fm)). fold i. lia. }
  fold i in Hx. pose proof (lookup_lt_Some _ _ _ Hx) as Hlt.
  wp_step. eapply wp_deref; [done|].
  wp_step. apply wp_maxima_find; [|done].
  wp_step. apply wp_update_maxima; [done| |by auto|done].
  wp_steps. apply wp_function_erase. apply wp_unlink.
  rewrite unlink_with_function, updated_function. simpl. by split.
Qed.

Lemma fn_put_sorted a v l :
  StronglySorted arg_lt l → StronglySorted arg_lt (fn_put a v l).
Proof.
  intros Hl. unfold fn_put. cbv zeta.
  destruct (l !! fn_lower_bound a l) as [p|] eqn:Hp.
  - unfold comp_by_arg_ap. destruct (less a (arg p)) eqn:Hap.
    + apply fn_insert_new_sorted; [done|]. intros p'. rewrite Hp.
      by intros [= <-].
    + apply (fn_insert_replace_sorted a v l p); [done..|].
      destruct (fn_lower_bound_at_cases a l p Hp); [congruence|done].
  - apply fn_insert_new_sorted; [done|]. intros p'. by rewrite Hp.
Qed.

Lemma fn_erase_sorted i l :
  StronglySorted arg_lt l → StronglySorted arg_lt (fn_erase i l).
Proof. apply StronglySorted_sublist, sublist_delete. Qed.

(** The outcome of a call of [set_value] on any object. *)
Lemma call_set_value_store a v fm pl r fm' :
  call (set_value a v) fm pl = (r, fm') →
  match r with
  | Ret _ => function fm' = fn_put a v (function fm)
  | Throw e => (∃ k, e = Failure k ∧ pl k ≠ None) ∧ function fm' = function fm
  | Undefined => False
  end.
Proof.
  intros Hcall.
  pose proof (wp_call _ fm pl _ _ (wp_set_value_store a v fm)) as Hwp.
  rewrite Hcall in Hwp. destruct r as [[]|e|]; [| |done].
  - by destruct Hwp as (s' & <- & ?).
  - destruct Hwp as [(s' & <- & (k & ->)) Hk]. split.
    + exists k. split; [done|]. by apply Hk.
    + destruct (leaves_call _ _ _ _ _ _ _ (leaves_set_value a v fm) Hcall)
        as (s'' & -> & Hs''). done.
Qed.

Lemma call_erase_store a fm pl r fm' :
  call (erase a) fm pl = (r, fm') →
  match r with
  | Ret _ =>
      function fm' = fn_erase (fn_find a (function fm)) (function fm)
      ∧ (fn_find a (function fm) = length (function fm) → fm' = fm)
  | Throw e => (∃ k, e = Failure k ∧ pl k ≠ None) ∧ function fm' = function fm
  | Undefined => False
  end.
Proof.
  intros Hcall.
  pose proof (wp_call _ fm pl _ _ (wp_erase_store a fm)) as Hwp.
  rewrite Hcall in Hwp. destruct r as [[]|e|]; [| |done].
  - by destruct Hwp as (s' & <- & ?).
  - destruct Hwp as [(s' & <- & (k & ->)) Hk]. split.
    + exists k. split; [done|]. by apply Hk.
    + destruct (leaves_call _ _ _ _ _ _ _ (leaves_erase a fm) Hcall)
        as (s'' & -> & Hs''). done.
Qed.

(** The store of every reachable object is sorted. *)
Lemma reachable_sorted fm :
  reachable fm → StronglySorted arg_lt (function fm).
Proof.
  induction 1 as [|fm a v pl r fm' _ IH Hcall|fm a pl r fm' _ IH Hcall].
  - constructor.
  - apply call_set_value_store in Hcall. destruct r as [[]|e|]; [| |done].
    + rewrite Hcall. by apply fn_put_sorted.
    + destruct Hcall as [_ ->]. done.
  - apply call_erase_store in Hcall. destruct r as [[]|e|]; [| |done].
    + destruct Hcall as [-> _]. by apply fn_erase_sorted.
    + destruct Hcall as [_ ->]. done.
Qed.

Lemma intact_reachable fm : intact fm → reachable fm.
Proof.
  induction 1; [constructor|by eapply reachable_set_value
               |by eapply reachable_erase].
Qed.

(** ** The contract of the class *)

(** X20, invariant I1 while [push_back] has not thrown: in every intact
    object, that is, one reached from the empty one by calls of
    [set_value] and [erase] none of which threw from the growth of the
    rollback vector, the maxima index lists exactly the points of the point
    store that [is_local_maximum] accepts with nothing omitted, each of
    them once.  It does not hold in every reachable object, see C1. *)
Theorem maxima_index_is_local_maxima fm :
  intact fm →
  maxima fm ≡ₚ local_maxima fm
  ∧ NoDup (maxima fm)
  ∧ ∀ p, p ∈ maxima fm ↔
         ∃ i, function fm !! i = Some p ∧ local_maximum_at fm i = true.
Proof.
  intros (Hl & Hmx & Hperm)%intact_invariant. split_and!; [done| |].
  - rewrite Hperm, local_maxima_lms. by apply lms_NoDup, fn_sorted_NoDup.
  - intros p. rewrite Hperm. unfold local_maxima. by rewrite select_elem_of.
Qed.

(** C3, the test with omission: on every store, for every position [p]
    and omitted position [omit], [is_local_maximum(p, omit)] answers false
    when [p] is [omit], and otherwise answers whether neither the nearest
    point before [p] other than [omit] nor the nearest point after [p]
    other than [omit] has a greater value; a side without such a point
    imposes nothing.  The call changes nothing and fails only in a
    comparison. *)
Theorem is_local_maximum_omission fm (it omit : nat) x :
  function fm !! it = Some x →
  ∃ b,
    call (is_local_maximum it omit) fm no_faults = (Ret b, fm)
    ∧ (∀ pl r fm', call (is_local_maximum it omit) fm pl = (r, fm') →
         fm' = fm ∧ (r = Ret b ∨ r = Throw (Failure Compare)))
    ∧ (it = omit → b = false)
    ∧ (b = true ↔
         it ≠ omit
         ∧ (∀ j q, effective_predecessor omit it j → function fm !! j = Some q →
                   less (value x) (value q) = false)
         ∧ (∀ j q, effective_successor (length (function fm)) omit it j →
                   function fm !! j = Some q →
                   less (value x) (value q) = false)).
Proof.
  intros Hx. pose proof (lookup_lt_Some _ _ _ Hx) as Hp.
  exists (local_max_omit (function fm) it omit).
  assert (wp (is_local_maximum it omit)
            (λ b s', b = local_max_omit (function fm) it omit ∧ self s' = fm)
            (λ e s', e = Failure Compare ∧ self s' = fm)
            (mk_frame fm [] 0)) as Hwp
    by (by apply wp_is_local_maximum).
  split_and!.
  - pose proof (wp_call _ fm no_faults _ _ Hwp) as Hc.
    destruct (call _ fm no_faults) as [[b|e|] fm']; [| |done].
    + by destruct Hc as (s' & <- & -> & ->).
    + destruct Hc as [(s' & _ & -> & _) Hk]. by destruct (Hk Compare).
  - intros pl r fm' Hcall. pose proof (wp_call _ fm pl _ _ Hwp) as Hc.
    rewrite Hcall in Hc. destruct r as [b|e|]; [| |done].
    + destruct Hc as (s' & <- & -> & ->). auto.
    + destruct Hc as [(s' & <- & -> & ->) _]. auto.
  - intros ->. unfold local_max_omit. rewrite Hx.
    by rewrite bool_decide_eq_false_2 by tauto.
  - unfold local_max_omit. rewrite Hx, !andb_true_iff, bool_decide_eq_true.
    assert (∀ o : option nat,
      not_exceeded_by x (o ≫= (function fm !!.)) = true ↔
      ∀ j q, o = Some j → function fm !! j = Some q →
             less (value x) (value q) = false) as Hside.
    { intros [j|]; simpl; [|by split].
      destruct (function fm !! j) as [q|] eqn:Hq; simpl.
      - rewrite negb_true_iff. split; [|by eauto].
        intros Hlt j' q' [= <-] Hq'. by simplify_eq.
      - split; [|done]. intros _ j' q' [= <-] Hq'. congruence. }
    rewrite !Hside. split.
    + intros [[? Hb] Ha]. split_and!; [done|..].
      * intros j q Hj%nearest_before_spec. by apply Hb.
      * intros j q Hj%nearest_after_spec. by apply Ha.
    + intros (? & Hb & Ha). split_and!; [done|..].
      * intros j q Hj%nearest_before_spec. by apply Hb.
      * intros j q Hj%nearest_after_spec. by apply Ha.
Qed.




Local Instance in_domain_dec a fm : Decision (in_domain a fm).
Proof. unfold in_domain. apply _. Defined.

Lemma erase_not_in_domain a fm fm' :
  StronglySorted arg_lt (function fm) →
  function fm' = fn_erase (fn_find a (function fm)) (function fm) →
  ¬ in_domain a fm'.
Proof.
  intros Hl Hf (k' & p & Hp & Ha)%in_domain_lookup. rewrite Hf in Hp.
  apply delete_lookup_unshift in Hp as (k & Hk & Hne & _).
  by rewrite (fn_find_found a _ k p) in Hne.
Qed.

(** C5, round trip: after [set_value(a, v)] has returned on a reachable
    object, one that a failed [push_back] has left included,
    [value_at(a)] returns [v]; under any plan it returns [v] or fails in a
    comparison of the lookup. *)
Theorem set_value_round_trip fm a v pl fm' :
  reachable fm →
  call (set_value a v) fm pl = (Ret tt, fm') →
  call (value_at a) fm' no_faults = (Ret v, fm')
  ∧ ∀ pl' r fm'', call (value_at a) fm' pl' = (r, fm'') →
      fm'' = fm' ∧ (r = Ret v ∨ r = Throw (Failure Compare)).
Proof.
  intros Hfm Hcall.
  assert (reachable fm') as Hfm' by (by eapply reachable_set_value).
  pose proof (reachable_sorted fm Hfm) as Hl.
  pose proof (reachable_sorted fm' Hfm') as Hl'.
  apply call_set_value_store in Hcall as Hf.
  assert (mk_point a v ∈ function fm') as Hin.
  { rewrite Hf. apply fn_put_elem_of; [done|by left]. }
  split.
  - by rewrite (value_at_found a v).
  - intros pl' r fm''. rewrite (value_at_found a v) by done.
    destruct (pl' Compare) as [[|n]|]; intros [= <- <-]; auto.
Qed.

(** C6, the effect of [erase]: after [erase(a)] has returned on a
    reachable object, one that a failed [push_back] has left included,
    [value_at(a)] throws [InvalidArg]; the size has gone down by exactly
    one iff [a] was in the domain, and the object is unchanged when it was
    not. *)
Theorem erase_effect fm a pl fm' :
  reachable fm →
  call (erase a) fm pl = (Ret tt, fm') →
  call (value_at a) fm' no_faults = (Throw InvalidArg, fm')
  ∧ (∀ pl' r fm'', call (value_at a) fm' pl' = (r, fm'') →
       fm'' = fm' ∧ (r = Throw InvalidArg ∨ r = Throw (Failure Compare)))
  ∧ (S (size fm') = size fm ↔ in_domain a fm)
  ∧ (¬ in_domain a fm → fm' = fm).
Proof.
  intros Hfm Hcall.
  assert (reachable fm') as Hfm' by (by eapply reachable_erase).
  pose proof (reachable_sorted fm Hfm) as Hl.
  pose proof (reachable_sorted fm' Hfm') as Hl'.
  apply call_erase_store in Hcall as [Hf Hend].
  assert (¬ in_domain a fm → fm' = fm) as Habs.
  { intros Ha. apply Hend. rewrite fn_find_in_domain in Ha by done.
    by destruct (decide (fn_find a (function fm) = length (function fm))). }
  pose proof (erase_not_in_domain a fm fm' Hl Hf) as Hgone.
  split_and!.
  - by rewrite value_at_absent.
  - intros pl' r fm''. rewrite value_at_absent by done.
    destruct (pl' Compare) as [[|n]|]; intros [= <- <-]; auto.
  - unfold size. split.
    + intros Hsize. destruct (decide (in_domain a fm)) as [|Ha]; [done|].
      rewrite (Habs Ha) in Hsize. lia.
    + intros Ha. rewrite fn_find_in_domain in Ha by done.
      pose proof (fn_find_le a (function fm)).
      rewrite Hf. unfold fn_erase. rewrite length_delete; [lia|].
      apply lookup_lt_is_Some. lia.
  - done.
Qed.

(** C7, the error contract of [value_at]: on a reachable object, one
    that a failed [push_back] has left included, the call leaves the
    object unchanged; it throws [InvalidArg] only when [a] is
    not in the domain, and when [a] is not in the domain it throws
    [InvalidArg] unless a comparison of the lookup fails first. *)
Theorem value_at_contract fm a pl r fm' :
  reachable fm →
  call (value_at a) fm pl = (r, fm') →
  fm' = fm
  ∧ (r = Throw InvalidArg → ¬ in_domain a fm)
  ∧ (¬ in_domain a fm →
       r = Throw InvalidArg ∨ (r = Throw (Failure Compare) ∧ pl Compare ≠ None))
  ∧ (in_domain a fm →
       (∃ v, r = Ret v ∧ mk_point a v ∈ function fm)
       ∨ (r = Throw (Failure Compare) ∧ pl Compare ≠ None))
  ∧ (pl Compare = None → (r = Throw InvalidArg ↔ ¬ in_domain a fm)).
Proof.
  intros Hl%reachable_sorted.
  destruct (decide (in_domain a fm)) as [Ha|Ha].
  - pose proof Ha as (v & Hv)%in_domain_value.
    rewrite (value_at_found a v) by done.
    destruct (pl Compare) as [[|n]|] eqn:Hpl; intros [= <- <-];
      split_and!; try done; try tauto; intros _; eauto.
  - rewrite value_at_absent by done.
    destruct (pl Compare) as [[|n]|] eqn:Hpl; intros [= <- <-];
      split_and!; try done; try tauto; intros _; eauto.
Qed.


(** ** Copies *)

Lemma memory_eq σ σ' :
  objects σ = objects σ' → trees σ = trees σ' → σ = σ'.
Proof. destruct σ, σ'; simpl; congruence. Qed.

Lemma load_Some this σ fm :
  load this σ = Some fm ↔
  ∃ o, objects σ !! this = Some o
       ∧ trees σ !! function_tree o = Some (function fm)
       ∧ trees σ !! maxima_tree o = Some (maxima fm).
Proof.
  unfold load. split.
  - intros Hload. destruct (objects σ !! this) as [o|]; [|done]. simpl in Hload.
    destruct (trees σ !! function_tree o) as [f|] eqn:Hf; [|done].
    simpl in Hload.
    destruct (trees σ !! maxima_tree o) as [m|] eqn:Hm; [|done].
    simpl in Hload. exists o. injection Hload as <-. done.
  - intros (o & -> & Hf & Hm). simpl. rewrite Hf. simpl. rewrite Hm. simpl.
    by destruct fm.
Qed.

(** The state of an object depends on its own entry and trees only. *)
Lemma load_agree this σ σ' o :
  objects σ !! this = Some o → objects σ' !! this = Some o →
  trees σ' !! function_tree o = trees σ !! function_tree o →
  trees σ' !! maxima_tree o = trees σ !! maxima_tree o →
  load this σ' = load this σ.
Proof.
  intros Ho Ho' Hf Hm. unfold load. rewrite Ho, Ho'. simpl.
  by rewrite Hf, Hm.
Qed.

Lemma separated_object σ a o :
  separated σ → objects σ !! a = Some o →
  function_tree o ≠ maxima_tree o
  ∧ is_Some (trees σ !! function_tree o)
  ∧ is_Some (trees σ !! maxima_tree o).
Proof. intros [Hown _]. apply Hown. Qed.

Lemma separated_apart σ a b o o' t t' :
  separated σ → a ≠ b →
  objects σ !! a = Some o → objects σ !! b = Some o' →
  owns o t → owns o' t' → t ≠ t'.
Proof. intros [_ Hsep] Hab Ho Ho' Ht Ht' ->. by eapply Hab, Hsep. Qed.

(** A call on an object changes the state of that object as the member
    does, and of no other object. *)
Lemma call_at_spec {X} (m : M X) this σ pl fm :
  separated σ → load this σ = Some fm →
  (call_at m this σ pl).1 = (call m fm pl).1
  ∧ load this (call_at m this σ pl).2 = Some (call m fm pl).2
  ∧ (∀ b, b ≠ this → load b (call_at m this σ pl).2 = load b σ)
  ∧ separated (call_at m this σ pl).2.
Proof.
  intros Hsep Hload. pose proof Hload as (o & Ho & Hf & Hm)%load_Some.
  destruct (separated_object σ this o Hsep Ho) as (Hne & _ & _).
  unfold call_at. rewrite Ho, Hload.
  destruct (call m fm pl) as [r fm'] eqn:Hcall. simpl. split_and!; [done| | |].
  - apply load_Some. exists o. simpl. split_and!; [done| |].
    + by rewrite lookup_insert_ne, lookup_insert_eq.
    + by rewrite lookup_insert_eq.
  - intros b Hb. destruct (objects σ !! b) as [o'|] eqn:Ho'.
    + apply (load_agree b _ _ o'); [done..| |]; simpl.
      * rewrite !lookup_insert_ne; [done|..];
          apply not_eq_sym;
          by apply (separated_apart σ b this o' o); [..|left|unfold owns; auto].
      * rewrite !lookup_insert_ne; [done|..];
          apply not_eq_sym;
          by apply (separated_apart σ b this o' o); [..|right|unfold owns; auto].
    + unfold load. simpl. by rewrite Ho'.
  - destruct Hsep as [Hown Hsep]. split; simpl.
    + intros a o' Ho'. destruct (Hown a o' Ho') as (? & Hf' & Hm').
      split_and!; [done|..].
      * rewrite !lookup_insert_is_Some'. auto.
      * rewrite !lookup_insert_is_Some'. auto.
    + done.
Qed.

(** A copy of an allocated tree that does not throw is a new tree with the
    same points. *)
Lemma set_copy_spec t σ pl l :
  trees σ !! t = Some l →
  let t' := fresh (dom (trees σ)) in
  trees σ !! t' = None
  ∧ match pl Allocate with
    | Some 0 => set_copy t σ pl = (Throw (Failure Allocate), σ, pl)
    | _ =>
        ∃ pl', set_copy t σ pl
               = (Ret t', mk_memory (objects σ) (<[t':=l]> (trees σ)), pl')
               ∧ pl' Allocate = pred <$> pl Allocate
    end.
Proof.
  intros Ht t'. split; [apply not_elem_of_dom, is_fresh|].
  unfold set_copy. rewrite Ht. fold t'.
  destruct (pl Allocate) as [[|n]|] eqn:Hpl; [done| |].
  - eexists. split; [done|]. done.
  - eexists. split; [done|]. by rewrite Hpl.
Qed.

(** Installing two trees that were not allocated as the members of the
    object at [this] keeps the members apart and the other objects as they
    were, when the trees of the other objects are left alone. *)
Lemma separated_install σ σ' this (t1 t2 : nat) :
  separated σ →
  objects σ' = <[this:=mk_object t1 t2]> (objects σ) →
  t1 ≠ t2 → trees σ !! t1 = None → trees σ !! t2 = None →
  is_Some (trees σ' !! t1) → is_Some (trees σ' !! t2) →
  (∀ b o t, b ≠ this → objects σ !! b = Some o → owns o t →
            trees σ' !! t = trees σ !! t) →
  separated σ' ∧ ∀ b, b ≠ this → load b σ' = load b σ.
Proof.
  intros Hsep Hobj Hne H1 H2 Hs1 Hs2 Hkeep.
  assert (∀ b o t, objects σ !! b = Some o → owns o t → t ≠ t1 ∧ t ≠ t2)
    as Hfresh.
  { intros b o t Ho Ht.
    destruct (separated_object σ b o Hsep Ho) as (_ & Hf & Hm).
    destruct Ht as [->| ->]; split; intros Heq; rewrite Heq in *;
      by (rewrite H1 in * || rewrite H2 in *; (destruct Hf || destruct Hm)). }
  split; [split|].
  - intros a o. rewrite Hobj.
    destruct (decide (a = this)) as [->|Ha].
    + rewrite lookup_insert_eq. intros [= <-]. simpl. done.
    + rewrite lookup_insert_ne by done. intros Ho.
      destruct (separated_object σ a o Hsep Ho) as (? & Hf & Hm).
      split_and!; [done|..].
      * rewrite (Hkeep a o) by (done || by left). done.
      * rewrite (Hkeep a o) by (done || by right). done.
  - intros a b o o' t. rewrite !Hobj.
    destruct (decide (a = this)) as [->|Ha];
      destruct (decide (b = this)) as [->|Hb]; [done|..].
    + rewrite lookup_insert_eq, lookup_insert_ne by done.
      intros [= <-] Ho' Ht Ht'. exfalso.
      destruct (Hfresh b o' t Ho' Ht') as [? ?].
      destruct Ht as [->| ->]; done.
    + rewrite lookup_insert_eq, lookup_insert_ne by done.
      intros Ho [= <-] Ht Ht'. exfalso.
      destruct (Hfresh a o t Ho Ht) as [? ?].
      destruct Ht' as [->| ->]; done.
    + rewrite !lookup_insert_ne by done. destruct Hsep as [_ Hsep].
      apply Hsep.
  - intros b Hb. destruct (objects σ !! b) as [o|] eqn:Ho.
    + apply (load_agree b _ _ o); [done| |..].
      * by rewrite Hobj, lookup_insert_ne.
      * apply (Hkeep b o); [done..|by left].
      * apply (Hkeep b o); [done..|by right].
    + unfold load. by rewrite Hobj, lookup_insert_ne, Ho.
Qed.

(** The two copies of [operator=] and of the copy constructor: when both
    are made, the trees at two addresses that were not allocated hold the
    points of the source's members. *)
Lemma two_copies σ pl src_o src :
  trees σ !! function_tree src_o = Some (function src) →
  trees σ !! maxima_tree src_o = Some (maxima src) →
  let t1 := fresh (dom (trees σ)) in
  let σ1 := mk_memory (objects σ) (<[t1:=function src]> (trees σ)) in
  let t2 := fresh (dom (trees σ1)) in
  let σ2 := mk_memory (objects σ) (<[t2:=maxima src]> (trees σ1)) in
  t1 ≠ t2 ∧ trees σ !! t1 = None ∧ trees σ !! t2 = None
  ∧ match pl Allocate with
    | Some 0 =>
        set_copy (function_tree src_o) σ pl = (Throw (Failure Allocate), σ, pl)
    | Some 1 =>
        ∃ pl1, set_copy (function_tree src_o) σ pl = (Ret t1, σ1, pl1)
               ∧ set_copy (maxima_tree src_o) σ1 pl1
                 = (Throw (Failure Allocate), σ1, pl1)
    | _ =>
        ∃ pl1 pl2, set_copy (function_tree src_o) σ pl = (Ret t1, σ1, pl1)
                   ∧ set_copy (maxima_tree src_o) σ1 pl1 = (Ret t2, σ2, pl2)
    end.
Proof.
  intros Hf Hm t1 σ1 t2 σ2.
  destruct (set_copy_spec (function_tree src_o) σ pl _ Hf) as [H1 Hc1].
  fold t1 in H1, Hc1.
  assert (maxima_tree src_o ≠ t1) as Hmt by (intros Heq; congruence).
  assert (trees σ1 !! maxima_tree src_o = Some (maxima src)) as Hm1.
  { simpl. by rewrite lookup_insert_ne. }
  assert (trees σ1 !! t2 = None) as H2 by apply not_elem_of_dom, is_fresh.
  assert (t1 ≠ t2) as Hne.
  { intros Heq. rewrite <-Heq in H2. simpl in H2.
    by rewrite lookup_insert_eq in H2. }
  split_and!; [done..| |].
  { simpl in H2. by rewrite lookup_insert_ne in H2. }
  destruct (pl Allocate) as [[|[|n]]|] eqn:Hpl; [done|..].
  - destruct Hc1 as (pl1 & Hc1 & Hpl1). exists pl1. split; [done|].
    destruct (set_copy_spec (maxima_tree src_o) σ1 pl1 _ Hm1) as [_ Hc2].
    by rewrite Hpl1 in Hc2.
  - destruct Hc1 as (pl1 & Hc1 & Hpl1). exists pl1.
    destruct (set_copy_spec (maxima_tree src_o) σ1 pl1 _ Hm1) as [_ Hc2].
    rewrite Hpl1 in Hc2. simpl in Hc2. destruct Hc2 as (pl2 & Hc2 & _).
    by exists pl2.
  - destruct Hc1 as (pl1 & Hc1 & Hpl1). exists pl1.
    destruct (set_copy_spec (maxima_tree src_o) σ1 pl1 _ Hm1) as [_ Hc2].
    rewrite Hpl1 in Hc2. simpl in Hc2. destruct Hc2 as (pl2 & Hc2 & _).
    by exists pl2.
Qed.

(** Freeing the tree just allocated gives memory back as it was. *)
Lemma set_destroy_fresh σ (t : nat) l :
  trees σ !! t = None →
  set_destroy t (mk_memory (objects σ) (<[t:=l]> (trees σ))) = σ.
Proof.
  intros Ht. apply memory_eq; simpl; [done|]. by apply delete_insert_id.
Qed.

(** [operator=] between two objects: it throws, and leaves memory as it
    was, when one of its two copies fails; otherwise it returns, the target
    has the state of the source, and every member still owns a tree of its
    own. *)
Lemma copy_assign_spec σ this fun_ src tgt pl :
  separated σ → load fun_ σ = Some src → load this σ = Some tgt →
  this ≠ fun_ →
  match pl Allocate with
  | Some 0 | Some 1 => copy_assign this fun_ σ pl = (Throw (Failure Allocate), σ)
  | _ =>
      ∃ σ', copy_assign this fun_ σ pl = (Ret tt, σ')
            ∧ load this σ' = Some src
            ∧ (∀ b, b ≠ this → load b σ' = load b σ)
            ∧ separated σ'
  end.
Proof.
  intros Hsep (so & Hso & Hsf & Hsm)%load_Some (o & Ho & Hf & Hm)%load_Some Hne.
  destruct (two_copies σ pl so src Hsf Hsm) as (H12 & H1 & H2 & Hc).
  set (t1 := fresh (dom (trees σ))) in *.
  set (σ1 := mk_memory (objects σ) (<[t1:=function src]> (trees σ))) in *.
  set (t2 := fresh (dom (trees σ1))) in *.
  set (σ2 := mk_memory (objects σ) (<[t2:=maxima src]> (trees σ1))) in *.
  destruct (separated_object σ this o Hsep Ho) as (Hfm & _ & _).
  unfold copy_assign. rewrite Ho, Hso. rewrite decide_True by done.
  assert (∃ σ',
    (Ret tt,
     set_destroy (function_tree o)
       (set_destroy (maxima_tree o)
          (mk_memory (<[this:=mk_object t1 t2]> (objects σ2)) (trees σ2))))
    = (Ret tt, σ')
    ∧ load this σ' = Some src
    ∧ (∀ b, b ≠ this → load b σ' = load b σ)
    ∧ separated σ') as Hret.
  { eexists. split; [done|].
    set (σ' := set_destroy _ _).
    assert (function_tree o ≠ t1 ∧ function_tree o ≠ t2
            ∧ maxima_tree o ≠ t1 ∧ maxima_tree o ≠ t2) as (? & ? & ? & ?)
      by (split_and!; intros Heq; congruence).
    assert (trees σ' !! t1 = Some (function src)) as Ht1.
    { subst σ' σ2 σ1. simpl. rewrite !lookup_delete_ne by done.
      by rewrite lookup_insert_ne, lookup_insert_eq. }
    assert (trees σ' !! t2 = Some (maxima src)) as Ht2.
    { subst σ' σ2 σ1. simpl. rewrite !lookup_delete_ne by done.
      by rewrite lookup_insert_eq. }
    destruct (separated_install σ σ' this t1 t2) as [Hsep' Hothers];
      [done|done|done|done|done|by rewrite Ht1|by rewrite Ht2| |].
    - intros b o' t Hb Ho' Ht.
      destruct (separated_object σ b o' Hsep Ho') as (_ & Hf' & Hm').
      assert (is_Some (trees σ !! t)) as Hs by (by destruct Ht as [->| ->]).
      assert (t ≠ function_tree o).
      { apply (separated_apart σ b this o' o); [done..|by left]. }
      assert (t ≠ maxima_tree o).
      { apply (separated_apart σ b this o' o); [done..|by right]. }
      assert (t ≠ t1) by (intros ->; rewrite H1 in Hs; by destruct Hs).
      assert (t ≠ t2) by (intros ->; rewrite H2 in Hs; by destruct Hs).
      subst σ' σ2 σ1. simpl. rewrite !lookup_delete_ne by done.
      by rewrite !lookup_insert_ne.
    - split_and!; [|done..]. apply load_Some. exists (mk_object t1 t2).
      split_and!; [|done..]. subst σ'. simpl. by rewrite lookup_insert_eq. }
  destruct (pl Allocate) as [[|[|n]]|] eqn:Hpl.
  - by rewrite Hc.
  - destruct Hc as (pl1 & -> & ->). f_equal. by apply set_destroy_fresh.
  - destruct Hc as (pl1 & pl2 & -> & ->). exact Hret.
  - destruct Hc as (pl1 & pl2 & -> & ->). exact Hret.
Qed.

(** The copy constructor, likewise. *)
Lemma copy_construct_spec σ new fun_ src pl :
  separated σ → load fun_ σ = Some src → objects σ !! new = None →
  match pl Allocate with
  | Some 0 | Some 1 =>
      copy_construct new fun_ σ pl = (Throw (Failure Allocate), σ)
  | _ =>
      ∃ σ', copy_construct new fun_ σ pl = (Ret tt, σ')
            ∧ load new σ' = Some src
            ∧ (∀ b, b ≠ new → load b σ' = load b σ)
            ∧ separated σ'
  end.
Proof.
  intros Hsep (so & Hso & Hsf & Hsm)%load_Some Hnew.
  destruct (two_copies σ pl so src Hsf Hsm) as (H12 & H1 & H2 & Hc).
  set (t1 := fresh (dom (trees σ))) in *.
  set (σ1 := mk_memory (objects σ) (<[t1:=function src]> (trees σ))) in *.
  set (t2 := fresh (dom (trees σ1))) in *.
  set (σ2 := mk_memory (objects σ) (<[t2:=maxima src]> (trees σ1))) in *.
  unfold copy_construct. rewrite Hso.
  assert (∃ σ',
    (Ret tt, mk_memory (<[new:=mk_object t1 t2]> (objects σ2)) (trees σ2))
    = (Ret tt, σ')
    ∧ load new σ' = Some src
    ∧ (∀ b, b ≠ new → load b σ' = load b σ)
    ∧ separated σ') as Hret.
  { eexists. split; [done|].
    set (σ' := mk_memory _ _).
    assert (trees σ' !! t1 = Some (function src)) as Ht1.
    { subst σ' σ2 σ1. simpl. by rewrite lookup_insert_ne, lookup_insert_eq. }
    assert (trees σ' !! t2 = Some (maxima src)) as Ht2.
    { subst σ' σ2 σ1. simpl. by rewrite lookup_insert_eq. }
    destruct (separated_install σ σ' new t1 t2) as [Hsep' Hothers];
      [done|done|done|done|done|by rewrite Ht1|by rewrite Ht2| |].
    - intros b o' t Hb Ho' Ht.
      destruct (separated_object σ b o' Hsep Ho') as (_ & Hf' & Hm').
      assert (is_Some (trees σ !! t)) as Hs by (by destruct Ht as [->| ->]).
      assert (t ≠ t1) by (intros ->; rewrite H1 in Hs; by destruct Hs).
      assert (t ≠ t2) by (intros ->; rewrite H2 in Hs; by destruct Hs).
      subst σ' σ2 σ1. simpl. by rewrite !lookup_insert_ne.
    - split_and!; [|done..]. apply load_Some. exists (mk_object t1 t2).
      split_and!; [|done..]. subst σ'. simpl. by rewrite lookup_insert_eq. }
  destruct (pl Allocate) as [[|[|n]]|] eqn:Hpl.
  - by rewrite Hc.
  - destruct Hc as (pl1 & -> & ->). f_equal. by apply set_destroy_fresh.
  - destruct Hc as (pl1 & pl2 & -> & ->). exact Hret.
  - destruct Hc as (pl1 & pl2 & -> & ->). exact Hret.
Qed.

(** After a copy, a member call on either object changes that object as
    the member does and leaves the other as it was. *)
Lemma copies_independent {X} (m : M X) σ a b src pl :
  separated σ → a ≠ b → load a σ = Some src → load b σ = Some src →
  load a (call_at m b σ pl).2 = Some src
  ∧ load b (call_at m b σ pl).2 = Some (call m src pl).2
  ∧ load b (call_at m a σ pl).2 = Some src
  ∧ load a (call_at m a σ pl).2 = Some (call m src pl).2.
Proof.
  intros Hsep Hab Ha Hb.
  destruct (call_at_spec m b σ pl src Hsep Hb) as (_ & Hb' & Hbo & _).
  destruct (call_at_spec m a σ pl src Hsep Ha) as (_ & Ha' & Hao & _).
  split_and!; [|done| |done].
  - by rewrite Hbo.
  - by rewrite Hao.
Qed.

(** C9, copies.  Copy assignment and copy construction return exactly when
    neither of their two set copies fails to allocate, so under a plan
    without faults the copy is made.  When they return, the target has the
    state of the source, the other objects are as before and every member
    owns a tree of its own; from then on a member call on the copy changes
    the copy as the member does and leaves the source as it was, and the
    other way round.  When they throw, it is the failure of an allocation
    and memory is as it was: the target is not partially modified and no
    tree is left behind. *)
Theorem copy_independent_and_atomic σ (this fun_ : nat) src tgt pl :
  separated σ → load fun_ σ = Some src → load this σ = Some tgt →
  (∀ r σ', copy_assign this fun_ σ pl = (r, σ') →
     match r with
     | Ret _ =>
         load this σ' = Some src
         ∧ load fun_ σ' = Some src
         ∧ (∀ b, b ≠ this → load b σ' = load b σ)
         ∧ separated σ'
         ∧ (this ≠ fun_ →
            ∀ X (m : M X) pl',
              load this (call_at m fun_ σ' pl').2 = Some src
              ∧ load fun_ (call_at m fun_ σ' pl').2 = Some (call m src pl').2
              ∧ load fun_ (call_at m this σ' pl').2 = Some src
              ∧ load this (call_at m this σ' pl').2 = Some (call m src pl').2)
     | Throw e => e = Failure Allocate ∧ σ' = σ
     | Undefined => False
     end)
  ∧ (this ≠ fun_ →
     ((copy_assign this fun_ σ pl).1 = Ret tt
      ↔ pl Allocate ≠ Some 0 ∧ pl Allocate ≠ Some 1))
  ∧ (∀ new, objects σ !! new = None →
     (∀ r σ', copy_construct new fun_ σ pl = (r, σ') →
        match r with
        | Ret _ =>
            load new σ' = Some src
            ∧ load fun_ σ' = Some src
            ∧ (∀ b, b ≠ new → load b σ' = load b σ)
            ∧ separated σ'
            ∧ (∀ X (m : M X) pl',
                 load new (call_at m fun_ σ' pl').2 = Some src
                 ∧ load fun_ (call_at m fun_ σ' pl').2
                   = Some (call m src pl').2
                 ∧ load fun_ (call_at m new σ' pl').2 = Some src
                 ∧ load new (call_at m new σ' pl').2
                   = Some (call m src pl').2)
        | Throw e => e = Failure Allocate ∧ σ' = σ
        | Undefined => False
        end)
     ∧ ((copy_construct new fun_ σ pl).1 = Ret tt
        ↔ pl Allocate ≠ Some 0 ∧ pl Allocate ≠ Some 1)).
Proof.
  intros Hsep Hsrc Htgt.
  pose proof Htgt as (o & Ho & _)%load_Some.
  split_and!.
  - intros r σ' Hcall. destruct (decide (this = fun_)) as [->|Hne].
    + unfold copy_assign in Hcall. rewrite Ho in Hcall.
      rewrite decide_False in Hcall by (by intros []).
      injection Hcall as <- <-. split_and!; [congruence|done..|].
      by intros [].
    + pose proof (copy_assign_spec σ this fun_ src tgt pl Hsep Hsrc Htgt Hne)
        as Hspec.
      destruct (pl Allocate) as [[|[|n]]|];
        [rewrite Hspec in Hcall; by injection Hcall as <- <-..| |];
        destruct Hspec as (σ'' & Hc & Hthis & Hothers & Hsep');
        rewrite Hc in Hcall; injection Hcall as <- <-;
        (assert (load fun_ σ'' = Some src) as Hfun
           by (by rewrite Hothers by done));
        (split_and!; [done..|]); intros _ X m pl';
        by apply copies_independent.
  - intros Hne.
    pose proof (copy_assign_spec σ this fun_ src tgt pl Hsep Hsrc Htgt Hne)
      as Hspec.
    destruct (pl Allocate) as [[|[|n]]|];
      [rewrite Hspec; simpl; naive_solver..| |];
      destruct Hspec as (σ'' & -> & _); simpl; naive_solver.
  - intros new Hnew.
    assert (new ≠ fun_) as Hne.
    { intros ->. apply load_Some in Hsrc as (? & ? & _). congruence. }
    pose proof (copy_construct_spec σ new fun_ src pl Hsep Hsrc Hnew) as Hspec.
    split.
    + intros r σ' Hcall.
      destruct (pl Allocate) as [[|[|n]]|];
        [rewrite Hspec in Hcall; by injection Hcall as <- <-..| |];
        destruct Hspec as (σ'' & Hc & Hthis & Hothers & Hsep');
        rewrite Hc in Hcall; injection Hcall as <- <-;
        (assert (load fun_ σ'' = Some src) as Hfun
           by (by rewrite Hothers by done));
        (split_and!; [done..|]); intros X m pl';
        by apply copies_independent.
    + destruct (pl Allocate) as [[|[|n]]|];
        [rewrite Hspec; simpl; naive_solver..| |];
        destruct Hspec as (σ'' & -> & _); simpl; naive_solver.
Qed.

(** C10, size and frame of [set_value]: after [set_value(a, v)] has
    returned on a reachable object, one that a failed [push_back] has left
    included, the size is one more when [a] was not
    in the domain and the same when it was, and [value_at(b)] for any other
    argument [b] has the outcome it had before. *)
Theorem set_value_size_frame fm a v pl fm' :
  reachable fm →
  call (set_value a v) fm pl = (Ret tt, fm') →
  (in_domain a fm → size fm' = size fm)
  ∧ (¬ in_domain a fm → size fm' = S (size fm))
  ∧ ∀ b pl', b ≠ a →
      (call (value_at b) fm' pl').1 = (call (value_at b) fm pl').1.
Proof.
  intros Hfm Hcall.
  assert (reachable fm') as Hfm' by (by eapply reachable_set_value).
  pose proof (reachable_sorted fm Hfm) as Hl.
  pose proof (reachable_sorted fm' Hfm') as Hl'.
  apply call_set_value_store in Hcall as Hf.
  unfold size. rewrite Hf, fn_put_length by done. fold (in_domain a fm).
  split_and!.
  - intros Ha. by rewrite decide_True.
  - intros Ha. by rewrite decide_False.
  - intros b pl' Hb.
    assert (∀ w, mk_point b w ∈ function fm' ↔ mk_point b w ∈ function fm) as Hsame.
    { intros w. rewrite Hf, fn_put_elem_of by done. simpl.
      split; [intros [[=]|[? _]]; [congruence|done]|by right]. }
    destruct (decide (in_domain b fm)) as [Hin|Hin].
    + pose proof Hin as (w & Hw)%in_domain_value.
      rewrite (value_at_found b w fm) by done.
      rewrite (value_at_found b w fm') by (done || by apply Hsame).
      by destruct (pl' Compare) as [[|n]|].
    + rewrite (value_at_absent b fm) by done.
      rewrite (value_at_absent b fm').
      * by destruct (pl' Compare) as [[|n]|].
      * done.
      * intros (w & Hw)%in_domain_value. apply Hin, in_domain_value.
        exists w. by apply Hsame.
Qed.

(** ** Further properties of the members *)

Local Instance arg_lt_antisym : AntiSymm (=) (arg_lt (A:=A) (V:=V)).
Proof.
  intros p q Hpq Hqp. unfold arg_lt, comp_by_arg in *.
  by rewrite (less_asym _ _ Hpq) in Hqp.
Qed.

(** A store is determined by the points it holds. *)
Lemma fn_sorted_unique l1 l2 :
  StronglySorted arg_lt l1 → StronglySorted arg_lt l2 →
  (∀ q, q ∈ l1 ↔ q ∈ l2) → l1 = l2.
Proof.
  intros H1 H2 Hq. apply (StronglySorted_unique arg_lt); [done..|].
  apply NoDup_Permutation; auto using fn_sorted_NoDup.
Qed.

(** An object that satisfies the invariant is determined by the points of
    its store. *)
Lemma invariant_canonical fm1 fm2 :
  invariant fm1 → invariant fm2 →
  (∀ q, q ∈ function fm1 ↔ q ∈ function fm2) → fm1 = fm2.
Proof.
  intros (Hl1 & Hm1 & Hp1) (Hl2 & Hm2 & Hp2) Hq.
  assert (function fm1 = function fm2) as Hf by (by apply fn_sorted_unique).
  apply fm_eq; [done|]. apply mx_sorted_unique; [done..|].
  by rewrite Hp1, Hp2, !local_maxima_lms, Hf.
Qed.

Lemma fn_erase_find_elem_of a l q :
  StronglySorted arg_lt l →
  q ∈ fn_erase (fn_find a l) l ↔ q ∈ l ∧ arg q ≠ a.
Proof.
  intros Hl. unfold fn_erase. split.
  - intros (k' & Hk')%list_elem_of_lookup.
    apply delete_lookup_unshift in Hk' as (k & Hk & Hne & _).
    split; [by eapply list_elem_of_lookup_2|].
    intros Ha. by rewrite (fn_find_found a l k q) in Hne.
  - intros [(k & Hk)%list_elem_of_lookup Ha]. apply list_elem_of_lookup.
    exists (shift (fn_find a l) k). rewrite delete_lookup_shift; [done|].
    intros ->. pose proof (lookup_lt_Some _ _ _ Hk) as Hlt.
    destruct (fn_find_lt a l Hlt) as (p & Hp & Hpa). congruence.
Qed.

Lemma call_find a fm pl :
  call (find a) fm pl =
  match pl Compare with
  | Some 0 => (Throw (Failure Compare), fm)
  | _ => (Ret (fn_find a (function fm)), fm)
  end.
Proof.
  unfold call, find, function_find, get_function, tick,
    mbind, mret, M_bind, M_ret. simpl.
  by destruct (pl Compare) as [[|n]|].
Qed.

(** A point of greatest value. *)
Lemma greatest_value_exists l :
  l ≠ [] → ∃ g, g ∈ l ∧ ∀ q, q ∈ l → less (value g) (value q) = false.
Proof.
  induction l as [|p l IH]; [done|]. intros _.
  destruct l as [|p' l'].
  - exists p. split; [by left|]. intros q ->%list_elem_of_singleton.
    apply less_irrefl.
  - destruct IH as (g & Hg & Hmax); [done|].
    destruct (less (value g) (value p)) eqn:Hgp.
    + exists p. split; [by left|]. intros q [->|Hq]%elem_of_cons.
      * apply less_irrefl.
      * apply less_false. specialize (Hmax q Hq).
        apply less_false in Hmax as [Heq|Hlt].
        -- right. by rewrite <-Heq.
        -- right. by eapply less_trans.
    + exists g. split; [by right|]. intros q [->|Hq]%elem_of_cons; auto.
Qed.

Lemma greatest_is_local_maximum l k g :
  l !! k = Some g → (∀ q, q ∈ l → less (value g) (value q) = false) →
  local_max_omit l k (length l) = true.
Proof.
  intros Hk Hmax. rewrite (local_max_omit_end l k g) by done.
  assert (∀ o, (∀ q, o = Some q → q ∈ l) → not_exceeded_by g o = true) as Hne.
  { intros [q|] Hq; simpl; [|done]. by rewrite Hmax by auto. }
  rewrite !Hne; [done|..].
  - intros q Hq. by eapply list_elem_of_lookup_2.
  - intros q Hq. destruct k as [|j]; [done|]. by eapply list_elem_of_lookup_2.
Qed.

Lemma invariant_maxima_elem_of fm q :
  invariant fm →
  q ∈ maxima fm ↔
  ∃ k, function fm !! k = Some q
       ∧ local_max_omit (function fm) k (length (function fm)) = true.
Proof.
  intros (_ & _ & Hp). rewrite Hp, local_maxima_lms. unfold lms.
  by rewrite select_elem_of.
Qed.

(** X1, the store is kept in order: in a reachable object, one that a
    failed [push_back] has left included, the points are listed by
    strictly ascending argument, so no two points of the store have the
    same argument. *)
Theorem store_strictly_ascending fm i j p q :
  reachable fm → i < j →
  function fm !! i = Some p → function fm !! j = Some q →
  less (arg p) (arg q) = true ∧ arg p ≠ arg q.
Proof.
  intros Hl%reachable_sorted Hij Hp Hq.
  pose proof (fn_sorted_lookup _ i j p q Hl Hij Hp Hq) as Hlt.
  split; [done|]. by apply less_ne.
Qed.

(** X2, the calls are defined: on every object, whatever its two sets
    hold, [set_value] and [erase] never dereference an iterator that
    designates no node; they return or throw the failure of a site that
    the plan lets fail, never [InvalidArg], and they return when nothing
    fails. *)
Theorem mutations_are_defined fm pl :
  (∀ a v, ∃ r fm', call (set_value a v) fm pl = (r, fm')
      ∧ (r = Ret tt ∨ ∃ k, r = Throw (Failure k) ∧ pl k ≠ None))
  ∧ (∀ a, ∃ r fm', call (erase a) fm pl = (r, fm')
      ∧ (r = Ret tt ∨ ∃ k, r = Throw (Failure k) ∧ pl k ≠ None))
  ∧ (∀ a v, ∃ fm', call (set_value a v) fm no_faults = (Ret tt, fm'))
  ∧ (∀ a, ∃ fm', call (erase a) fm no_faults = (Ret tt, fm')).
Proof.
  assert (∀ pl' a v, ∃ r fm', call (set_value a v) fm pl' = (r, fm')
      ∧ (r = Ret tt ∨ ∃ k, r = Throw (Failure k) ∧ pl' k ≠ None)) as Hset.
  { intros pl' a v.
    destruct (call (set_value a v) fm pl') as [r fm'] eqn:Hcall.
    exists r, fm'. split; [done|]. apply call_set_value_store in Hcall.
    destruct r as [[]|e|]; [by left| |done].
    destruct Hcall as [(k & -> & ?) _]. right. eauto. }
  assert (∀ pl' a, ∃ r fm', call (erase a) fm pl' = (r, fm')
      ∧ (r = Ret tt ∨ ∃ k, r = Throw (Failure k) ∧ pl' k ≠ None)) as Herase.
  { intros pl' a.
    destruct (call (erase a) fm pl') as [r fm'] eqn:Hcall.
    exists r, fm'. split; [done|]. apply call_erase_store in Hcall.
    destruct r as [[]|e|]; [by left| |done].
    destruct Hcall as [(k & -> & ?) _]. right. eauto. }
  split_and!; [done..| |].
  - intros a v. destruct (Hset no_faults a v) as (r & fm' & Hcall & [->|Hr]);
      [by exists fm'|]. by destruct Hr as (k & _ & ?).
  - intros a. destruct (Herase no_faults a) as (r & fm' & Hcall & [->|Hr]);
      [by exists fm'|]. by destruct Hr as (k & _ & ?).
Qed.

(** X3, the points after [set_value]: after [set_value(a, v)] has returned
    on a reachable object, one that a failed [push_back] has left included,
    the store holds the point (a, v) and the points
    it held before at other arguments, and nothing else. *)
Theorem set_value_points fm a v pl fm' q :
  reachable fm →
  call (set_value a v) fm pl = (Ret tt, fm') →
  q ∈ function fm' ↔ q = mk_point a v ∨ (q ∈ function fm ∧ arg q ≠ a).
Proof.
  intros Hl%reachable_sorted Hcall.
  apply call_set_value_store in Hcall as ->.
  by apply fn_put_elem_of.
Qed.

(** X4, the points after [erase] and its frame: after [erase(a)] has
    returned on a reachable object, one that a failed [push_back] has left
    included, the store holds the points it held
    before at arguments other than [a], and [value_at(b)] for any other
    argument [b] has the outcome it had before. *)
Theorem erase_points_frame fm a pl fm' :
  reachable fm →
  call (erase a) fm pl = (Ret tt, fm') →
  (∀ q, q ∈ function fm' ↔ q ∈ function fm ∧ arg q ≠ a)
  ∧ ∀ b pl', b ≠ a →
      (call (value_at b) fm' pl').1 = (call (value_at b) fm pl').1.
Proof.
  intros Hfm Hcall.
  assert (reachable fm') as Hfm' by (by eapply reachable_erase).
  pose proof (reachable_sorted fm Hfm) as Hl.
  pose proof (reachable_sorted fm' Hfm') as Hl'.
  apply call_erase_store in Hcall as [Hf _].
  assert (∀ q, q ∈ function fm' ↔ q ∈ function fm ∧ arg q ≠ a) as Hpts.
  { intros q. rewrite Hf. by apply fn_erase_find_elem_of. }
  split; [done|]. intros b pl' Hb.
  assert (∀ w, mk_point b w ∈ function fm' ↔ mk_point b w ∈ function fm) as Hsame.
  { intros w. rewrite Hpts. simpl. tauto. }
  destruct (decide (in_domain b fm)) as [Hin|Hin].
  - pose proof Hin as (w & Hw)%in_domain_value.
    rewrite (value_at_found b w fm) by done.
    rewrite (value_at_found b w fm') by (done || by apply Hsame).
    by destruct (pl' Compare) as [[|n]|].
  - rewrite (value_at_absent b fm) by done.
    rewrite (value_at_absent b fm').
    + by destruct (pl' Compare) as [[|n]|].
    + done.
    + intros (w & Hw)%in_domain_value. apply Hin, in_domain_value.
      exists w. by apply Hsame.
Qed.

(** X5, the contract of [find]: on a reachable object, one that a failed
    [push_back] has left included, [find(a)] changes nothing and fails only in a comparison; it returns [end()] iff [a] is
    not in the domain, and otherwise the position of the point with
    argument [a], whose value is what [value_at(a)] returns. *)
Theorem find_contract fm a pl r fm' :
  reachable fm →
  call (find a) fm pl = (r, fm') →
  fm' = fm
  ∧ match r with
    | Ret i =>
        (i = length (function fm) ↔ ¬ in_domain a fm)
        ∧ (i ≠ length (function fm) →
           ∃ p, function fm !! i = Some p ∧ arg p = a
                ∧ call (value_at a) fm pl = (Ret (value p), fm))
    | Throw e => e = Failure Compare ∧ pl Compare ≠ None
    | Undefined => False
    end.
Proof.
  intros Hl%reachable_sorted. rewrite call_find.
  assert (pl Compare ≠ Some 0 →
    (fn_find a (function fm) = length (function fm) ↔ ¬ in_domain a fm)
    ∧ (fn_find a (function fm) ≠ length (function fm) →
       ∃ p, function fm !! fn_find a (function fm) = Some p ∧ arg p = a
            ∧ call (value_at a) fm pl = (Ret (value p), fm))) as Hret.
  { intros Hpl. split.
    - rewrite fn_find_in_domain by done.
      destruct (decide (fn_find a (function fm) = length (function fm))); tauto.
    - intros Hne. destruct (fn_find_lt a (function fm)) as (p & Hp & Ha).
      { pose proof (fn_find_le a (function fm)). lia. }
      exists p. split_and!; [done..|].
      rewrite (value_at_found a (value p)); [|done|].
      + by destruct (pl Compare) as [[|n]|].
      + destruct p as [a' v']. simpl in *. subst a'.
        by eapply list_elem_of_lookup_2. }
  destruct (pl Compare) as [[|n]|] eqn:Hpl; intros [= <- <-];
    (split; [done|]); [done|by apply Hret..].
Qed.

(** X6, history independence while [push_back] has not thrown: two
    intact objects, that is, objects in whose history no call threw from
    the growth of the rollback vector, are equal, maxima set and both
    listings included, when their stores hold the same points. *)
Theorem intact_determined_by_points fm1 fm2 :
  intact fm1 → intact fm2 →
  (∀ q, q ∈ function fm1 ↔ q ∈ function fm2) → fm1 = fm2.
Proof.
  intros H1%intact_invariant H2%intact_invariant.
  by apply invariant_canonical.
Qed.

(** X7, [set_value] at different arguments commutes: the two orders of
    [set_value(a, v)] and [set_value(b, w)] with [a] other than [b] lead
    to the same object. *)
Theorem set_value_commute fm a v b w pl1 pl2 pl3 pl4 fm1 fm12 fm2 fm21 :
  intact fm → a ≠ b →
  call (set_value a v) fm pl1 = (Ret tt, fm1) →
  call (set_value b w) fm1 pl2 = (Ret tt, fm12) →
  call (set_value b w) fm pl3 = (Ret tt, fm2) →
  call (set_value a v) fm2 pl4 = (Ret tt, fm21) →
  fm12 = fm21.
Proof.
  intros Hinv%intact_invariant Hab H1 H12 H2 H21.
  apply call_set_value in H1 as [Hi1 Hf1]; [|done].
  apply call_set_value in H12 as [Hi12 Hf12]; [|done].
  apply call_set_value in H2 as [Hi2 Hf2]; [|done].
  apply call_set_value in H21 as [Hi21 Hf21]; [|done].
  apply invariant_canonical; [done..|]. intros q.
  rewrite Hf12, Hf21, !fn_put_elem_of by (by apply Hi1 || by apply Hi2).
  rewrite Hf1, Hf2, !fn_put_elem_of by apply Hinv.
  split; intros [->|[[->|[??]] ?]]; simpl in *; naive_solver.
Qed.

(** X8, the last write wins: [set_value(a, w)] followed by
    [set_value(a, v)] leads to the object that [set_value(a, v)] alone
    leads to. *)
Theorem set_value_overwrite fm a v w pl1 pl2 pl3 fm1 fm2 fm3 :
  intact fm →
  call (set_value a w) fm pl1 = (Ret tt, fm1) →
  call (set_value a v) fm1 pl2 = (Ret tt, fm2) →
  call (set_value a v) fm pl3 = (Ret tt, fm3) →
  fm2 = fm3.
Proof.
  intros Hinv%intact_invariant H1 H2 H3.
  apply call_set_value in H1 as [Hi1 Hf1]; [|done].
  apply call_set_value in H2 as [Hi2 Hf2]; [|done].
  apply call_set_value in H3 as [Hi3 Hf3]; [|done].
  apply invariant_canonical; [done..|]. intros q.
  rewrite Hf2, Hf3, !fn_put_elem_of by (by apply Hi1 || by apply Hinv).
  rewrite Hf1, !fn_put_elem_of by apply Hinv.
  split; [intros [->|[[->|[??]] ?]]|intros [->|[??]]]; simpl in *; naive_solver.
Qed.

(** X9, insert then erase: [set_value(a, v)] for an argument that is not
    in the domain, followed by [erase(a)], leads back to the object before
    the two calls. *)
Theorem set_value_erase_restores fm a v pl1 pl2 fm1 fm2 :
  intact fm → ¬ in_domain a fm →
  call (set_value a v) fm pl1 = (Ret tt, fm1) →
  call (erase a) fm1 pl2 = (Ret tt, fm2) →
  fm2 = fm.
Proof.
  intros Hinv%intact_invariant Ha H1 H2.
  apply call_set_value in H1 as [Hi1 Hf1]; [|done].
  apply call_erase in H2 as (Hi2 & Hf2 & _); [|done].
  apply invariant_canonical; [done..|]. intros q.
  rewrite Hf2, fn_erase_find_elem_of by apply Hi1.
  rewrite Hf1, fn_put_elem_of by apply Hinv.
  split; [intros [[->|[??]] ?]; simpl in *; naive_solver|].
  intros Hq. split; [right; split; [done|]|].
  - intros <-. apply Ha. by apply list_elem_of_fmap_2.
  - intros <-. apply Ha. by apply list_elem_of_fmap_2.
Qed.

(** X10, [erase] commutes: the two orders of [erase(a)] and [erase(b)] lead
    to the same object. *)
Theorem erase_commute fm a b pl1 pl2 pl3 pl4 fm1 fm12 fm2 fm21 :
  intact fm →
  call (erase a) fm pl1 = (Ret tt, fm1) →
  call (erase b) fm1 pl2 = (Ret tt, fm12) →
  call (erase b) fm pl3 = (Ret tt, fm2) →
  call (erase a) fm2 pl4 = (Ret tt, fm21) →
  fm12 = fm21.
Proof.
  intros Hinv%intact_invariant H1 H12 H2 H21.
  apply call_erase in H1 as (Hi1 & Hf1 & _); [|done].
  apply call_erase in H12 as (Hi12 & Hf12 & _); [|done].
  apply call_erase in H2 as (Hi2 & Hf2 & _); [|done].
  apply call_erase in H21 as (Hi21 & Hf21 & _); [|done].
  apply invariant_canonical; [done..|]. intros q.
  rewrite Hf12, Hf21, !fn_erase_find_elem_of by (by apply Hi1 || by apply Hi2).
  rewrite Hf1, Hf2, !fn_erase_find_elem_of by apply Hinv. tauto.
Qed.

(** X11, [mx_begin] designates the greatest value while [push_back] has
    not thrown: in an intact object, that is, one in whose history no call
    threw from the growth of the rollback vector, [mx_begin()] is
    [mx_end()] iff the store is empty, and otherwise it designates a point
    of the store whose value no point exceeds and whose argument is the
    smallest among the points of that value. *)
Theorem mx_begin_greatest fm :
  intact fm →
  (mx_begin fm = mx_end ↔ function fm = [])
  ∧ ∀ h, mx_begin fm = Some h →
      h ∈ function fm
      ∧ ∀ q, q ∈ function fm →
          less (value h) (value q) = false
          ∧ (value q = value h → less (arg q) (arg h) = false).
Proof.
  intros Hinv%intact_invariant. pose proof Hinv as (Hl & Hmx & Hp).
  assert (∀ g, g ∈ function fm →
    (∀ q, q ∈ function fm → less (value g) (value q) = false) →
    g ∈ maxima fm) as Hgreatest.
  { intros g (k & Hk)%list_elem_of_lookup Hmax.
    apply invariant_maxima_elem_of; [done|]. exists k. split; [done|].
    by eapply greatest_is_local_maximum. }
  unfold mx_begin, mx_end. split.
  - split.
    + intros Hhead. destruct (decide (function fm = [])) as [|Hne]; [done|].
      destruct (greatest_value_exists (function fm) Hne) as (g & Hg & Hmax).
      apply Hgreatest in Hg; [|done].
      destruct (maxima fm); [by apply elem_of_nil in Hg|done].
    + intros Hf. destruct (maxima fm) as [|h rest] eqn:Hm; [done|].
      assert (h ∈ maxima fm) as Hh by (rewrite Hm; by left).
      apply invariant_maxima_elem_of in Hh as (k & Hk & _); [|done].
      by rewrite Hf in Hk.
  - intros h Hhead.
    assert (∃ rest, maxima fm = h :: rest) as [rest Hm].
    { destruct (maxima fm) as [|h' rest]; [done|]. exists rest.
      simpl in Hhead. by simplify_eq. }
    assert (h ∈ maxima fm) as Hh by (rewrite Hm; by left).
    apply invariant_maxima_elem_of in Hh as (k & Hk & _); [|done].
    apply list_elem_of_lookup_2 in Hk as Hhin. split; [done|].
    destruct (greatest_value_exists (function fm)) as (g & Hg & Hmax).
    { intros Hnil. rewrite Hnil in Hhin. by apply elem_of_nil in Hhin. }
    assert (∀ x, x ∈ maxima fm → mx_le h x) as Hfirst.
    { rewrite Hm. intros x [->|Hx]%elem_of_cons.
      - apply comp_by_maxima_irrefl.
      - rewrite Hm in Hmx. apply StronglySorted_inv in Hmx as [_ Hall].
        rewrite Forall_forall in Hall. by apply Hall. }
    assert (value h = value g) as Hhg.
    { pose proof (Hfirst g (Hgreatest g Hg Hmax)) as Hle.
      unfold mx_le in Hle. apply not_true_iff_false in Hle.
      rewrite comp_by_maxima_spec in Hle.
      destruct (less_cases (value h) (value g)) as [?|[?|Hlt]]; [tauto|done|].
      by rewrite (Hmax h Hhin) in Hlt. }
    intros q Hq. split; [rewrite Hhg; by apply Hmax|].
    intros Hqh. assert (q ∈ maxima fm) as Hqm.
    { apply Hgreatest; [done|]. intros x Hx. rewrite Hqh, Hhg. by apply Hmax. }
    pose proof (Hfirst q Hqm) as Hle. unfold mx_le in Hle.
    apply not_true_iff_false in Hle. rewrite comp_by_maxima_spec in Hle.
    destruct (less (arg q) (arg h)) eqn:Hlt; [|done]. destruct Hle. by right.
Qed.

(** X12, [comp_by_maxima] is a strict total order on points: irreflexive,
    transitive, and two points neither of which is before the other are
    the same point. *)
Theorem comp_by_maxima_strict_total :
  (∀ p, comp_by_maxima p p = false)
  ∧ (∀ p q r, comp_by_maxima p q = true → comp_by_maxima q r = true →
              comp_by_maxima p r = true)
  ∧ (∀ p q, comp_by_maxima p q = false → comp_by_maxima q p = false → p = q).
Proof.
  split_and!.
  - apply comp_by_maxima_irrefl.
  - apply comp_by_maxima_trans.
  - apply comp_by_maxima_total.
Qed.

(** In a sorted store a point is determined by its argument. *)
Lemma fn_sorted_arg_inj l p q :
  StronglySorted arg_lt l → p ∈ l → q ∈ l → arg p = arg q → p = q.
Proof.
  intros Hl (i & Hi)%list_elem_of_lookup (j & Hj)%list_elem_of_lookup Hpq.
  assert (i = j) as -> by (by apply (fn_sorted_lookup_inj l i j p q)).
  congruence.
Qed.

(** [value_at] reads the point store only. *)
Lemma value_at_reads_store a fm1 fm2 pl :
  function fm1 = function fm2 →
  (call (value_at a) fm1 pl).1 = (call (value_at a) fm2 pl).1.
Proof.
  intros Hf. rewrite !call_value_at, Hf. by destruct (pl Compare) as [[|n]|].
Qed.

(** X13, the point store survives every failure: whatever throws in
    [set_value] or [erase], the growth of the rollback vector included, and
    whatever the object, the point store is the one before the call; so
    are [size()] and the outcome of [value_at]. *)
Theorem store_survives_failure fm pl e fm' :
  (∃ a v, call (set_value a v) fm pl = (Throw e, fm'))
  ∨ (∃ a, call (erase a) fm pl = (Throw e, fm')) →
  function fm' = function fm
  ∧ size fm' = size fm
  ∧ ∀ b pl', (call (value_at b) fm' pl').1 = (call (value_at b) fm pl').1.
Proof.
  intros Hcall.
  assert (function fm' = function fm) as Hf.
  { destruct Hcall as [(a & v & Hcall)|(a & Hcall)].
    - destruct (leaves_call _ _ _ _ _ _ _ (leaves_set_value a v fm) Hcall)
        as (s' & -> & Hs'). done.
    - destruct (leaves_call _ _ _ _ _ _ _ (leaves_erase a fm) Hcall)
        as (s' & -> & Hs'). done. }
  split_and!; [done|unfold size; by rewrite Hf|].
  intros b pl'. by apply value_at_reads_store.
Qed.

(** X14, failure atomicity while the rollback vector grows: on an intact
    object, under a plan in which [push_back] does not fail, a call of
    [set_value] or [erase] that throws has thrown the failure of a
    comparison or of an allocation and leaves the object as it was, maxima
    set included. *)
Theorem failure_atomic_without_growth fm pl e fm' :
  intact fm → pl Grow = None →
  (∃ a v, call (set_value a v) fm pl = (Throw e, fm'))
  ∨ (∃ a, call (erase a) fm pl = (Throw e, fm')) →
  fm' = fm ∧ (e = Failure Compare ∨ e = Failure Allocate).
Proof.
  intros Hinv%intact_invariant Hpl Hcall.
  assert ((∃ k, e = Failure k ∧ pl k ≠ None)
          ∧ (e ≠ Failure Grow → fm' = fm)) as [(k & -> & Hk) Hfm].
  { destruct Hcall as [(a & v & Hcall)|(a & Hcall)].
    - by apply call_set_value in Hcall.
    - by apply call_erase in Hcall. }
  destruct k; [by split; [apply Hfm|left]|by split; [apply Hfm|right]|done].
Qed.

(** X15, erase then insert: [erase(a)] followed by [set_value(a, v)], for
    the value [v] that the store held at [a], leads back to the object
    before the two calls. *)
Theorem erase_set_value_restores fm a v pl1 pl2 fm1 fm2 :
  intact fm → mk_point a v ∈ function fm →
  call (erase a) fm pl1 = (Ret tt, fm1) →
  call (set_value a v) fm1 pl2 = (Ret tt, fm2) →
  fm2 = fm.
Proof.
  intros Hinv%intact_invariant Hav H1 H2.
  apply call_erase in H1 as (Hi1 & Hf1 & _); [|done].
  apply call_set_value in H2 as [Hi2 Hf2]; [|done].
  apply invariant_canonical; [done..|]. intros q.
  rewrite Hf2, fn_put_elem_of by apply Hi1.
  rewrite Hf1, fn_erase_find_elem_of by apply Hinv.
  split; [intros [->|[[??] ?]]; done|].
  intros Hq. destruct (decide (arg q = a)) as [Ha|Ha]; [left|by right].
  by apply (fn_sorted_arg_inj (function fm)); [apply Hinv|..].
Qed.

(** X16, writing the stored value: [set_value(a, v)] on an intact object
    that holds the point (a, v) leaves the object as it is. *)
Theorem set_value_same_value fm a v pl fm' :
  intact fm → mk_point a v ∈ function fm →
  call (set_value a v) fm pl = (Ret tt, fm') →
  fm' = fm.
Proof.
  intros Hinv%intact_invariant Hav Hcall.
  apply call_set_value in Hcall as [Hi Hf]; [|done].
  apply invariant_canonical; [done..|]. intros q.
  rewrite Hf, fn_put_elem_of by apply Hinv.
  split; [intros [->|[??]]; done|].
  intros Hq. destruct (decide (arg q = a)) as [Ha|Ha]; [left|by right].
  by apply (fn_sorted_arg_inj (function fm)); [apply Hinv|..].
Qed.

(** X17, the maxima set within the store while [push_back] has not
    thrown: in an intact object, that is, one in whose history no call
    threw from the growth of the rollback vector, the nodes of the maxima
    set hold points of the store, no two nodes hold the same point, and
    there are at most [size()] of them. *)
Theorem maxima_within_store fm :
  intact fm →
  (∀ q, q ∈ maxima fm → q ∈ function fm)
  ∧ NoDup (maxima fm)
  ∧ length (maxima fm) ≤ size fm.
Proof.
  intros (Hl & _ & Hp)%intact_invariant.
  assert (local_maxima fm `sublist_of` function fm) as Hsub
    by apply select_sublist.
  split_and!.
  - intros q Hq. rewrite Hp in Hq. by eapply elem_of_sublist.
  - rewrite Hp. eapply sublist_NoDup; [|done]. by apply fn_sorted_NoDup.
  - rewrite Hp. by apply sublist_length.
Qed.

(** X18, self-assignment: [x = x] copies nothing; under every plan it
    returns and leaves memory as it was. *)
Theorem self_assignment_no_op σ (this : nat) o pl :
  objects σ !! this = Some o → copy_assign this this σ pl = (Ret tt, σ).
Proof.
  intros Hthis. unfold copy_assign. rewrite Hthis.
  by rewrite decide_False by (by intros []).
Qed.

(** X19, [comp_by_arg] is a strict weak ordering of the points: it is
    irreflexive and transitive, and two points are unordered exactly when
    they have the same argument, so a store without equivalent nodes has
    one point for each argument. *)
Theorem comp_by_arg_strict_weak :
  (∀ p, comp_by_arg p p = false)
  ∧ (∀ p q r, comp_by_arg p q = true → comp_by_arg q r = true →
              comp_by_arg p r = true)
  ∧ (∀ p q, comp_by_arg p q = false ∧ comp_by_arg q p = false
            ↔ arg p = arg q).
Proof.
  unfold comp_by_arg. split_and!.
  - intros p. apply less_irrefl.
  - intros p q r. apply less_trans.
  - intros p q. split.
    + intros [Hpq Hqp]. by apply less_total.
    + intros ->. split; apply less_irrefl.
Qed.

(** In a separated memory every object has a state. *)
Lemma separated_load σ this o :
  separated σ → objects σ !! this = Some o → is_Some (load this σ).
Proof.
  intros Hsep Ho.
  destruct (separated_object σ this o Hsep Ho) as (_ & [f Hf] & [m Hm]).
  exists (mk_fm f m). apply load_Some. by exists o.
Qed.

(** X21, every member owns a tree of its own, always: memory without
    objects is separated, and the default constructor, the copy
    constructor, [operator=] and the member calls keep memory separated,
    whatever their outcome; the default constructor makes an empty
    object and leaves the others as they were. *)
Theorem memory_stays_separated σ :
  separated (no_objects (A:=A) (V:=V))
  ∧ (separated σ →
     (∀ new, objects σ !! new = None →
        separated (default_construct new σ)
        ∧ load new (default_construct new σ) = Some empty
        ∧ ∀ b, b ≠ new → load b (default_construct new σ) = load b σ)
     ∧ (∀ new fun_ pl, objects σ !! new = None →
          is_Some (objects σ !! fun_) →
          separated (copy_construct new fun_ σ pl).2)
     ∧ (∀ this fun_ pl,
          is_Some (objects σ !! this) → is_Some (objects σ !! fun_) →
          separated (copy_assign this fun_ σ pl).2)
     ∧ (∀ X (m : M X) this pl, separated (call_at m this σ pl).2)).
Proof.
  split.
  { split.
    - intros a o. unfold no_objects. simpl. by rewrite lookup_empty.
    - intros a b o o' t. unfold no_objects. simpl. by rewrite lookup_empty. }
  intros Hsep. split_and!.
  - intros new Hnew. unfold default_construct. cbv zeta.
    set (t1 := fresh (dom (trees σ))).
    set (trees1 := <[t1:=[]]> (trees σ)).
    set (t2 := fresh (dom trees1)).
    set (σ' := mk_memory _ _).
    assert (trees σ !! t1 = None) as H1 by apply not_elem_of_dom, is_fresh.
    assert (trees1 !! t2 = None) as H2' by apply not_elem_of_dom, is_fresh.
    assert (t1 ≠ t2) as Hne.
    { intros Heq. rewrite <-Heq in H2'. subst trees1.
      by rewrite lookup_insert_eq in H2'. }
    assert (trees σ !! t2 = None) as H2.
    { subst trees1. by rewrite lookup_insert_ne in H2'. }
    assert (trees σ' !! t1 = Some []) as Ht1.
    { subst σ' trees1. simpl. by rewrite lookup_insert_ne, lookup_insert_eq. }
    assert (trees σ' !! t2 = Some []) as Ht2.
    { subst σ'. simpl. by rewrite lookup_insert_eq. }
    destruct (separated_install σ σ' new t1 t2) as [Hsep' Hothers];
      [done|done|done|done|done|by rewrite Ht1|by rewrite Ht2| |].
    + intros b o' t Hb Ho' Ht.
      destruct (separated_object σ b o' Hsep Ho') as (_ & Hf' & Hm').
      assert (is_Some (trees σ !! t)) as Hs by (by destruct Ht as [->| ->]).
      assert (t ≠ t1) by (intros ->; rewrite H1 in Hs; by destruct Hs).
      assert (t ≠ t2) by (intros ->; rewrite H2 in Hs; by destruct Hs).
      subst σ' trees1. simpl. by rewrite !lookup_insert_ne.
    + split_and!; [done| |done]. apply load_Some. exists (mk_object t1 t2).
      split_and!; [|done..]. subst σ'. simpl. by rewrite lookup_insert_eq.
  - intros new fun_ pl Hnew [so Hso].
    destruct (separated_load σ fun_ so Hsep Hso) as [src Hsrc].
    pose proof (copy_construct_spec σ new fun_ src pl Hsep Hsrc Hnew) as Hspec.
    destruct (pl Allocate) as [[|[|n]]|];
      [by rewrite Hspec..| |]; by destruct Hspec as (σ' & -> & _ & _ & ?).
  - intros this fun_ pl [o Ho] [so Hso].
    destruct (decide (this = fun_)) as [->|Hne].
    { unfold copy_assign. rewrite Ho.
      by rewrite decide_False by (by intros []). }
    destruct (separated_load σ fun_ so Hsep Hso) as [src Hsrc].
    destruct (separated_load σ this o Hsep Ho) as [tgt Htgt].
    pose proof (copy_assign_spec σ this fun_ src tgt pl Hsep Hsrc Htgt Hne)
      as Hspec.
    destruct (pl Allocate) as [[|[|n]]|];
      [by rewrite Hspec..| |]; by destruct Hspec as (σ' & -> & _ & _ & ?).
  - intros X m this pl. destruct (load this σ) as [fm|] eqn:Hload.
    + by apply (call_at_spec m this σ pl fm).
    + unfold call_at. rewrite Hload. by destruct (objects σ !! this).
Qed.

End Theory.


(** ** The class on integers *)

Section Integers.
Open Scope Z_scope.

(** The scenarios of the specification. *)
Example scenario_replace :
  run_set [(1, 1); (2, 2); (3, 1)] empty
    = mk_fm [pt 1 1; pt 2 2; pt 3 1] [pt 2 2]
  ∧ run_set [(1, 1); (2, 2); (3, 1); (1, 3)] empty
    = mk_fm [pt 1 3; pt 2 2; pt 3 1] [pt 1 3].
Proof. split; vm_compute; reflexivity. Qed.

Example scenario_single :
  run_set [(5, 10)] empty = mk_fm [pt 5 10] [pt 5 10]
  ∧ call (erase 5) (mk_fm [pt 5 10] [pt 5 10]) no_faults = (Ret tt, empty).
Proof. split; vm_compute; reflexivity. Qed.

Example scenario_equal_values :
  run_set [(1, 5); (2, 5)] empty = mk_fm [pt 1 5; pt 2 5] [pt 1 5; pt 2 5]
  ∧ run_set [(1, 5); (2, 5); (3, 10)] empty
    = mk_fm [pt 1 5; pt 2 5; pt 3 10] [pt 3 10; pt 1 5].
Proof. split; vm_compute; reflexivity. Qed.

Lemma step_down_eq :
  step_down
  = mk_fm [pt 0 10; pt 1 5; pt 2 5; pt 3 5] [pt 0 10; pt 2 5; pt 3 5].
Proof. vm_compute; reflexivity. Qed.

Lemma peak_eq : peak = mk_fm [pt 1 5; pt 2 9; pt 3 5] [pt 2 9].
Proof. vm_compute; reflexivity. Qed.

(** One call of [set_value] that returns, by evaluation. *)
Ltac set_value_step fm a v :=
  eapply (intact_set_value fm a v no_faults (Ret tt));
  [|vm_compute; reflexivity|discriminate].

Lemma intact_peak : intact peak.
Proof.
  rewrite peak_eq.
  set_value_step (mk_fm [pt 1 5; pt 2 9] [pt 2 9]) 3 5.
  set_value_step (mk_fm [pt 1 5] [pt 1 5]) 2 9.
  set_value_step (@empty Z Z) 1 5.
  apply intact_empty.
Qed.

Lemma intact_step_down : intact step_down.
Proof.
  rewrite step_down_eq.
  set_value_step (mk_fm [pt 0 10; pt 1 5; pt 2 5] [pt 0 10; pt 2 5]) 3 5.
  set_value_step (mk_fm [pt 0 10; pt 1 5] [pt 0 10]) 2 5.
  set_value_step (mk_fm [pt 0 10] [pt 0 10]) 1 5.
  set_value_step (@empty Z Z) 0 10.
  apply intact_empty.
Qed.

Lemma reachable_peak : reachable peak.
Proof. apply intact_reachable, intact_peak. Qed.

(** C2, the failing input: when the growth of the rollback vector fails in
    [push_back], the point that [update_maxima] has just linked into the
    maxima set is not recorded and the handler leaves it there.  After
    [set_value(1, 1)] on the empty object the store is empty and the maxima
    index lists (1, 1); after [erase(2)] on [peak] the maxima index lists
    (2, 9) and (1, 5) although the store is as before. *)
Theorem push_back_failure_not_rolled_back :
  call (set_value 1 1) empty (fail_at Grow 0)
    = (Throw (Failure Grow), mk_fm [] [pt 1 1])
  ∧ call (erase 2) peak (fail_at Grow 0)
    = (Throw (Failure Grow),
       mk_fm [pt 1 5; pt 2 9; pt 3 5] [pt 2 9; pt 1 5]).
Proof. split; vm_compute; reflexivity. Qed.

(** C1, the failing input: invariant I1 does not hold in every reachable
    object.  [set_value(1, 1)] on the empty object, with the growth of the
    rollback vector failing in [push_back], throws and leaves an object
    whose store is empty and whose maxima index lists (1, 1); a
    [set_value(2, 2)] that returns leads from there to the store [(2, 2)]
    with the index [(2, 2); (1, 1)].  Both objects are reachable, and in
    neither does the maxima index list the local maxima of the store: it
    lists (1, 1), which is not a point of the store.  The defect is the one
    of C2. *)
Theorem maxima_index_broken_by_push_back_failure :
  call (set_value 1 1) empty (fail_at Grow 0)
    = (Throw (Failure Grow), mk_fm [] [pt 1 1])
  ∧ call (set_value 2 2) (mk_fm [] [pt 1 1]) no_faults
    = (Ret tt, mk_fm [pt 2 2] [pt 2 2; pt 1 1])
  ∧ reachable (mk_fm [] [pt 1 1])
  ∧ reachable (mk_fm [pt 2 2] [pt 2 2; pt 1 1])
  ∧ local_maxima (mk_fm [] [pt 1 1]) = []
  ∧ local_maxima (mk_fm [pt 2 2] [pt 2 2; pt 1 1]) = [pt 2 2]
  ∧ ¬ (∀ fm : FunctionMaxima Z Z, reachable fm →
         ∀ p, p ∈ maxima fm ↔
              ∃ i, function fm !! i = Some p ∧ local_maximum_at fm i = true).
Proof.
  set (fm1 := mk_fm [] [pt 1 1]).
  set (fm2 := mk_fm [pt 2 2] [pt 2 2; pt 1 1]).
  assert (call (set_value 1 1) empty (fail_at Grow 0)
          = (Throw (Failure Grow), fm1)) as H1 by (vm_compute; reflexivity).
  assert (call (set_value 2 2) fm1 no_faults = (Ret tt, fm2)) as H2
    by (vm_compute; reflexivity).
  assert (reachable fm1) as Hr1
    by (eapply reachable_set_value; [apply reachable_empty|exact H1]).
  assert (reachable fm2) as Hr2
    by (eapply reachable_set_value; [exact Hr1|exact H2]).
  split_and!; [done..|vm_compute; reflexivity|vm_compute; reflexivity|].
  intros Hall. destruct (Hall fm1 Hr1 (pt 1 1)) as [Hin _].
  destruct Hin as (i & Hi & _); [by left|]. done.
Qed.


(** *** The theorems at concrete objects *)

Lemma maxima_index_is_local_maxima_witness :
  maxima peak ≡ₚ local_maxima peak
  ∧ NoDup (maxima peak)
  ∧ ∀ p, p ∈ maxima peak ↔
         ∃ i, function peak !! i = Some p ∧ local_maximum_at peak i = true.
Proof. apply (maxima_index_is_local_maxima peak), intact_peak. Defined.

Lemma is_local_maximum_omission_witness :
  ∃ b,
    call (is_local_maximum 1 2) peak no_faults = (Ret b, peak)
    ∧ (∀ pl r fm', call (is_local_maximum 1 2) peak pl = (r, fm') →
         fm' = peak ∧ (r = Ret b ∨ r = Throw (Failure Compare)))
    ∧ (1%nat = 2%nat → b = false)
    ∧ (b = true ↔
         1%nat ≠ 2%nat
         ∧ (∀ j q, effective_predecessor 2 1 j → function peak !! j = Some q →
                   less (value (pt 2 9)) (value q) = false)
         ∧ (∀ j q, effective_successor (length (function peak)) 2 1 j →
                   function peak !! j = Some q →
                   less (value (pt 2 9)) (value q) = false)).
Proof.
  apply (is_local_maximum_omission peak 1 2 (pt 2 9)).
  vm_compute; reflexivity.
Defined.


Lemma set_value_round_trip_witness :
  call (value_at 2) (mk_fm [pt 1 5; pt 2 7; pt 3 5] [pt 2 7]) no_faults
    = (Ret 7, mk_fm [pt 1 5; pt 2 7; pt 3 5] [pt 2 7])
  ∧ ∀ pl' r fm'',
      call (value_at 2) (mk_fm [pt 1 5; pt 2 7; pt 3 5] [pt 2 7]) pl' = (r, fm'') →
      fm'' = mk_fm [pt 1 5; pt 2 7; pt 3 5] [pt 2 7]
      ∧ (r = Ret 7 ∨ r = Throw (Failure Compare)).
Proof.
  apply (set_value_round_trip peak 2 7 no_faults); [apply reachable_peak|].
  vm_compute; reflexivity.
Defined.

Lemma erase_effect_witness :
  call (value_at 2) (mk_fm [pt 1 5; pt 3 5] [pt 1 5; pt 3 5]) no_faults
    = (Throw InvalidArg, mk_fm [pt 1 5; pt 3 5] [pt 1 5; pt 3 5])
  ∧ (∀ pl' r fm'',
       call (value_at 2) (mk_fm [pt 1 5; pt 3 5] [pt 1 5; pt 3 5]) pl' = (r, fm'') →
       fm'' = mk_fm [pt 1 5; pt 3 5] [pt 1 5; pt 3 5]
       ∧ (r = Throw InvalidArg ∨ r = Throw (Failure Compare)))
  ∧ (S (size (mk_fm [pt 1 5; pt 3 5] [pt 1 5; pt 3 5])) = size peak
     ↔ in_domain 2 peak)
  ∧ (¬ in_domain 2 peak → mk_fm [pt 1 5; pt 3 5] [pt 1 5; pt 3 5] = peak).
Proof.
  apply (erase_effect peak 2 no_faults); [apply reachable_peak|].
  vm_compute; reflexivity.
Defined.

Lemma value_at_contract_witness :
  peak = peak
  ∧ (Throw InvalidArg = Throw (X:=Z) InvalidArg → ¬ in_domain 4 peak)
  ∧ (¬ in_domain 4 peak →
       Throw (X:=Z) InvalidArg = Throw InvalidArg
       ∨ (Throw (X:=Z) InvalidArg = Throw (Failure Compare)
          ∧ no_faults Compare ≠ None))
  ∧ (in_domain 4 peak →
       (∃ v, Throw InvalidArg = Ret v ∧ mk_point 4 v ∈ function peak)
       ∨ (Throw (X:=Z) InvalidArg = Throw (Failure Compare)
          ∧ no_faults Compare ≠ None))
  ∧ (no_faults Compare = None →
       (Throw (X:=Z) InvalidArg = Throw InvalidArg ↔ ¬ in_domain 4 peak)).
Proof.
  apply (value_at_contract peak 4 no_faults); [apply reachable_peak|].
  vm_compute; reflexivity.
Defined.


Lemma separated_two_objects : separated two_objects.
Proof.
  assert (∀ a o, objects two_objects !! a = Some o →
    (a = 0%nat ∧ o = mk_object 0 1) ∨ (a = 1%nat ∧ o = mk_object 2 3)) as Hobj.
  { intros a o.
    change (objects two_objects)
      with (<[0%nat:=mk_object 0 1]> (<[1%nat:=mk_object 2 3]> ∅)
              : gmap nat object).
    rewrite !lookup_insert_Some, lookup_empty. naive_solver. }
  split.
  - intros a o [[-> ->]|[-> ->]]%Hobj;
      (split_and!; [done|by eexists..]).
  - intros a b o o' t [[-> ->]|[-> ->]]%Hobj [[-> ->]|[-> ->]]%Hobj;
      unfold owns; simpl; intros [->| ->] [?|?]; done.
Qed.

Lemma copy_independent_and_atomic_witness :
  (∃ σ', copy_assign 0 1 two_objects no_faults = (Ret tt, σ')
         ∧ load 0 σ' = Some step_down
         ∧ load 1 σ' = Some step_down
         ∧ separated σ'
         ∧ ∀ X (m : M X) pl',
             load 0 (call_at m 1 σ' pl').2 = Some step_down
             ∧ load 1 (call_at m 1 σ' pl').2 = Some (call m step_down pl').2
             ∧ load 1 (call_at m 0 σ' pl').2 = Some step_down
             ∧ load 0 (call_at m 0 σ' pl').2 = Some (call m step_down pl').2)
  ∧ copy_assign 0 1 two_objects (fail_at Allocate 1)
    = (Throw (Failure Allocate), two_objects).
Proof.
  assert (load 1 two_objects = Some step_down) as Hsrc
    by (vm_compute; reflexivity).
  assert (load 0 two_objects = Some peak) as Htgt
    by (vm_compute; reflexivity).
  split.
  - destruct (copy_independent_and_atomic two_objects 0 1 step_down peak
                no_faults separated_two_objects Hsrc Htgt)
      as (Hassign & Hret & _).
    destruct (copy_assign 0 1 two_objects no_faults) as [r σ'] eqn:Hcall.
    assert (r = Ret tt) as -> by (apply Hret; [lia|split; discriminate]).
    exists σ'. split; [done|].
    destruct (Hassign _ _ eq_refl) as (H0 & H1 & _ & Hsep & Hind).
    split_and!; [done..|]. apply Hind. lia.
  - destruct (copy_independent_and_atomic two_objects 0 1 step_down peak
                (fail_at Allocate 1) separated_two_objects Hsrc Htgt)
      as (Hassign & Hret & _).
    destruct (copy_assign 0 1 two_objects (fail_at Allocate 1))
      as [r σ'] eqn:Hcall.
    specialize (Hassign _ _ eq_refl). destruct r as [[]|e|]; [|by destruct Hassign as [-> ->]|done].
    exfalso. destruct Hret as [Hret _]; [lia|].
    destruct (Hret eq_refl) as [_ Hne]. by apply Hne.
Defined.

Lemma set_value_size_frame_witness :
  (in_domain 4 peak →
     size (mk_fm [pt 1 5; pt 2 9; pt 3 5; pt 4 1] [pt 2 9]) = size peak)
  ∧ (¬ in_domain 4 peak →
     size (mk_fm [pt 1 5; pt 2 9; pt 3 5; pt 4 1] [pt 2 9]) = S (size peak))
  ∧ ∀ b pl', b ≠ 4 →
      (call (value_at b) (mk_fm [pt 1 5; pt 2 9; pt 3 5; pt 4 1] [pt 2 9]) pl').1
      = (call (value_at b) peak pl').1.
Proof.
  apply (set_value_size_frame peak 4 1 no_faults); [apply reachable_peak|].
  vm_compute; reflexivity.
Defined.

(** *** The further properties at concrete objects *)

Lemma not_in_domain_4_peak : ¬ in_domain 4 peak.
Proof.
  unfold in_domain. rewrite peak_eq. simpl.
  rewrite !elem_of_cons, elem_of_nil. intros [?|[?|[?|[]]]]; discriminate.
Qed.

Lemma peak_holds_2_9 : mk_point 2 9 ∈ function peak.
Proof. apply (list_elem_of_lookup_2 _ 1%nat). vm_compute; reflexivity. Qed.

Lemma store_strictly_ascending_witness :
  less (arg (pt 1 5)) (arg (pt 2 9)) = true ∧ arg (pt 1 5) ≠ arg (pt 2 9).
Proof.
  apply (store_strictly_ascending peak 0 1 (pt 1 5) (pt 2 9));
    [apply reachable_peak|lia|vm_compute; reflexivity..].
Defined.

Lemma mutations_are_defined_witness :
  (∀ a v, ∃ r fm', call (set_value a v) peak (fail_at Compare 1) = (r, fm')
      ∧ (r = Ret tt ∨ ∃ k, r = Throw (Failure k) ∧ fail_at Compare 1 k ≠ None))
  ∧ (∀ a, ∃ r fm', call (erase a) peak (fail_at Compare 1) = (r, fm')
      ∧ (r = Ret tt ∨ ∃ k, r = Throw (Failure k) ∧ fail_at Compare 1 k ≠ None))
  ∧ (∀ a v, ∃ fm', call (set_value a v) peak no_faults = (Ret tt, fm'))
  ∧ (∀ a, ∃ fm', call (erase a) peak no_faults = (Ret tt, fm')).
Proof. exact (mutations_are_defined peak (fail_at Compare 1)). Defined.

Lemma set_value_points_witness :
  pt 4 1 ∈ function (call (set_value 4 1) peak no_faults).2
  ↔ pt 4 1 = mk_point 4 1 ∨ (pt 4 1 ∈ function peak ∧ arg (pt 4 1) ≠ 4).
Proof.
  apply (set_value_points peak 4 1 no_faults); [apply reachable_peak|].
  vm_compute; reflexivity.
Defined.

Lemma erase_points_frame_witness :
  (∀ q, q ∈ function (call (erase 2) peak no_faults).2
        ↔ q ∈ function peak ∧ arg q ≠ 2)
  ∧ ∀ b pl', b ≠ 2 →
      (call (value_at b) (call (erase 2) peak no_faults).2 pl').1
      = (call (value_at b) peak pl').1.
Proof.
  apply (erase_points_frame peak 2 no_faults); [apply reachable_peak|].
  vm_compute; reflexivity.
Defined.

Lemma find_contract_witness :
  peak = peak
  ∧ (1%nat = length (function peak) ↔ ¬ in_domain 2 peak)
  ∧ (1%nat ≠ length (function peak) →
     ∃ p, function peak !! 1%nat = Some p ∧ arg p = 2
          ∧ call (value_at 2) peak no_faults = (Ret (value p), peak)).
Proof.
  apply (find_contract peak 2 no_faults (Ret 1%nat) peak);
    [apply reachable_peak|vm_compute; reflexivity].
Defined.

Lemma intact_determined_by_points_witness :
  peak = run_set [(3, 5); (1, 5); (2, 9)] empty.
Proof.
  apply intact_determined_by_points;
    [apply intact_peak|apply intact_run_set, intact_empty|].
  intros q.
  by replace (function (run_set [(3, 5); (1, 5); (2, 9)] empty))
    with (function peak) by (vm_compute; reflexivity).
Defined.

Lemma set_value_commute_witness :
  (call (set_value 5 2) (call (set_value 4 1) peak no_faults).2 no_faults).2
  = (call (set_value 4 1) (call (set_value 5 2) peak no_faults).2 no_faults).2.
Proof.
  apply (set_value_commute peak 4 1 5 2 no_faults no_faults no_faults no_faults
           (call (set_value 4 1) peak no_faults).2 _
           (call (set_value 5 2) peak no_faults).2 _);
    [apply intact_peak|discriminate|vm_compute; reflexivity..].
Defined.

Lemma set_value_overwrite_witness :
  (call (set_value 2 7) (call (set_value 2 1) peak no_faults).2 no_faults).2
  = (call (set_value 2 7) peak no_faults).2.
Proof.
  apply (set_value_overwrite peak 2 7 1 no_faults no_faults no_faults
           (call (set_value 2 1) peak no_faults).2);
    [apply intact_peak|vm_compute; reflexivity..].
Defined.

Lemma set_value_erase_restores_witness :
  (call (erase 4) (call (set_value 4 1) peak no_faults).2 no_faults).2 = peak.
Proof.
  apply (set_value_erase_restores peak 4 1 no_faults no_faults
           (call (set_value 4 1) peak no_faults).2);
    [apply intact_peak|apply not_in_domain_4_peak|vm_compute; reflexivity..].
Defined.

Lemma erase_commute_witness :
  (call (erase 3) (call (erase 1) peak no_faults).2 no_faults).2
  = (call (erase 1) (call (erase 3) peak no_faults).2 no_faults).2.
Proof.
  apply (erase_commute peak 1 3 no_faults no_faults no_faults no_faults
           (call (erase 1) peak no_faults).2 _
           (call (erase 3) peak no_faults).2 _);
    [apply intact_peak|vm_compute; reflexivity..].
Defined.

Lemma mx_begin_greatest_witness :
  (mx_begin step_down = mx_end ↔ function step_down = [])
  ∧ ∀ h, mx_begin step_down = Some h →
      h ∈ function step_down
      ∧ ∀ q, q ∈ function step_down →
          less (value h) (value q) = false
          ∧ (value q = value h → less (arg q) (arg h) = false).
Proof. apply (mx_begin_greatest step_down), intact_step_down. Defined.

Lemma comp_by_maxima_strict_total_witness :
  (∀ p : point Z Z, comp_by_maxima p p = false)
  ∧ (∀ p q r : point Z Z,
       comp_by_maxima p q = true → comp_by_maxima q r = true →
       comp_by_maxima p r = true)
  ∧ (∀ p q : point Z Z,
       comp_by_maxima p q = false → comp_by_maxima q p = false → p = q).
Proof. exact (comp_by_maxima_strict_total (A:=Z) (V:=Z)). Defined.

Lemma store_survives_failure_witness :
  function (call (erase 2) peak (fail_at Grow 0)).2 = function peak
  ∧ size (call (erase 2) peak (fail_at Grow 0)).2 = size peak
  ∧ ∀ b pl',
      (call (value_at b) (call (erase 2) peak (fail_at Grow 0)).2 pl').1
      = (call (value_at b) peak pl').1.
Proof.
  apply (store_survives_failure peak (fail_at Grow 0) (Failure Grow)).
  right. exists 2. vm_compute; reflexivity.
Defined.

Lemma failure_atomic_without_growth_witness :
  (call (set_value 4 1) peak (fail_at Compare 1)).2 = peak
  ∧ (Failure Compare = Failure Compare ∨ Failure Compare = Failure Allocate).
Proof.
  apply (failure_atomic_without_growth peak (fail_at Compare 1));
    [apply intact_peak|reflexivity|].
  left. exists 4, 1. vm_compute; reflexivity.
Defined.

Lemma erase_set_value_restores_witness :
  (call (set_value 2 9) (call (erase 2) peak no_faults).2 no_faults).2 = peak.
Proof.
  apply (erase_set_value_restores peak 2 9 no_faults no_faults
           (call (erase 2) peak no_faults).2);
    [apply intact_peak|apply peak_holds_2_9|vm_compute; reflexivity..].
Defined.

Lemma set_value_same_value_witness :
  (call (set_value 2 9) peak no_faults).2 = peak.
Proof.
  apply (set_value_same_value peak 2 9 no_faults);
    [apply intact_peak|apply peak_holds_2_9|vm_compute; reflexivity].
Defined.

Lemma maxima_within_store_witness :
  (∀ q, q ∈ maxima step_down → q ∈ function step_down)
  ∧ NoDup (maxima step_down)
  ∧ (length (maxima step_down) ≤ size step_down)%nat.
Proof. apply (maxima_within_store step_down), intact_step_down. Defined.

Lemma self_assignment_no_op_witness :
  copy_assign 0 0 two_objects (fail_at Allocate 0) = (Ret tt, two_objects).
Proof.
  apply (self_assignment_no_op two_objects 0 (mk_object 0 1)). reflexivity.
Defined.

Lemma comp_by_arg_strict_weak_witness :
  (∀ p : point Z Z, comp_by_arg p p = false)
  ∧ (∀ p q r : point Z Z,
       comp_by_arg p q = true → comp_by_arg q r = true →
       comp_by_arg p r = true)
  ∧ (∀ p q : point Z Z,
       comp_by_arg p q = false ∧ comp_by_arg q p = false ↔ arg p = arg q).
Proof. exact (comp_by_arg_strict_weak (A:=Z) (V:=Z)). Defined.

Lemma memory_stays_separated_witness :
  separated (no_objects (A:=Z) (V:=Z))
  ∧ (∀ new, objects two_objects !! new = None →
       separated (default_construct new two_objects)
       ∧ load new (default_construct new two_objects) = Some empty
       ∧ ∀ b, b ≠ new → load b (default_construct new two_objects)
                        = load b two_objects)
  ∧ (∀ new fun_ pl, objects two_objects !! new = None →
       is_Some (objects two_objects !! fun_) →
       separated (copy_construct new fun_ two_objects pl).2)
  ∧ (∀ this fun_ pl,
       is_Some (objects two_objects !! this) →
       is_Some (objects two_objects !! fun_) →
       separated (copy_assign this fun_ two_objects pl).2)
  ∧ (∀ X (m : M X) this pl, separated (call_at m this two_objects pl).2).
Proof.
  destruct (memory_stays_separated two_objects) as [Hnone Hkeep].
  split; [exact Hnone|]. apply Hkeep, separated_two_objects.
Defined.

End Integers.
